(** * MovieDoppelganger: the capture-to-reveal pipeline

    A shallow embedding of the scripts of the MovieDoppelganger web
    application ([scripts/animation.js], [scripts/camera.js],
    [scripts/faceDetection.js], [scripts/preloader.js] and the main
    application module), with the properties of the natural-language
    specification stated over it.

    Conventions of the embedding.
    - JavaScript numbers that stay integral (counters, milliseconds, array
      indices) are [Z]; numbers that can be fractional (random draws, box
      coordinates, progress ratios) are exact rationals [Q].  Rounding of
      IEEE doubles is not modelled.
    - [Math.random()] is an explicit source: the n-th call returns
      [next rnd n], a rational in [0,1).
    - Timers are ideal: a [setTimeout(f, ms)] fires exactly [ms]
      milliseconds later and a [setInterval(f, ms)] fires at every multiple
      of [ms]; the code between two awaits takes no time.
    - The elements the scripts look up in the page exist, so the guards
      on them ([if (this.video)], [if (progressBar)]) are taken.
    - Event handlers run to completion one at a time, in the order of the
      event list handed to the model. *)

From Stdlib Require Import ZArith QArith Qround Qminmax Lia Lqa DecimalString.
From stdpp Require Import base decidable option list strings gmap.

(** ** JavaScript primitives *)

Module Js.

(** [Math.random()]: the value returned by the n-th call. *)
Record Random := {
  next : nat -> Q;
  next_range : forall n, (0 <= next n)%Q /\ (next n < 1)%Q
}.

(** A random source for examples: 0.37, 0.74, 0.11, ... *)
Definition sample_draw (n : nat) : Q :=
  (inject_Z ((Z.of_nat n * 37 + 37) mod 100) / 100)%Q.

Definition sample_random : Random.
Proof.
  refine {| next := sample_draw |}.
  intros n. unfold sample_draw.
  pose proof (Z.mod_pos_bound (Z.of_nat n * 37 + 37) 100 ltac:(lia)) as [Hlo Hhi].
  split.
  - apply Qle_shift_div_l; [reflexivity|]. unfold Qle; simpl; lia.
  - apply Qlt_shift_div_r; [reflexivity|]. unfold Qlt; simpl; lia.
Defined.

(** [Math.floor(Math.random() * n)] at call number [call]. *)
Definition floor_random (rnd : Random) (call : nat) (n : Z) : Z :=
  Qfloor (next rnd call * inject_Z n).

(** The result of [a % b] on integral operands: [NaN] when [b] is 0. *)
Inductive Number :=
| NaN
| Int (z : Z).

Definition rem (a b : Z) : Number :=
  if (b =? 0)%Z then NaN else Int (Z.rem a b).

(** [arr[i]]: [undefined] (here [None]) for [NaN], a negative index or an
    index past the end. *)
Definition index {A : Type} (arr : list A) (i : Number) : option A :=
  match i with
  | NaN => None
  | Int z => if (z <? 0)%Z then None else arr !! Z.to_nat z
  end.

(** Template-literal rendering of an integer. *)
Definition to_string (z : Z) : string := NilZero.string_of_int (Z.to_int z).

(** What [audio.play()] does. *)
Inductive PlayResult :=
| PlayThrows
| PlayReturnsUndefined
| PlayFulfils
| PlayRejects (err_name : string).

Record Audio := {
  audio_src : string;
  audio_duration : Z;
  audio_play : PlayResult
}.

(** A canvas, as far as the scripts read and write it: its two size
    attributes, holding the values assigned to them. *)
Record Canvas := {
  width : Q;
  height : Q
}.

(** Observable effects of one guarded play request, as both
    [Camera.playSound] and the inline block of [Animation.animateReveal]
    perform it. *)
Inductive SoundEffect :=
| PlayStarted (src : string)
| ConsoleWarn (msg : string).

(** [if (sound) { try { sound.currentTime = 0; const p = sound.play();
    if (p !== undefined) p.catch(warn) } catch (err) { warn } }].
    [what] is the word the warnings use for the sound.  The warning of a
    rejected promise is listed right after the request. *)
Definition play_guarded (what : string) (sound : option Audio) : list SoundEffect :=
  match sound with
  | None => []
  | Some a =>
      match audio_play a with
      | PlayThrows => [ConsoleWarn ("Error playing " +:+ what +:+ ":")]
      | PlayReturnsUndefined => [PlayStarted (audio_src a)]
      | PlayFulfils => [PlayStarted (audio_src a)]
      | PlayRejects err_name =>
          PlayStarted (audio_src a)
          :: ConsoleWarn ("Could not play " +:+ what +:+ ":")
          :: (if String.eqb err_name "NotAllowedError"
              then [ConsoleWarn "Audio playback blocked. User interaction may be required."]
              else [])
      end
  end.

End Js.

(** ** Scripts of timed steps

    An [async] function whose only suspensions are timed waits is a list of
    steps; [Wait ms] is [await new Promise(r => setTimeout(r, ms))]. *)

Module Timeline.

Inductive Action (Op : Type) :=
| Wait (ms : Z)
| Do (op : Op).
Arguments Wait {Op} ms.
Arguments Do {Op} op.

Section Script.
Context {Op : Type}.

Fixpoint elapsed (s : list (Action Op)) : Z :=
  match s with
  | [] => 0
  | Wait ms :: s' => ms + elapsed s'
  | Do _ :: s' => elapsed s'
  end.

Fixpoint waits (s : list (Action Op)) : list Z :=
  match s with
  | [] => []
  | Wait ms :: s' => ms :: waits s'
  | Do _ :: s' => waits s'
  end.

(** Every operation with the time at which it runs, the script starting at
    [now]. *)
Fixpoint stamp (now : Z) (s : list (Action Op)) : list (Z * Op) :=
  match s with
  | [] => []
  | Wait ms :: s' => stamp (now + ms) s'
  | Do op :: s' => (now, op) :: stamp now s'
  end.

End Script.

(** [setInterval(callback, period)]: the callback runs at every multiple of
    [period] until it calls [clearInterval]; it returns the new state and
    whether it cleared the interval.  [fuel] bounds the number of firings
    observed. *)
Section Interval.
Context {St : Type} (period : Z) (callback : Z -> St -> St * bool).

Fixpoint run (fuel : nat) (now : Z) (st : St) : Z * St * bool :=
  match fuel with
  | O => (now, st, false)
  | S fuel' =>
      let now' := (now + period)%Z in
      let '(st', cleared) := callback now' st in
      if cleared then (now', st', true) else run fuel' now' st'
  end.

End Interval.

End Timeline.

(** ** scripts/animation.js *)

Module Animation.

(** A candidate portrait: an object with a [src] (and, for the placeholder
    list of the preloader, a [name]). *)
Record Character := {
  src : string;
  name : option string
}.

(** [[arr[i], arr[j]] = [arr[j], arr[i]]].  Both indices are in range
    whenever the random draws are in [0,1); the other branch keeps the model
    total. *)
Definition swap {A : Type} (arr : list A) (i j : nat) : list A :=
  match arr !! i, arr !! j with
  | Some ai, Some aj => <[j := ai]> (<[i := aj]> arr)
  | _, _ => arr
  end.

(** The loop of [shuffleArray]: [for (let i = n - 1; i > 0; i--)].  Returns
    the array and the number of [Math.random()] calls made so far. *)
Fixpoint shuffle_loop {A : Type} (rnd : Js.Random) (calls : nat) (i : nat)
    (shuffled : list A) : list A * nat :=
  match i with
  | O => (shuffled, calls)
  | S i' =>
      let j := Z.to_nat (Js.floor_random rnd calls (Z.of_nat i + 1)) in
      shuffle_loop rnd (S calls) i' (swap shuffled i j)
  end.

Definition shuffleArray {A : Type} (rnd : Js.Random) (calls : nat)
    (array : list A) : list A * nat :=
  shuffle_loop rnd calls (length array - 1) array.

(** The two DOM nodes [animateMatching] writes to. *)
Record MatchDom := {
  characterImg_src : option string;
  matchPercentage_textContent : option string
}.

(** One firing of the interval callback, as observed. *)
Record Switch := {
  sw_time : Z;
  sw_index : Js.Number;
  sw_character : option Character;
  sw_percentage : Z
}.

Record MatchState := {
  currentSwitch : Z;
  random_calls : nat;
  dom : MatchDom;
  resolved : bool;
  switches : list Switch
}.

Definition switchInterval : Z := 200.

(** The body of the [setInterval] callback of [animateMatching]. *)
Definition matching_callback (rnd : Js.Random) (shuffledCharacters : list Character)
    (switchCount : Z) (now : Z) (st : MatchState) : MatchState * bool :=
  let characterIndex :=
    Js.rem (currentSwitch st) (Z.of_nat (length shuffledCharacters)) in
  let character := Js.index shuffledCharacters characterIndex in
  let img_src :=
    match character with
    | Some c => Some (src c)
    | None => characterImg_src (dom st)
    end in
  let percentage := (Js.floor_random rnd (random_calls st) 41 + 20)%Z in
  let text := (Js.to_string percentage +:+ "%")%string in
  let currentSwitch' := (currentSwitch st + 1)%Z in
  let done := (switchCount <=? currentSwitch')%Z in
  ({| currentSwitch := currentSwitch';
      random_calls := S (random_calls st);
      dom := {| characterImg_src := img_src;
                matchPercentage_textContent := Some text |};
      resolved := done;
      switches := switches st ++
        [{| sw_time := now; sw_index := characterIndex;
            sw_character := character; sw_percentage := percentage |}] |},
   done).

(** The outcome of a run: the state left by the callback and the time of
    the last firing. *)
Record MatchRun := {
  run_shuffled : list Character;
  run_state : MatchState;
  run_clock : Z;
  run_cleared : bool
}.

(** [animateMatching(userCanvas, characterImages, duration)], observed for
    [fuel] firings of its interval.  [Math.floor(duration / switchInterval)]
    is the floor division of [Z]. *)
Definition animateMatching (rnd : Js.Random) (characterImages : list Character)
    (duration : Z) (fuel : nat) : MatchRun :=
  let '(shuffledCharacters, calls) := shuffleArray rnd 0 characterImages in
  let switchCount := (duration / switchInterval)%Z in
  let st0 := {| currentSwitch := 0; random_calls := calls;
                dom := {| characterImg_src := None;
                          matchPercentage_textContent := None |};
                resolved := false; switches := [] |} in
  let '(now, st, cleared) :=
    Timeline.run switchInterval
      (matching_callback rnd shuffledCharacters switchCount) fuel 0 st0 in
  {| run_shuffled := shuffledCharacters; run_state := st;
     run_clock := now; run_cleared := cleared |}.

(** *** The log of a run, described switch by switch

    The k-th switch (from 0) of a run over the shuffled array [shuffled]
    whose shuffle left the random source at call [calls]. *)
Definition switch_at (rnd : Js.Random) (shuffled : list Character) (calls : nat)
    (k : nat) : Switch :=
  let i := Js.rem (Z.of_nat k) (Z.of_nat (length shuffled)) in
  {| sw_time := switchInterval * (Z.of_nat k + 1);
     sw_index := i;
     sw_character := Js.index shuffled i;
     sw_percentage := Js.floor_random rnd (calls + k) 41 + 20 |}.

(** The content of the two DOM nodes after the switches of a log. *)
Definition dom_after (log : list Switch) : MatchDom :=
  {| characterImg_src :=
       foldl (fun acc sw => match sw_character sw with
                            | Some c => Some (src c)
                            | None => acc
                            end) None log;
     matchPercentage_textContent :=
       foldl (fun _ sw => Some (Js.to_string (sw_percentage sw) +:+ "%")%string) None log |}.

(** The number of times the callback fires: it fires once before it first
    compares [currentSwitch] with [switchCount]. *)
Definition firings (duration : Z) : nat :=
  Z.to_nat (Z.max 1 (duration / switchInterval)).

(** The callback has fired [k] times: its captured variables, the log and
    the two DOM nodes. *)
Definition after_switches (rnd : Js.Random) (shuffled : list Character)
    (switchCount : Z) (calls : nat) (k : nat) (st : MatchState) : Prop :=
  currentSwitch st = Z.of_nat k
  /\ random_calls st = (calls + k)%nat
  /\ switches st = map (switch_at rnd shuffled calls) (seq 0 k)
  /\ dom st = dom_after (switches st)
  /\ resolved st = (negb (k =? 0)%nat && (switchCount <=? Z.of_nat k)%Z).

(** The elements [animateReveal] toggles classes on. *)
Inductive Element :=
| MatchFoundFlash
| RevealContent
| RevealUserCanvas
| RevealResultImage
| RevealText
| RestartBtn.

Inductive RevealOp :=
| ClassAdd (el : Element) (cls : string)
| ClassRemove (el : Element) (cls : string)
| CopyUserCanvas (w h : Q)
| SetResultSrc (s : string)
| Sound (e : Js.SoundEffect)
| TriggerConfetti.

Definition wait {Op : Type} (ms : Z) : Timeline.Action Op := Timeline.Wait ms.

(** [animateReveal(userCanvas, slothImage, trumpetSound)], statement by
    statement. *)
Definition animateReveal (userCanvas : Js.Canvas) (slothImage : Character)
    (trumpetSound : option Js.Audio) : list (Timeline.Action RevealOp) :=
  [ Timeline.Do (ClassAdd MatchFoundFlash "active");
    wait 2500;
    Timeline.Do (ClassRemove MatchFoundFlash "active");
    wait 300;
    Timeline.Do (ClassAdd RevealContent "active");
    Timeline.Do (CopyUserCanvas (Js.width userCanvas) (Js.height userCanvas));
    Timeline.Do (SetResultSrc (src slothImage));
    wait 1500;
    Timeline.Do (ClassAdd RevealUserCanvas "fade-out");
    wait 1000 ]
  ++ map (fun e => Timeline.Do (Sound e)) (Js.play_guarded "trumpet sound" trumpetSound)
  ++ [ Timeline.Do (ClassAdd RevealResultImage "fade-in");
       wait 1000;
       Timeline.Do (ClassAdd RevealText "active");
       Timeline.Do TriggerConfetti;
       wait 1000;
       Timeline.Do (ClassAdd RestartBtn "active") ].

Definition is_sound (op : RevealOp) : bool :=
  match op with
  | Sound _ => true
  | _ => false
  end.

Definition is_restart (op : RevealOp) : bool :=
  match op with
  | ClassAdd RestartBtn _ => true
  | _ => false
  end.

(** The script without its audio effects. *)
Fixpoint visual (s : list (Timeline.Action RevealOp)) : list (Timeline.Action RevealOp) :=
  match s with
  | [] => []
  | Timeline.Do op :: s' => if is_sound op then visual s' else Timeline.Do op :: visual s'
  | a :: s' => a :: visual s'
  end.

(** *** [triggerConfetti]

    One call of [confetti], with the time (since [triggerConfetti] was
    called) at which it is made. *)
Record Burst := {
  burst_time : Z;
  particleCount : Q;
  origin_x : Q;
  origin_y : Q
}.

Definition confetti_duration : Z := 5 * 1000.

(** [randomInRange(min, max)], [r] being the draw. *)
Definition randomInRange (r min max : Q) : Q := (r * (max - min) + min)%Q.

(** The body of the interval callback of [triggerConfetti]; [now] is
    [Date.now()] counted from the call, so [timeLeft] is
    [confetti_duration - now].  The state is the number of random draws made
    and the bursts fired so far. *)
Definition confetti_callback (rnd : Js.Random) (now : Z) (st : nat * list Burst)
    : (nat * list Burst) * bool :=
  let '(calls, bursts) := st in
  let timeLeft := (confetti_duration - now)%Z in
  if (timeLeft <=? 0)%Z then (st, true)
  else
    let count := (50 * (inject_Z timeLeft / inject_Z confetti_duration))%Q in
    ((calls + 4,
      bursts ++
      [ {| burst_time := now; particleCount := count;
           origin_x := randomInRange (Js.next rnd calls) 0.1 0.3;
           origin_y := (Js.next rnd (calls + 1) - 0.2)%Q |};
        {| burst_time := now; particleCount := count;
           origin_x := randomInRange (Js.next rnd (calls + 2)) 0.7 0.9;
           origin_y := (Js.next rnd (calls + 3) - 0.2)%Q |} ])%nat,
     false).

Definition triggerConfetti (rnd : Js.Random) (calls : nat) (fuel : nat)
    : Z * (nat * list Burst) * bool :=
  Timeline.run 250 (confetti_callback rnd) fuel 0 (calls, []).

(** The two bursts of the k-th firing (from 1) of a run that started with
    the random source at call [calls]. *)
Definition confetti_at (rnd : Js.Random) (calls : nat) (k : nat) : list Burst :=
  let now := (250 * Z.of_nat k)%Z in
  let c := (calls + 4 * (k - 1))%nat in
  let count := (50 * (inject_Z (confetti_duration - now) / inject_Z confetti_duration))%Q in
  [ {| burst_time := now; particleCount := count;
       origin_x := randomInRange (Js.next rnd c) 0.1 0.3;
       origin_y := (Js.next rnd (c + 1) - 0.2)%Q |};
    {| burst_time := now; particleCount := count;
       origin_x := randomInRange (Js.next rnd (c + 2)) 0.7 0.9;
       origin_y := (Js.next rnd (c + 3) - 0.2)%Q |} ].

(** *** [drawImageToCanvas]

    The size given to the canvas, whether the background square is filled,
    and the rectangle the image is drawn into.  An image is known by its
    [width] and [height]. *)
Record Fit := {
  fit_canvas : Js.Canvas;
  fit_filled : bool;
  fit_x : Q;
  fit_y : Q;
  fit_width : Q;
  fit_height : Q
}.

(** [drawImageToCanvas(image, canvas, size)]; [size] is [None] for [null],
    and 0 is falsy like [null]. *)
Definition drawImageToCanvas (image : Js.Canvas) (size : option Q) : Fit :=
  match size with
  | Some size =>
      if Qeq_bool size 0 then
        {| fit_canvas := image; fit_filled := false;
           fit_x := 0; fit_y := 0;
           fit_width := Js.width image; fit_height := Js.height image |}
      else if negb (Qle_bool (Js.width image) (Js.height image)) then
        let height := ((Js.height image / Js.width image) * size)%Q in
        {| fit_canvas := {| Js.width := size; Js.height := size |};
           fit_filled := true;
           fit_x := 0; fit_y := ((size - height) / 2)%Q;
           fit_width := size; fit_height := height |}
      else
        let width := ((Js.width image / Js.height image) * size)%Q in
        {| fit_canvas := {| Js.width := size; Js.height := size |};
           fit_filled := true;
           fit_x := ((size - width) / 2)%Q; fit_y := 0;
           fit_width := width; fit_height := size |}
  | None =>
      {| fit_canvas := image; fit_filled := false;
         fit_x := 0; fit_y := 0;
         fit_width := Js.width image; fit_height := Js.height image |}
  end.

(** *** [resetRevealScreen] and the classes of the reveal screen *)

#[global] Instance Element_eq_dec : EqDecision Element.
Proof. solve_decision. Defined.

Definition element_code (el : Element) : nat :=
  match el with
  | MatchFoundFlash => 0
  | RevealContent => 1
  | RevealUserCanvas => 2
  | RevealResultImage => 3
  | RevealText => 4
  | RestartBtn => 5
  end.

Definition element_of_code (n : nat) : Element :=
  match n with
  | 0 => MatchFoundFlash
  | 1 => RevealContent
  | 2 => RevealUserCanvas
  | 3 => RevealResultImage
  | 4 => RevealText
  | _ => RestartBtn
  end.

#[global] Instance Element_countable : Countable Element.
Proof.
  apply (inj_countable' element_code element_of_code).
  intros []; reflexivity.
Defined.

Definition resetRevealScreen : list RevealOp :=
  [ ClassRemove MatchFoundFlash "active";
    ClassRemove RevealContent "active";
    ClassRemove RevealUserCanvas "fade-out";
    ClassRemove RevealResultImage "fade-in";
    ClassRemove RevealText "active";
    ClassRemove RestartBtn "active" ].

(** The class lists of the six elements, as one set of (element, class)
    pairs, and what an operation does to it. *)
Definition apply_class (classes : gset (Element * string)) (op : RevealOp)
    : gset (Element * string) :=
  match op with
  | ClassAdd el cls => {[ (el, cls) ]} ∪ classes
  | ClassRemove el cls => classes ∖ {[ (el, cls) ]}
  | _ => classes
  end.

Definition apply_classes (classes : gset (Element * string)) (ops : list RevealOp)
    : gset (Element * string) :=
  foldl apply_class classes ops.

(** The operations of a script, in order. *)
Definition operations {Op : Type} (s : list (Timeline.Action Op)) : list Op :=
  map snd (Timeline.stamp 0 s).

Definition is_result_src (op : RevealOp) : bool :=
  match op with
  | SetResultSrc _ => true
  | _ => false
  end.

(** The classes the reveal uses. *)
Definition reveal_classes : gset (Element * string) :=
  {[ (MatchFoundFlash, "active"); (RevealContent, "active");
     (RevealUserCanvas, "fade-out"); (RevealResultImage, "fade-in");
     (RevealText, "active"); (RestartBtn, "active") ]}.

End Animation.

(** ** scripts/camera.js *)

Module Camera.

(** The capture device as the browser sees it: the streams whose tracks are
    live, and the id the next granted stream gets. *)
Record Device := {
  live : gset nat;
  next_stream : nat
}.

Record Camera := {
  stream : option nat;
  video_srcObject : option nat;
  timerBeepSound : option Js.Audio;
  shutterSound : option Js.Audio
}.

Definition new_camera : Camera :=
  {| stream := None; video_srcObject := None;
     timerBeepSound := None; shutterSound := None |}.

Definition setSounds (timerBeep shutter : option Js.Audio) (cam : Camera) : Camera :=
  {| stream := stream cam; video_srcObject := video_srcObject cam;
     timerBeepSound := timerBeep; shutterSound := shutter |}.

(** [start()]: [getUserMedia] either grants a fresh live stream or rejects;
    the result is the boolean [start] returns. *)
Definition start (granted : bool) (cam : Camera) (dev : Device) : bool * Camera * Device :=
  if granted then
    let id := next_stream dev in
    (true,
     {| stream := Some id; video_srcObject := Some id;
        timerBeepSound := timerBeepSound cam; shutterSound := shutterSound cam |},
     {| live := {[ id ]} ∪ live dev; next_stream := S id |})
  else (false, cam, dev).

(** [stop()]: stops the tracks of the held stream, if any, and detaches the
    preview. *)
Definition stop (cam : Camera) (dev : Device) : Camera * Device :=
  ({| stream := None; video_srcObject := None;
      timerBeepSound := timerBeepSound cam; shutterSound := shutterSound cam |},
   match stream cam with
   | Some id => {| live := live dev ∖ {[ id ]}; next_stream := next_stream dev |}
   | None => dev
   end).

Inductive CameraOp :=
| OverlayShow
| OverlayHide
| Sound (e : Js.SoundEffect)
| SetCountdownText (count : Z)
| CountdownResolved
| SizeCanvasToVideo
| DrawVideoFrame
| ToBlob (mime : string) (quality : Q).

Definition playSound (sound : option Js.Audio) : list CameraOp :=
  map Sound (Js.play_guarded "sound" sound).

(** The body of the [setInterval] callback of [startCountdown]; the state is
    the captured variable [count] and the operations performed so far. *)
Definition countdown_callback (now : Z) (st : Z * list (Z * CameraOp))
    : (Z * list (Z * CameraOp)) * bool :=
  let '(count, ops) := st in
  let ops := ops ++ [(now, SetCountdownText count)] in
  let count := (count - 1)%Z in
  if (count <? 0)%Z
  then ((count, ops ++ [(now, OverlayHide); (now, CountdownResolved)]), true)
  else ((count, ops), false).

(** A run of [startCountdown] or [capturePhoto]: what happened and when,
    and the time at which the promise resolved, if it did within the
    observed firings. *)
Record Run := {
  ops : list (Z * CameraOp);
  resolved_at : option Z
}.

Definition startCountdown (cam : Camera) (fuel : nat) (now : Z) : Run :=
  let ops0 := (now, OverlayShow) :: map (pair now) (playSound (timerBeepSound cam)) in
  let '(now', (_, ops), cleared) :=
    Timeline.run 1000 countdown_callback fuel now (3%Z, ops0) in
  {| ops := ops; resolved_at := if cleared then Some now' else None |}.

(** [capturePhoto()]: the still frame is drawn when the countdown promise
    resolves. *)
Definition capturePhoto (cam : Camera) (fuel : nat) (now : Z) : Run :=
  let countdown := startCountdown cam fuel now in
  match resolved_at countdown with
  | None => countdown
  | Some t =>
      {| ops := ops countdown
           ++ map (pair t) (playSound (shutterSound cam))
           ++ [(t, SizeCanvasToVideo); (t, DrawVideoFrame); (t, ToBlob "image/jpeg" 0.95)];
         resolved_at := Some t |}
  end.

Definition countdown_numbers (r : Run) : list Z :=
  omap (fun e => match snd e with SetCountdownText c => Some c | _ => None end) (ops r).

Definition times_of (p : CameraOp -> bool) (r : Run) : list Z :=
  map fst (filter (fun e => p (snd e) = true) (ops r)).

Definition is_draw (op : CameraOp) : bool :=
  match op with DrawVideoFrame => true | _ => false end.

Definition is_tick (op : CameraOp) : bool :=
  match op with SetCountdownText _ => true | _ => false end.

(** A selected file, as [loadImageFromFile] observes it: the declared MIME
    type, what [FileReader.readAsDataURL] yields ([None] when the read
    fails), and nothing else. *)
Record File := {
  type : string;
  data : option string
}.

Inductive Settled (A : Type) :=
| Resolved (v : A)
| Rejected (msg : string).
Arguments Resolved {A} v.
Arguments Rejected {A} msg.

Section LoadImage.
(** The browser's image decoder: the decoded image of a data URL, or [None]
    when [img.onerror] fires. *)
Context {Image : Type} (decode : string -> option Image).

Definition loadImageFromFile (file : File) : Settled Image :=
  if negb (String.prefix "image/" (type file)) then Rejected "File is not an image"
  else match data file with
       | None => Rejected "Failed to read file"
       | Some url =>
           match decode url with
           | Some img => Resolved img
           | None => Rejected "Failed to load image"
           end
       end.

End LoadImage.

(** A decoder for examples: data URLs of PNG images decode, to their
    length. *)
Definition sample_decode (url : string) : option nat :=
  if String.prefix "data:image/png;base64," url then Some (String.length url) else None.

Definition sample_file : File :=
  {| type := "image/png"; data := Some "data:image/png;base64,iVBORw0KGgo=" |}.

(** [resizeImage(image, maxWidth, maxHeight)]: the size given to the new
    canvas, which is also the size the image is drawn at. *)
Definition resizeImage (image : Js.Canvas) (maxWidth maxHeight : Q) : Js.Canvas :=
  let width := Js.width image in
  let height := Js.height image in
  if negb (Qle_bool width height) then
    if negb (Qle_bool width maxWidth) then
      {| Js.width := maxWidth; Js.height := (height * (maxWidth / width))%Q |}
    else image
  else
    if negb (Qle_bool height maxHeight) then
      {| Js.width := (width * (maxHeight / height))%Q; Js.height := maxHeight |}
    else image.

End Camera.

(** ** scripts/faceDetection.js *)

Module FaceDetection.

Record Point := {
  x : Q;
  y : Q
}.

(** [detection.detection.box]. *)
Record Box := {
  box_x : Q;
  box_y : Q;
  box_width : Q;
  box_height : Q
}.

(** The arguments of the nine-argument [ctx.drawImage]. *)
Record DrawImage := {
  sx : Q; sy : Q; sw : Q; sh : Q;
  dx : Q; dy : Q; dw : Q; dh : Q
}.

(** What [cropToFace] returns ([canvas] and [offset]) and the copy it
    performs on the new canvas. *)
Record Crop := {
  canvas : Js.Canvas;
  drawn : DrawImage;
  offset : Point
}.

Definition cropToFace (source : Js.Canvas) (box : Box) (padding : Q) : Crop :=
  let x := Qmax 0 (box_x box - padding)%Q in
  let y := Qmax 0 (box_y box - padding)%Q in
  let width := Qmin (Js.width source - x)%Q (box_width box + padding * 2)%Q in
  let height := Qmin (Js.height source - y)%Q (box_height box + padding * 2)%Q in
  let size := Qmax width height in
  let offsetX := ((size - width) / 2)%Q in
  let offsetY := ((size - height) / 2)%Q in
  {| canvas := {| Js.width := size; Js.height := size |};
     drawn := {| sx := x; sy := y; sw := width; sh := height;
                 dx := offsetX; dy := offsetY; dw := width; dh := height |};
     offset := {| x := (x - offsetX)%Q; y := (y - offsetY)%Q |} |}.

Definition default_padding : Q := 50.

(** The bound as the specification words it: the square crop, placed at
    the recorded offset, lies within the source image. *)
Definition spec_offset_within_source (source : Js.Canvas) (c : Crop) : Prop :=
  (0 <= x (offset c))%Q
  /\ (0 <= y (offset c))%Q
  /\ (x (offset c) + Js.width (canvas c) <= Js.width source)%Q
  /\ (y (offset c) + Js.height (canvas c) <= Js.height source)%Q.

(** The calls on the 2-D context that the landmark drawing makes.  [Arc] is
    always the full circle ([0] to [2 * Math.PI]). *)
Inductive CanvasOp :=
| Save
| Restore
| SetShadowBlur (blur : Z)
| SetShadowColor (colour : string)
| SetFillStyle (colour : string)
| SetStrokeStyle (colour : string)
| SetLineWidth (w : Z)
| BeginPath
| Arc (cx cy r : Q)
| Fill
| MoveTo (px py : Q)
| LineTo (px py : Q)
| ClosePath
| Stroke.

(** [positions.slice(a, b)]. *)
Definition slice {A : Type} (a b : nat) (l : list A) : list A :=
  take (b - a) (drop a l).

Definition trace_path (points : list Point) (offset : Point) : list CanvasOp :=
  match points with
  | [] => []
  | p0 :: rest =>
      BeginPath
      :: MoveTo (x p0 - x offset)%Q (y p0 - y offset)%Q
      :: map (fun p => LineTo (x p - x offset)%Q (y p - y offset)%Q) rest
  end.

Definition drawPath (points : list Point) (offset : Point) : list CanvasOp :=
  if (length points <? 2)%nat then []
  else trace_path points offset ++ [Stroke].

Definition drawClosedPath (points : list Point) (offset : Point) : list CanvasOp :=
  if (length points <? 2)%nat then []
  else trace_path points offset ++ [ClosePath; Stroke].

Definition drawLandmarkConnections (positions : list Point) (offset : Point)
    : list CanvasOp :=
  [SetStrokeStyle "#00ff00"; SetLineWidth 1]
  ++ drawPath (slice 0 17 positions) offset
  ++ drawPath (slice 17 22 positions) offset
  ++ drawPath (slice 22 27 positions) offset
  ++ drawPath (slice 27 31 positions) offset
  ++ drawPath (slice 31 36 positions) offset
  ++ drawClosedPath (slice 36 42 positions) offset
  ++ drawClosedPath (slice 42 48 positions) offset
  ++ drawClosedPath (slice 48 60 positions) offset
  ++ drawClosedPath (slice 60 68 positions) offset.

Definition delayBetweenPoints : Z := 30.

(** One iteration of the loop of [animateLandmarksProgressive]. *)
Definition reveal_point (offset : Point) (point : Point)
    : list (Timeline.Action CanvasOp) :=
  map Timeline.Do
    [Save; SetShadowBlur 10; SetShadowColor "#00ff00"; BeginPath;
     Arc (x point - x offset)%Q (y point - y offset)%Q 3;
     SetFillStyle "#00ff00"; Fill; Restore]
  ++ [Timeline.Wait delayBetweenPoints].

Definition animateLandmarksProgressive (positions : list Point) (offset : Point)
    : list (Timeline.Action CanvasOp) :=
  flat_map (reveal_point offset) positions
  ++ map Timeline.Do (drawLandmarkConnections positions offset)
  ++ [Timeline.Wait 1000].

(** *** Reading a drawing back

    The figures a sequence of context calls puts on the canvas: [arcs] are
    the filled circles, [strokes] the stroked polylines, each with the time
    at which it was drawn. *)

Record Polyline := {
  closed : bool;
  vertices : list (Q * Q)
}.

Definition arcs (ops : list (Z * CanvasOp)) : list (Z * (Q * Q)) :=
  omap (fun e => match snd e with
                 | Arc cx cy _ => Some (fst e, (cx, cy))
                 | _ => None
                 end) ops.

Fixpoint strokes_from (path : Polyline) (ops : list (Z * CanvasOp))
    : list (Z * Polyline) :=
  match ops with
  | [] => []
  | (t, op) :: ops' =>
      match op with
      | BeginPath => strokes_from {| closed := false; vertices := [] |} ops'
      | MoveTo px py | LineTo px py =>
          strokes_from {| closed := closed path;
                          vertices := vertices path ++ [(px, py)] |} ops'
      | ClosePath => strokes_from {| closed := true; vertices := vertices path |} ops'
      | Stroke => (t, path) :: strokes_from path ops'
      | _ => strokes_from path ops'
      end
  end.

Definition strokes (ops : list (Z * CanvasOp)) : list (Z * Polyline) :=
  strokes_from {| closed := false; vertices := [] |} ops.

(** *** The connection paths as the specification lists them: whether the
    path is closed, and its first and last landmark index (inclusive). *)

Definition spec_connections : list (bool * nat * nat) :=
  [ (false, 0, 16);   (* jawline *)
    (false, 17, 21);  (* left brow *)
    (false, 22, 26);  (* right brow *)
    (false, 27, 30);  (* nose bridge *)
    (false, 31, 35);  (* nose base *)
    (true, 36, 41);   (* left eye *)
    (true, 42, 47);   (* right eye *)
    (true, 48, 59);   (* outer lip *)
    (true, 60, 67) ]%nat.  (* inner lip *)

(** The landmarks numbered [first] to [last], both included. *)
Definition landmarks_between {A : Type} (first last : nat) (l : list A) : list A :=
  omap (fun i => l !! i) (seq first (S last - first)).

(** Landmarks for examples: the i-th at (i, 2 i). *)
Definition sample_positions : list Point :=
  map (fun i => {| x := inject_Z (Z.of_nat i); y := inject_Z (2 * Z.of_nat i) |})
      (seq 0 68).

Definition spec_polyline (positions : list Point) (offset : Point)
    (c : bool * nat * nat) : Polyline :=
  let '(is_closed, first, last) := c in
  {| closed := is_closed;
     vertices := map (fun p => (x p - x offset, y p - y offset)%Q)
                     (landmarks_between first last positions) |}.

(** [drawLandmarks(canvas, landmarks, offset)]: every point, then the
    connections. *)
Definition draw_point (offset : Point) (point : Point) : list CanvasOp :=
  [ BeginPath;
    Arc (x point - x offset)%Q (y point - y offset)%Q 2;
    SetFillStyle "#00ff00"; Fill;
    SetStrokeStyle "#00ff00"; SetLineWidth 1; Stroke ].

Definition drawLandmarks (positions : list Point) (offset : Point) : list CanvasOp :=
  flat_map (draw_point offset) positions
  ++ drawLandmarkConnections positions offset.

(** Where the nine-argument [drawImage] puts the source pixel at [p] when
    it copies without scaling (destination size equal to source size). *)
Definition copied_to (d : DrawImage) (p : Point) : Q * Q :=
  (dx d + (x p - sx d), dy d + (y p - sy d))%Q.

(** The polyline of a connection over however many landmarks there are:
    the landmarks of its range that exist, if at least two of them do. *)
Definition available_polyline (positions : list Point) (offset : Point)
    (c : bool * nat * nat) : option Polyline :=
  let '(is_closed, first, last) := c in
  let points := landmarks_between first last positions in
  if (length points <? 2)%nat then None
  else Some {| closed := is_closed;
               vertices := map (fun p => (x p - x offset, y p - y offset)%Q) points |}.

(** [displayWithLandmarks(targetCanvas, imageCanvas, detection, offset)]:
    the size given to the target canvas, where the image is copied to, and
    what follows the copy. *)
Record Display := {
  target : Js.Canvas;
  image_at : Q * Q;
  then_script : list (Timeline.Action CanvasOp)
}.

Definition displayWithLandmarks (imageCanvas : Js.Canvas) (positions : list Point)
    (offset : Point) : Display :=
  {| target := imageCanvas;
     image_at := (0, 0)%Q;
     then_script :=
       Timeline.Wait 500 :: animateLandmarksProgressive positions offset |}.

(** [processImage(image)]: the canvas has the size of the image;
    [detection] is what [detectFace] returned for it, [None] for [null]. *)
Definition processImage (image : Js.Canvas) (detection : option Box) : option Crop :=
  match detection with
  | None => None
  | Some box => Some (cropToFace image box default_padding)
  end.

End FaceDetection.

(** ** scripts/preloader.js *)

Module Preloader.

Definition character (image name : string) : Animation.Character :=
  {| Animation.src := image; Animation.name := Some name |}.

(** [Preloader.generatePlaceholderImages()]: every entry has an [image], so
    [src] is that path. *)
Definition generatePlaceholderImages : list Animation.Character :=
  [ character "assets/images/characters/joi.avif" "Joi - Blade Runner 2049";
    character "assets/images/characters/devil.webp" "The Devil - Bedazzled";
    character "assets/images/characters/evelyn.jpg" "Evelyn - The Mummy";
    character "assets/images/characters/elisha.avif" "Elisha - The Girl Next Door";
    character "assets/images/characters/carolina.webp" "Carolina - Desperado";
    character "assets/images/characters/nancy.jpg" "Nancy Callahan - Sin City";
    character "assets/images/characters/persephone.jpg" "Persephone - The Matrix Reloaded";
    character "assets/images/characters/ilsa.jpg" "Ilsa Faust - Mission: Impossible - Fallout";
    character "assets/images/characters/rita.jpeg" "Rita Vrataski - Edge of Tomorrow";
    character "assets/images/characters/rick.webp" "Rick O'Connell - The Mummy";
    character "assets/images/characters/indiana.webp" "Indiana Jones - Raiders of the Lost Ark";
    character "assets/images/characters/aragorn.webp"
      "Aragorn - The Lord of the Rings: The Return of the King";
    character "assets/images/characters/christian.webp" "Christian Grey - 50 Shades of Grey";
    character "assets/images/characters/driver.jpg" "Driver - Driver";
    character "assets/images/characters/westley.webp" "Westley - The Princess Bride";
    character "assets/images/characters/bloodsport.jpg" "Bloodsport - Suicide Squad";
    character "assets/images/characters/naomi.webp" "Naomi Lapaglia - The Wolf of Wall Street";
    character "assets/images/characters/allison.webp" "Allison Lang - Havoc";
    character "assets/images/characters/bandit.webp" "Masked Bandit - The Fall" ].

Definition getPlaceholderSloth : Animation.Character :=
  character "assets/images/characters/sloth.webp" "Sloth -  The Goonies".

Definition sounds : list string :=
  [ "assets/sounds/timer-beep.mp3";
    "assets/sounds/camera-shutter.mp3";
    "assets/sounds/trumpet.mp3" ].

Inductive Promise (A : Type) :=
| Pending
| Fulfilled (v : A)
| Rejected (reason : string).
Arguments Pending {A}.
Arguments Fulfilled {A} v.
Arguments Rejected {A} reason.

(** Calling [resolve(v)]: a settled promise stays as it is. *)
Definition resolve {A : Type} (v : A) (p : Promise A) : Promise A :=
  match p with
  | Pending => Fulfilled v
  | _ => p
  end.

(** [Promise.all]. *)
Fixpoint all {A : Type} (ps : list (Promise A)) : Promise (list A) :=
  match ps with
  | [] => Fulfilled []
  | p :: ps' =>
      match p, all ps' with
      | Rejected r, _ => Rejected r
      | _, Rejected r => Rejected r
      | Fulfilled v, Fulfilled vs => Fulfilled (v :: vs)
      | _, _ => Pending
      end
  end.

Definition is_pending {A : Type} (p : Promise A) : bool :=
  match p with
  | Pending => true
  | _ => false
  end.

(** The preloader and the promises and listeners its loaders created.  A
    promise resolves with the loaded element, known by its [src], or with
    [None] for [null].
    [ready_listener] stands for the [canplaythrough] and [loadeddata]
    listeners of an audio element (added and removed together),
    [error_listener] for its [error] listener. *)
Record State := {
  totalAssets : Z;
  loadedAssets : Z;
  progressBar_width : list Q;
  statusText : option string;
  imagePromises : list (Promise (option string));
  slothPromise : Promise (option string);
  soundPromises : list (Promise (option string));
  ready_listener : list bool;
  error_listener : list bool;
  modelsPromise : Promise bool
}.

Definition Qltb (a b : Q) : bool := negb (Qle_bool b a).

(** The status line [updateProgress] shows for a percentage. *)
Definition status_for (progress : Q) : string :=
  if Qltb progress 30 then "Loading assets..."
  else if Qltb progress 70 then "Loading facial recognition models..."
  else if Qltb progress 100 then "Almost ready..."
  else "Ready!".

(** [updateProgress()], after [loadedAssets] has been set to [loaded]. *)
Definition updateProgress (loaded : Z) (st : State) : State :=
  let progress := ((inject_Z loaded / inject_Z (totalAssets st)) * 100)%Q in
  {| totalAssets := totalAssets st;
     loadedAssets := loaded;
     progressBar_width := progressBar_width st ++ [progress];
     statusText := Some (status_for progress);
     imagePromises := imagePromises st;
     slothPromise := slothPromise st;
     soundPromises := soundPromises st;
     ready_listener := ready_listener st;
     error_listener := error_listener st;
     modelsPromise := modelsPromise st |}.

(** What the browser and the detection library deliver while [loadAll]
    waits: [load] and [error] on the i-th character image and on the result
    image, the three media events on the j-th audio element, and the
    settlement of the pair of model loads. *)
Inductive Event :=
| ImageLoad (i : nat)
| ImageError (i : nat)
| SlothLoad
| SlothError
| AudioCanPlayThrough (j : nat)
| AudioLoadedData (j : nat)
| AudioError (j : nat)
| ModelsLoaded
| ModelsFailed.

Definition with_images (ps : list (Promise (option string))) (st : State) : State :=
  {| totalAssets := totalAssets st; loadedAssets := loadedAssets st;
     progressBar_width := progressBar_width st; statusText := statusText st;
     imagePromises := ps; slothPromise := slothPromise st;
     soundPromises := soundPromises st; ready_listener := ready_listener st;
     error_listener := error_listener st; modelsPromise := modelsPromise st |}.

Definition with_sloth (p : Promise (option string)) (st : State) : State :=
  {| totalAssets := totalAssets st; loadedAssets := loadedAssets st;
     progressBar_width := progressBar_width st; statusText := statusText st;
     imagePromises := imagePromises st; slothPromise := p;
     soundPromises := soundPromises st; ready_listener := ready_listener st;
     error_listener := error_listener st; modelsPromise := modelsPromise st |}.

Definition with_sounds (ps : list (Promise (option string))) (ready err : list bool)
    (st : State) : State :=
  {| totalAssets := totalAssets st; loadedAssets := loadedAssets st;
     progressBar_width := progressBar_width st; statusText := statusText st;
     imagePromises := imagePromises st; slothPromise := slothPromise st;
     soundPromises := ps; ready_listener := ready; error_listener := err;
     modelsPromise := modelsPromise st |}.

Definition with_models (p : Promise bool) (st : State) : State :=
  {| totalAssets := totalAssets st; loadedAssets := loadedAssets st;
     progressBar_width := progressBar_width st; statusText := statusText st;
     imagePromises := imagePromises st; slothPromise := slothPromise st;
     soundPromises := soundPromises st; ready_listener := ready_listener st;
     error_listener := error_listener st; modelsPromise := p |}.

(** [img.onload] / [img.onerror] of [loadImage], for the i-th character
    image: count, report, resolve with the image or with [null]. *)
Definition image_settles (i : nat) (v : option string) (st : State) : State :=
  match imagePromises st !! i with
  | None => st
  | Some p =>
      with_images (<[i := resolve v p]> (imagePromises st))
        (updateProgress (loadedAssets st + 1) st)
  end.

Definition sloth_settles (v : option string) (st : State) : State :=
  with_sloth (resolve v (slothPromise st))
    (updateProgress (loadedAssets st + 1) st).

(** [handleCanPlay] of [loadSound]: runs only while its listeners are
    attached, and removes both of them. *)
Definition handleCanPlay (j : nat) (st : State) : State :=
  match soundPromises st !! j, ready_listener st !! j with
  | Some p, Some true =>
      with_sounds (<[j := resolve (sounds !! j) p]> (soundPromises st))
        (<[j := false]> (ready_listener st)) (error_listener st)
        (updateProgress (loadedAssets st + 1) st)
  | _, _ => st
  end.

(** [handleError] of [loadSound]: removes the [error] listener only. *)
Definition handleError (j : nat) (st : State) : State :=
  match soundPromises st !! j, error_listener st !! j with
  | Some p, Some true =>
      with_sounds (<[j := resolve None p]> (soundPromises st))
        (ready_listener st) (<[j := false]> (error_listener st))
        (updateProgress (loadedAssets st + 1) st)
  | _, _ => st
  end.

(** [loadFaceApiModels]: the [try] and the [catch] both count two assets
    and report once. *)
Definition models_settle (ok : bool) (st : State) : State :=
  match modelsPromise st with
  | Pending =>
      with_models (Fulfilled ok) (updateProgress (loadedAssets st + 2) st)
  | _ => st
  end.

Definition handle (st : State) (e : Event) : State :=
  match e with
  | ImageLoad i =>
      image_settles i (Animation.src <$> generatePlaceholderImages !! i) st
  | ImageError i => image_settles i None st
  | SlothLoad => sloth_settles (Some (Animation.src getPlaceholderSloth)) st
  | SlothError => sloth_settles None st
  | AudioCanPlayThrough j => handleCanPlay j st
  | AudioLoadedData j => handleCanPlay j st
  | AudioError j => handleError j st
  | ModelsLoaded => models_settle true st
  | ModelsFailed => models_settle false st
  end.

(** The state [loadAll] leaves when it reaches its [await]: the total is
    computed, every load is started, nothing has settled. *)
Definition loadAll_started : State :=
  let characterImages := map Animation.src generatePlaceholderImages in
  {| totalAssets := Z.of_nat (length characterImages) + Z.of_nat (length sounds) + 2 + 1;
     loadedAssets := 0;
     progressBar_width := [];
     statusText := None;
     imagePromises := map (fun _ => Pending) characterImages;
     slothPromise := Pending;
     soundPromises := map (fun _ => Pending) sounds;
     ready_listener := map (fun _ => true) sounds;
     error_listener := map (fun _ => true) sounds;
     modelsPromise := Pending |}.

Definition deliver (events : list Event) : State :=
  foldl handle loadAll_started events.

Record Sounds := {
  timerBeep : option (option string);
  cameraShutter : option (option string);
  trumpet : option (option string)
}.

(** [this.assets] as [loadAll] fills it.  A field of [sounds] is [None]
    for [undefined] and [Some None] for [null]. *)
Record AssetBundle := {
  assets_images : list string;
  assets_slothImage : option string;
  assets_sounds : Sounds
}.

(** The promise [loadAll()] returns: the outer [Promise.all] followed by
    the statements after the [await]. *)
Definition loadAll (st : State) : Promise AssetBundle :=
  match all (imagePromises st), slothPromise st, all (soundPromises st),
        modelsPromise st with
  | Fulfilled loadedImages, Fulfilled slothImage, Fulfilled loadedSounds, Fulfilled _ =>
      Fulfilled
        {| assets_images := omap id loadedImages;
           assets_slothImage := slothImage;
           assets_sounds := {| timerBeep := loadedSounds !! 0%nat;
                               cameraShutter := loadedSounds !! 1%nat;
                               trumpet := loadedSounds !! 2%nat |} |}
  | Rejected r, _, _, _ => Rejected r
  | _, Rejected r, _, _ => Rejected r
  | _, _, Rejected r, _ => Rejected r
  | _, _, _, Rejected r => Rejected r
  | _, _, _, _ => Pending
  end.

(** The ratio [loadedAssets / totalAssets]. *)
Definition ratio (st : State) : Q :=
  (inject_Z (loadedAssets st) / inject_Z (totalAssets st))%Q.

(** Whether delivering [e] settles a promise that was pending. *)
Definition settles (st : State) (e : Event) : bool :=
  let st' := handle st e in
  let pending s :=
    (length (filter (fun p => is_pending p = true) (imagePromises s))
     + length (filter (fun p => is_pending p = true) (soundPromises s))
     + (if is_pending (slothPromise s) then 1 else 0)
     + (if is_pending (modelsPromise s) then 1 else 0))%nat in
  (pending st' <? pending st)%nat.

(** *** Complete loads

    Every asset settles, each as a success or as a failure: each character
    image fires [load] or [error] once, so does the result image, the model
    pair settles once, and each audio element fires either ready events
    ([loadeddata], [canplaythrough], in any number) or [error] events, not
    both. *)

Definition image_index (e : Event) : option nat :=
  match e with
  | ImageLoad i | ImageError i => Some i
  | _ => None
  end.

Definition is_sloth (e : Event) : bool :=
  match e with
  | SlothLoad | SlothError => true
  | _ => false
  end.

Definition is_models (e : Event) : bool :=
  match e with
  | ModelsLoaded | ModelsFailed => true
  | _ => false
  end.

Definition is_ready (j : nat) (e : Event) : bool :=
  match e with
  | AudioCanPlayThrough k | AudioLoadedData k => (k =? j)%nat
  | _ => false
  end.

Definition is_error (j : nat) (e : Event) : bool :=
  match e with
  | AudioError k => (k =? j)%nat
  | _ => false
  end.

Definition count (p : Event -> bool) (events : list Event) : nat :=
  length (filter (fun e => p e = true) events).

Definition complete_load (events : list Event) : Prop :=
  omap image_index events ≡ₚ seq 0 (length generatePlaceholderImages)
  /\ count is_sloth events = 1%nat
  /\ count is_models events = 1%nat
  /\ forall j, (j < length sounds)%nat ->
       xorb (existsb (is_ready j) events) (existsb (is_error j) events) = true.

(** *** What the handlers have counted

    The value of [loadedAssets] after a list of events: one for every
    image event, two for the models, and for each audio element one for its
    first ready event and one for its first [error] event. *)

Definition b2z (b : bool) : Z := if b then 1 else 0.

Definition sound_credit (events : list Event) (j : nat) : Z :=
  b2z (existsb (is_ready j) events) + b2z (existsb (is_error j) events).

Definition counted (events : list Event) : Z :=
  Z.of_nat (length (filter (fun i => (i < length generatePlaceholderImages)%nat)
                      (omap image_index events)))
  + Z.of_nat (count is_sloth events)
  + (if existsb is_models events then 2 else 0)
  + sound_credit events 0 + sound_credit events 1 + sound_credit events 2.

(** The state follows the events delivered so far. *)
Definition tracks (events : list Event) (st : State) : Prop :=
  totalAssets st = 25%Z
  /\ loadedAssets st = counted events
  /\ length (imagePromises st) = length generatePlaceholderImages
  /\ length (soundPromises st) = length sounds
  /\ (forall j, (j < length sounds)%nat ->
        ready_listener st !! j = Some (negb (existsb (is_ready j) events)))
  /\ (forall j, (j < length sounds)%nat ->
        error_listener st !! j = Some (negb (existsb (is_error j) events)))
  /\ (forall i p, imagePromises st !! i = Some p ->
        is_pending p = negb (bool_decide (i ∈ omap image_index events)))
  /\ (forall j p, soundPromises st !! j = Some p ->
        is_pending p
        = negb (existsb (is_ready j) events || existsb (is_error j) events))
  /\ is_pending (slothPromise st) = negb (existsb is_sloth events)
  /\ is_pending (modelsPromise st) = negb (existsb is_models events).

Definition not_rejected {A : Type} (p : Promise A) : Prop :=
  match p with
  | Rejected _ => False
  | _ => True
  end.

Definition never_rejected (st : State) : Prop :=
  Forall not_rejected (imagePromises st)
  /\ not_rejected (slothPromise st)
  /\ Forall not_rejected (soundPromises st)
  /\ not_rejected (modelsPromise st).

(** A list of reported values that never goes down. *)
Definition nondecreasing (l : list Q) : Prop :=
  forall i j a b, (i <= j)%nat -> l !! i = Some a -> l !! j = Some b -> (a <= b)%Q.

(** The value [updateProgress] writes to the bar. *)
Definition percent (st : State) : Q := (ratio st * 100)%Q.

(** The bar and the status line show the current percentage: nothing
    before the first report, the value for the current counter after it. *)
Definition reported (st : State) : Prop :=
  (progressBar_width st = [] /\ loadedAssets st = 0%Z /\ statusText st = None)
  \/ (last (progressBar_width st) = Some (percent st)
      /\ statusText st = Some (status_for (percent st))).

(** The reports so far never went down and none exceeds the current
    percentage. *)
Definition monotone_reports (st : State) : Prop :=
  nondecreasing (progressBar_width st)
  /\ forall q, q ∈ progressBar_width st -> (0 <= q)%Q /\ (q <= percent st)%Q.

(** *** What the image promises hold

    The value the promise of the i-th character image has, after a list of
    events: that of the first [load] or [error] event of the image. *)
Fixpoint image_outcome (i : nat) (events : list Event) : Promise (option string) :=
  match events with
  | [] => Pending
  | ImageLoad k :: events' =>
      if (k =? i)%nat then Fulfilled (Animation.src <$> generatePlaceholderImages !! i)
      else image_outcome i events'
  | ImageError k :: events' =>
      if (k =? i)%nat then Fulfilled None else image_outcome i events'
  | _ :: events' => image_outcome i events'
  end.

(** Each character image, the result image, the models and each sound once,
    in the order in which [loadAll] starts them; the second sound fails. *)
Definition sample_events : list Event :=
  map ImageLoad (seq 0 19)
  ++ [SlothLoad; AudioLoadedData 0; AudioCanPlayThrough 0; AudioError 1;
      AudioLoadedData 2; ModelsFailed].

End Preloader.

(** ** The main application module ([MovieDoppelgangerApp]) *)

Module App.

Inductive Screen :=
| LoadingScreen
| UploadScreen
| WebcamScreen
| AnalysisScreen
| MatchingScreen
| RevealScreen
| ErrorScreen.

Definition screen_code (s : Screen) : nat :=
  match s with
  | LoadingScreen => 0
  | UploadScreen => 1
  | WebcamScreen => 2
  | AnalysisScreen => 3
  | MatchingScreen => 4
  | RevealScreen => 5
  | ErrorScreen => 6
  end.

Definition screen_of_code (n : nat) : Screen :=
  match n with
  | 0 => LoadingScreen
  | 1 => UploadScreen
  | 2 => WebcamScreen
  | 3 => AnalysisScreen
  | 4 => MatchingScreen
  | 5 => RevealScreen
  | _ => ErrorScreen
  end.

#[global] Instance Screen_eq_dec : EqDecision Screen.
Proof. solve_decision. Defined.

#[global] Instance Screen_countable : Countable Screen.
Proof.
  apply (inj_countable' screen_code screen_of_code).
  intros []; reflexivity.
Defined.

(** What a handler did, in order. *)
Inductive Action :=
| CameraStop
| SwitchScreen (current next : Screen)
| Alert (msg : string)
| ShowErrorMessage (msg : string)
| ResetRevealScreen
| ClearFileInput.

(** The application: the screens carrying the class [active], the camera
    and the device behind it, the take-photo button, and the actions of the
    handlers so far. *)
Record State := {
  active : gset Screen;
  camera : Camera.Camera;
  device : Camera.Device;
  takePhotoBtn_disabled : bool;
  log : list Action
}.

Definition update (scr : gset Screen) (cam : Camera.Camera) (dev : Camera.Device)
    (dis : bool) (acts : list Action) (st : State) : State :=
  {| active := scr; camera := cam; device := dev;
     takePhotoBtn_disabled := dis; log := log st ++ acts |}.

(** [Animation.switchScreen(currentScreenId, nextScreenId)]: the class is
    removed from the one and added to the other, whatever is active. *)
Definition switchScreen (current next : Screen) (st : State) : State :=
  update ({[ next ]} ∪ (active st ∖ {[ current ]})) (camera st) (device st)
    (takePhotoBtn_disabled st) [SwitchScreen current next] st.

Definition camera_stop (st : State) : State :=
  let '(cam, dev) := Camera.stop (camera st) (device st) in
  update (active st) cam dev (takePhotoBtn_disabled st) [CameraStop] st.

Definition alert (msg : string) (st : State) : State :=
  update (active st) (camera st) (device st) (takePhotoBtn_disabled st) [Alert msg] st.

Definition set_disabled (b : bool) (st : State) : State :=
  update (active st) (camera st) (device st) b [] st.

(** How [processImage] ends: the detector finds no face, the pipeline runs
    through to the reveal, or an exception escapes after the switch to the
    analysis screen. *)
Inductive ProcessOutcome :=
| NoFace
| FaceFound
| ProcessThrows.

(** How the [try] block of [handleTakePhoto] goes: [capturePhoto] rejects,
    the captured blob does not load as an image, or [processImage] is
    reached. *)
Inductive CaptureOutcome :=
| CaptureRejects
| BlobLoadFails
| Captured (p : ProcessOutcome).

Inductive UploadOutcome :=
| NoFile
| FileRejected
| FileLoaded (p : ProcessOutcome).

Inductive Event :=
| WebcamClick (granted : bool)
| TakePhoto (o : CaptureOutcome)
| CancelWebcam
| FileUpload (o : UploadOutcome)
| Retry
| Restart.

Definition no_face_message : string :=
  "No face detected in the image. Please try again with a clear photo showing your face.".

Definition startReveal (st : State) : State :=
  switchScreen MatchingScreen RevealScreen st.

Definition startMatchingSequence (st : State) : State :=
  startReveal (switchScreen AnalysisScreen MatchingScreen st).

Definition showError (msg : string) (st : State) : State :=
  switchScreen AnalysisScreen ErrorScreen
    (update (active st) (camera st) (device st) (takePhotoBtn_disabled st)
       [ShowErrorMessage msg] st).

(** [processImage(image)]; the boolean tells whether it threw. *)
Definition processImage (p : ProcessOutcome) (st : State) : State * bool :=
  let st := switchScreen UploadScreen AnalysisScreen st in
  let st := switchScreen WebcamScreen AnalysisScreen st in
  match p with
  | ProcessThrows => (st, true)
  | NoFace => (showError no_face_message st, false)
  | FaceFound => (startMatchingSequence st, false)
  end.

Definition handleWebcamClick (granted : bool) (st : State) : State :=
  let '(success, cam, dev) := Camera.start granted (camera st) (device st) in
  let st := update (active st) cam dev (takePhotoBtn_disabled st) [] st in
  if success then switchScreen UploadScreen WebcamScreen st
  else alert "Unable to access your webcam. Please ensure you have granted camera permissions." st.

Definition capture_failed : string := "Failed to capture photo. Please try again.".

(** [handleTakePhoto()]: [try { capturePhoto; stop; loadImage;
    processImage } catch { alert } finally { enable the button }]. *)
Definition handleTakePhoto (o : CaptureOutcome) (st : State) : State :=
  let st := set_disabled true st in
  let st :=
    match o with
    | CaptureRejects => alert capture_failed st
    | BlobLoadFails => alert capture_failed (camera_stop st)
    | Captured p =>
        let '(st, threw) := processImage p (camera_stop st) in
        if threw then alert capture_failed st else st
    end in
  set_disabled false st.

Definition handleCancelWebcam (st : State) : State :=
  switchScreen WebcamScreen UploadScreen (camera_stop st).

Definition upload_failed : string :=
  "Failed to load image. Please try again with a different file.".

Definition handleFileUpload (o : UploadOutcome) (st : State) : State :=
  match o with
  | NoFile => st
  | FileRejected => alert upload_failed st
  | FileLoaded p =>
      let '(st, threw) := processImage p st in
      if threw then alert upload_failed st else st
  end.

Definition handleRetry (st : State) : State :=
  switchScreen ErrorScreen UploadScreen st.

Definition handleRestart (st : State) : State :=
  switchScreen RevealScreen UploadScreen
    (update (active st) (camera st) (device st) (takePhotoBtn_disabled st)
       [ResetRevealScreen; ClearFileInput] st).

Definition step (st : State) (e : Event) : State :=
  match e with
  | WebcamClick granted => handleWebcamClick granted st
  | TakePhoto o => handleTakePhoto o st
  | CancelWebcam => handleCancelWebcam st
  | FileUpload o => handleFileUpload o st
  | Retry => handleRetry st
  | Restart => handleRestart st
  end.

(** The screen whose control fires the event. *)
Definition screen_of_event (e : Event) : Screen :=
  match e with
  | WebcamClick _ | FileUpload _ => UploadScreen
  | TakePhoto _ | CancelWebcam => WebcamScreen
  | Retry => ErrorScreen
  | Restart => RevealScreen
  end.

(** An event can be fired when its screen is the one shown (and, for the
    take-photo button, when the button is not disabled). *)
Definition enabled (st : State) (e : Event) : bool :=
  bool_decide (active st = {[ screen_of_event e ]})
  && match e with
     | TakePhoto _ => negb (takePhotoBtn_disabled st)
     | _ => true
     end.

(** The state after a sequence of events, or [None] if one of them cannot
    be fired where it stands. *)
Fixpoint run (st : State) (events : list Event) : option State :=
  match events with
  | [] => Some st
  | e :: events' => if enabled st e then run (step st e) events' else None
  end.

(** The application once [init] has switched to the upload screen. *)
Definition initial : State :=
  {| active := {[ UploadScreen ]};
     camera := Camera.new_camera;
     device := {| Camera.live := ∅; Camera.next_stream := 0 |};
     takePhotoBtn_disabled := false;
     log := [] |}.

(** The actions between the states [st] and [st']. *)
Definition actions_since (st st' : State) : list Action :=
  drop (length (log st)) (log st').

(** [stop()] is called, and before the first switch away from the webcam
    screen. *)
Fixpoint stops_before_leaving (acts : list Action) : bool :=
  match acts with
  | [] => false
  | CameraStop :: _ => true
  | SwitchScreen WebcamScreen _ :: _ => false
  | _ :: acts' => stops_before_leaving acts'
  end.

(** The device is released: the camera holds no stream and no track is
    live. *)
Definition released (st : State) : Prop :=
  Camera.stream (camera st) = None /\ Camera.live (device st) = ∅.

(** The only stream that can be live is the one the camera holds. *)
Definition holds_own (st : State) : Prop :=
  Camera.live (device st)
  = match Camera.stream (camera st) with
    | Some id => {[ id ]}
    | None => ∅
    end.

(** One screen is shown; the device can be held only while that screen is
    the webcam screen; the take-photo button is enabled between events. *)
Definition invariant (st : State) : Prop :=
  takePhotoBtn_disabled st = false
  /\ exists s, active st = {[ s ]}
       /\ ((s = WebcamScreen /\ holds_own st) \/ (s <> WebcamScreen /\ released st)).

(** [getCharacterImages()]: the loaded images if there are any, the
    placeholder list otherwise. *)
Definition getCharacterImages (assets_images : list string) : list Animation.Character :=
  if (0 <? length assets_images)%nat
  then map (fun s => {| Animation.src := s; Animation.name := None |}) assets_images
  else Preloader.generatePlaceholderImages.

(** [waitForFaceApi()]: [defined k] tells whether [faceapi] is defined at
    the k-th test of the loop condition, that is after [k] waits of 100 ms.
    [remaining] is [50 - attempts]. *)
Fixpoint waitForFaceApi_loop (defined : nat -> bool) (attempts remaining : nat) : nat :=
  match remaining with
  | O => attempts
  | S remaining' =>
      if defined attempts then attempts
      else waitForFaceApi_loop defined (S attempts) remaining'
  end.

Inductive InitOp :=
| ConsoleError (msg : string)
| AlertUser (msg : string).

Definition waitForFaceApi (defined : nat -> bool) : list (Timeline.Action InitOp) :=
  let attempts := waitForFaceApi_loop defined 0 50 in
  replicate attempts (Timeline.Wait 100)
  ++ (if defined attempts then []
      else [ Timeline.Do (ConsoleError "face-api.js failed to load");
             Timeline.Do (AlertUser
               "Failed to load facial recognition library. Please refresh the page.") ]).

(** The screens a state can show between two events. *)
Definition resting_screen (s : Screen) : bool :=
  match s with
  | UploadScreen | WebcamScreen | AnalysisScreen | ErrorScreen | RevealScreen => true
  | LoadingScreen | MatchingScreen => false
  end.

(** The control that leads back to the upload screen. *)
Definition way_back (s : Screen) : option Event :=
  match s with
  | WebcamScreen => Some CancelWebcam
  | ErrorScreen => Some Retry
  | RevealScreen => Some Restart
  | _ => None
  end.

(** The screen a handler leaves shown. *)
Definition screen_after_process (p : ProcessOutcome) : Screen :=
  match p with
  | NoFace => ErrorScreen
  | FaceFound => RevealScreen
  | ProcessThrows => AnalysisScreen
  end.

Definition screen_after (e : Event) : Screen :=
  match e with
  | WebcamClick granted => if granted then WebcamScreen else UploadScreen
  | TakePhoto (Captured p) => screen_after_process p
  | TakePhoto _ => WebcamScreen
  | CancelWebcam => UploadScreen
  | FileUpload (FileLoaded p) => screen_after_process p
  | FileUpload _ => UploadScreen
  | Retry => UploadScreen
  | Restart => UploadScreen
  end.

Definition shown_after (events : list Event) : Screen :=
  match last events with
  | Some e => screen_after e
  | None => UploadScreen
  end.

(** [this.assets.slothImage || Preloader.getPlaceholderSloth()] of
    [startReveal]: the loaded image, known by its [src], or the
    placeholder. *)
Definition reveal_image (assets_slothImage : option string) : Animation.Character :=
  match assets_slothImage with
  | Some s => {| Animation.src := s; Animation.name := None |}
  | None => Preloader.getPlaceholderSloth
  end.

(** The detection step of [processImage]: the image is resized to at most
    800 by 800 and handed to [faceDetection.processImage]. *)
Definition analyse (image : Js.Canvas) (detection : option FaceDetection.Box)
    : option FaceDetection.Crop :=
  FaceDetection.processImage (Camera.resizeImage image 800 800) detection.

End App.

(** * Properties *)

(** Splits the conjunctions of the goal, and only them: nothing is
    unfolded or evaluated. *)
Ltac split_conj := repeat match goal with |- _ /\ _ => split end.

(** ** Timers and random draws *)

Section IntervalFacts.
Context {St : Type} (period : Z) (callback : Z -> St -> St * bool).

(** Once the callback has cleared its interval, later firings do not
    exist: more fuel changes nothing. *)
Lemma run_more_fuel n m now st now' st' :
  Timeline.run period callback n now st = (now', st', true) ->
  Timeline.run period callback (n + m) now st = (now', st', true).
Proof.
  revert now st. induction n as [|n IH]; intros now st; simpl.
  - discriminate.
  - destruct (callback (now + period)%Z st) as [st1 [|]]; auto.
Qed.

Lemma run_enough_fuel n fuel now st now' st' :
  (n <= fuel)%nat ->
  Timeline.run period callback n now st = (now', st', true) ->
  Timeline.run period callback fuel now st = (now', st', true).
Proof.
  intros Hle Hrun. replace fuel with (n + (fuel - n))%nat by lia.
  by apply run_more_fuel.
Qed.

End IntervalFacts.

Lemma floor_random_range rnd call n :
  (0 < n)%Z -> (0 <= Js.floor_random rnd call n < n)%Z.
Proof.
  intros Hn. unfold Js.floor_random.
  destruct (Js.next_range rnd call) as [H0 H1].
  assert (Hq : (0 < inject_Z n)%Q) by (unfold Qlt; simpl; lia).
  split.
  - change 0%Z with (Qfloor 0). apply Qfloor_resp_le. nra.
  - rewrite Zlt_Qlt.
    eapply Qle_lt_trans; [apply Qfloor_le|]. nra.
Qed.

Lemma percentage_range rnd call :
  (20 <= Js.floor_random rnd call 41 + 20 <= 60)%Z.
Proof. pose proof (floor_random_range rnd call 41). lia. Qed.

(** ** The shuffle *)

Lemma swap_Permutation {A} (arr : list A) i j : Animation.swap arr i j ≡ₚ arr.
Proof.
  unfold Animation.swap.
  destruct (arr !! i) as [ai|] eqn:Hi; [|done].
  destruct (arr !! j) as [aj|] eqn:Hj; [|done].
  by apply Permutation_insert_swap.
Qed.

Lemma shuffle_loop_Permutation {A} rnd calls i (arr : list A) :
  (Animation.shuffle_loop rnd calls i arr).1 ≡ₚ arr.
Proof.
  revert calls arr. induction i as [|i IH]; intros calls arr; simpl; [done|].
  rewrite IH. apply swap_Permutation.
Qed.

Lemma shuffle_loop_calls {A} rnd calls i (arr : list A) :
  (Animation.shuffle_loop rnd calls i arr).2 = (calls + i)%nat.
Proof.
  revert calls arr. induction i as [|i IH]; intros calls arr; simpl; [lia|].
  rewrite IH. lia.
Qed.

(** The index drawn for position [i] lies in [0, i], so the swap of the
    loop always exchanges two positions of the array. *)
Lemma shuffle_draw_in_range rnd calls (i : nat) :
  (Z.to_nat (Js.floor_random rnd calls (Z.of_nat i + 1)) <= i)%nat.
Proof. pose proof (floor_random_range rnd calls (Z.of_nat i + 1)). lia. Qed.

Lemma shuffle_swap_in_range {A} rnd calls (arr : list A) (i : nat) :
  (i < length arr)%nat ->
  let j := Z.to_nat (Js.floor_random rnd calls (Z.of_nat i + 1)) in
  exists ai aj,
    arr !! i = Some ai /\ arr !! j = Some aj
    /\ Animation.swap arr i j = <[j := ai]> (<[i := aj]> arr).
Proof.
  intros Hi j. pose proof (shuffle_draw_in_range rnd calls i) as Hj.
  destruct (lookup_lt_is_Some_2 arr i Hi) as [ai Hai].
  destruct (lookup_lt_is_Some_2 arr j ltac:(subst j; lia)) as [aj Haj].
  exists ai, aj. unfold Animation.swap. by rewrite Hai, Haj.
Qed.

Lemma shuffleArray_Permutation {A} rnd calls (array : list A) :
  (Animation.shuffleArray rnd calls array).1 ≡ₚ array.
Proof. apply shuffle_loop_Permutation. Qed.

Lemma shuffleArray_length {A} rnd calls (array : list A) :
  length (Animation.shuffleArray rnd calls array).1 = length array.
Proof. by rewrite shuffleArray_Permutation. Qed.

Lemma shuffleArray_calls {A} rnd calls (array : list A) :
  (Animation.shuffleArray rnd calls array).2 = (calls + (length array - 1))%nat.
Proof. apply shuffle_loop_calls. Qed.

(** ** The comparison animation *)

Section Matching.
Context (rnd : Js.Random) (shuffled : list Animation.Character).
Context (switchCount : Z) (calls : nat).

Let callback := Animation.matching_callback rnd shuffled switchCount.
Let after := Animation.after_switches rnd shuffled switchCount calls.

Lemma dom_after_snoc log sw :
  Animation.dom_after (log ++ [sw]) =
  {| Animation.characterImg_src :=
       match Animation.sw_character sw with
       | Some c => Some (Animation.src c)
       | None => Animation.characterImg_src (Animation.dom_after log)
       end;
     Animation.matchPercentage_textContent :=
       Some (Js.to_string (Animation.sw_percentage sw) +:+ "%")%string |}.
Proof. unfold Animation.dom_after. by rewrite !foldl_app. Qed.

(** One firing of the callback takes the state after [k] switches to the
    state after [k + 1], and clears the interval exactly when the counter
    reaches [switchCount]. *)
Lemma matching_callback_step k st :
  after k st ->
  exists st',
    callback (Animation.switchInterval * (Z.of_nat k + 1)) st
      = (st', (switchCount <=? Z.of_nat (S k))%Z)
    /\ after (S k) st'.
Proof.
  intros (Hcur & Hcalls & Hlog & Hdom & _).
  eexists. split.
  - unfold callback, Animation.matching_callback.
    rewrite Hcur. replace (Z.of_nat k + 1)%Z with (Z.of_nat (S k)) by lia.
    reflexivity.
  - unfold after, Animation.after_switches.
    cbn [Animation.currentSwitch Animation.random_calls Animation.switches
         Animation.dom Animation.resolved].
    split_and!.
    + done.
    + lia.
    + rewrite Hlog, seq_S, map_app, Hcalls. cbn [map Nat.add].
      do 2 f_equal. unfold Animation.switch_at. f_equal. lia.
    + rewrite dom_after_snoc.
      cbn [Animation.sw_character Animation.sw_percentage]. by rewrite Hdom.
    + done.
Qed.

Lemma matching_run n : forall k st,
  after k st ->
  (k + n <= Z.to_nat (Z.max 1 switchCount))%nat ->
  exists st',
    Timeline.run Animation.switchInterval callback n
      (Animation.switchInterval * Z.of_nat k) st
    = ((Animation.switchInterval * Z.of_nat (k + n))%Z, st',
       bool_decide (n <> 0%nat /\ (k + n)%nat = Z.to_nat (Z.max 1 switchCount)))
    /\ after (k + n)%nat st'.
Proof.
  induction n as [|n IH]; intros k st Hst Hle.
  - exists st. rewrite Nat.add_0_r. split; [|done].
    cbn [Timeline.run]. rewrite bool_decide_eq_false_2; [done|]. intros [? _]. done.
  - destruct (matching_callback_step k st Hst) as (st1 & Hcb & Hst1).
    cbn [Timeline.run].
    replace (Animation.switchInterval * Z.of_nat k + Animation.switchInterval)%Z
      with (Animation.switchInterval * (Z.of_nat k + 1))%Z by lia.
    rewrite Hcb.
    destruct (switchCount <=? Z.of_nat (S k))%Z eqn:Hdone.
    + apply Z.leb_le in Hdone.
      assert (n = 0%nat) as -> by lia.
      exists st1. replace (k + 1)%nat with (S k) by lia. split; [|done].
      rewrite bool_decide_eq_true_2 by lia. do 2 f_equal. lia.
    + apply Z.leb_gt in Hdone.
      destruct (IH (S k) st1 Hst1 ltac:(lia)) as (st' & Hrun & Hst').
      exists st'. replace (k + S n)%nat with (S k + n)%nat by lia. split; [|done].
      replace (Animation.switchInterval * (Z.of_nat k + 1))%Z
        with (Animation.switchInterval * Z.of_nat (S k))%Z by lia.
      rewrite Hrun. do 2 f_equal.
      apply bool_decide_ext. lia.
Qed.

End Matching.

Lemma matching_initial rnd shuffled switchCount calls :
  Animation.after_switches rnd shuffled switchCount calls 0
    {| Animation.currentSwitch := 0; Animation.random_calls := calls;
       Animation.dom := {| Animation.characterImg_src := None;
                           Animation.matchPercentage_textContent := None |};
       Animation.resolved := false; Animation.switches := [] |}.
Proof. unfold Animation.after_switches. simpl. split_and!; done. Qed.

(** A run observed for [n] firings, [n] at most the number of firings the
    callback makes: the clock, the log and whether the promise has
    resolved. *)
Lemma animateMatching_run rnd pool duration n :
  (n <= Animation.firings duration)%nat ->
  let r := Animation.animateMatching rnd pool duration n in
  let shuffled := (Animation.shuffleArray rnd 0 pool).1 in
  Animation.run_shuffled r = shuffled
  /\ Animation.run_clock r = (Animation.switchInterval * Z.of_nat n)%Z
  /\ Animation.run_cleared r
     = bool_decide (n <> 0%nat /\ n = Animation.firings duration)
  /\ Animation.after_switches rnd shuffled (duration / Animation.switchInterval)
       (length pool - 1) n (Animation.run_state r).
Proof.
  intros Hn. unfold Animation.animateMatching.
  pose proof (shuffleArray_calls rnd 0 pool) as Hcalls.
  destruct (Animation.shuffleArray rnd 0 pool) as [shuffled calls].
  simpl in Hcalls. subst calls. cbn [fst].
  destruct (matching_run rnd shuffled (duration / Animation.switchInterval)
              (length pool - 1) n 0 _
              (matching_initial rnd shuffled _ _) Hn) as (st' & Hrun & Hst').
  change (Animation.switchInterval * Z.of_nat 0)%Z with 0%Z in Hrun.
  rewrite Hrun. cbn [Animation.run_shuffled Animation.run_clock
                     Animation.run_cleared Animation.run_state].
  rewrite Nat.add_0_l in *. done.
Qed.

(** With fuel for every firing, the run is the one observed for exactly
    [firings duration] firings. *)
Lemma animateMatching_complete rnd pool duration fuel :
  (Animation.firings duration <= fuel)%nat ->
  Animation.animateMatching rnd pool duration fuel
  = Animation.animateMatching rnd pool duration (Animation.firings duration).
Proof.
  intros Hfuel.
  pose proof (animateMatching_run rnd pool duration (Animation.firings duration)
                ltac:(lia)) as (_ & _ & Hcl & _).
  revert Hcl. unfold Animation.animateMatching.
  destruct (Animation.shuffleArray rnd 0 pool) as [shuffled calls].
  destruct (Timeline.run _ _ (Animation.firings duration) _ _)
    as [[now st] cleared] eqn:Hrun.
  cbn [Animation.run_cleared]. intros Hcl.
  rewrite bool_decide_eq_true_2 in Hcl
    by (split; [unfold Animation.firings; lia|done]).
  subst cleared.
  by rewrite (run_enough_fuel _ _ _ _ _ _ _ _ Hfuel Hrun).
Qed.

Lemma switch_at_lookup rnd shuffled calls n k :
  (k < n)%nat ->
  map (Animation.switch_at rnd shuffled calls) (seq 0 n) !! k
  = Some (Animation.switch_at rnd shuffled calls k).
Proof. intros Hk. rewrite list_lookup_fmap, lookup_seq_lt by done. done. Qed.

(** Over a non-empty array the k-th switch shows the element at index
    [k mod length]. *)
Lemma switch_at_nonempty rnd (shuffled : list Animation.Character) calls k :
  shuffled <> [] ->
  exists c,
    shuffled !! (k mod length shuffled)%nat = Some c
    /\ Animation.switch_at rnd shuffled calls k
       = {| Animation.sw_time := 200 * (Z.of_nat k + 1);
            Animation.sw_index := Js.Int (Z.of_nat (k mod length shuffled));
            Animation.sw_character := Some c;
            Animation.sw_percentage := Js.floor_random rnd (calls + k) 41 + 20 |}.
Proof.
  intros Hne.
  assert (Hlen : (0 < length shuffled)%nat) by (destruct shuffled; simpl; [done|lia]).
  pose proof (Nat.mod_upper_bound k (length shuffled) ltac:(lia)) as Hlt.
  destruct (lookup_lt_is_Some_2 shuffled _ Hlt) as [c Hc].
  exists c. split; [done|].
  unfold Animation.switch_at, Js.rem.
  destruct (Z.eqb_spec (Z.of_nat (length shuffled)) 0) as [Heq|_]; [lia|].
  rewrite Z.rem_mod_nonneg by lia.
  rewrite <- Nat2Z.inj_mod. unfold Js.index.
  destruct (Z.ltb_spec (Z.of_nat (k mod length shuffled)) 0) as [Hneg|_]; [lia|].
  by rewrite Nat2Z.id, Hc.
Qed.

(** Over the empty array the index is [NaN] and no element is shown. *)
Lemma switch_at_empty rnd calls k :
  Animation.switch_at rnd [] calls k
  = {| Animation.sw_time := 200 * (Z.of_nat k + 1);
       Animation.sw_index := Js.NaN;
       Animation.sw_character := None;
       Animation.sw_percentage := Js.floor_random rnd (calls + k) 41 + 20 |}.
Proof. reflexivity. Qed.

Lemma firings_5000 : Animation.firings 5000 = 25%nat.
Proof. reflexivity. Qed.

(** The run of 5000 ms, with fuel for its 25 firings. *)
Lemma animateMatching_5000 rnd pool fuel :
  (25 <= fuel)%nat ->
  let r := Animation.animateMatching rnd pool 5000 fuel in
  let shuffled := (Animation.shuffleArray rnd 0 pool).1 in
  let st := Animation.run_state r in
  Animation.run_shuffled r = shuffled
  /\ Animation.switches st
     = map (Animation.switch_at rnd shuffled (length pool - 1)) (seq 0 25)
  /\ Animation.dom st = Animation.dom_after (Animation.switches st)
  /\ Animation.resolved st = true
  /\ Animation.run_cleared r = true
  /\ Animation.run_clock r = 5000%Z.
Proof.
  intros Hfuel. cbv zeta.
  rewrite (animateMatching_complete rnd pool 5000 fuel) by (rewrite firings_5000; lia).
  rewrite firings_5000.
  pose proof (animateMatching_run rnd pool 5000 25 ltac:(rewrite firings_5000; lia))
    as (Hsh & Hclock & Hcl & (_ & _ & Hlog & Hdom & Hres)).
  remember (Animation.shuffleArray rnd 0 pool).1 as shuffled eqn:Eshuffled.
  remember (Animation.animateMatching rnd pool 5000 25) as r eqn:Er.
  split_conj.
  - exact Hsh.
  - exact Hlog.
  - exact Hdom.
  - rewrite Hres. reflexivity.
  - rewrite Hcl. apply bool_decide_eq_true_2. rewrite firings_5000. lia.
  - rewrite Hclock. reflexivity.
Qed.

(** Before its 25th firing the run has not resolved. *)
Lemma animateMatching_5000_pending rnd pool n :
  (n < 25)%nat ->
  Animation.resolved
    (Animation.run_state (Animation.animateMatching rnd pool 5000 n)) = false.
Proof.
  intros Hn.
  pose proof (animateMatching_run rnd pool 5000 n ltac:(rewrite firings_5000; lia))
    as (_ & _ & _ & (_ & _ & _ & _ & Hres')).
  rewrite Hres'. destruct n as [|n]; [reflexivity|].
  cbn [Nat.eqb negb andb].
  apply Z.leb_gt. change (5000 / Animation.switchInterval)%Z with 25%Z. lia.
Qed.

(** The switches of a run over a non-empty pool. *)
Lemma animateMatching_5000_shown rnd pool fuel k :
  pool <> [] -> (25 <= fuel)%nat -> (k < 25)%nat ->
  let r := Animation.animateMatching rnd pool 5000 fuel in
  exists c,
    Animation.switches (Animation.run_state r) !! k
    = Some {| Animation.sw_time := 200 * (Z.of_nat k + 1);
              Animation.sw_index := Js.Int (Z.of_nat (k mod length pool));
              Animation.sw_character := Some c;
              Animation.sw_percentage :=
                Js.floor_random rnd (length pool - 1 + k) 41 + 20 |}
    /\ (Animation.shuffleArray rnd 0 pool).1 !! (k mod length pool)%nat = Some c.
Proof.
  intros Hne Hfuel Hk. cbv zeta.
  destruct (animateMatching_5000 rnd pool fuel Hfuel) as (_ & Hlog & _).
  pose proof (shuffleArray_length rnd 0 pool) as Hlen.
  remember (Animation.shuffleArray rnd 0 pool).1 as shuffled eqn:Eshuffled.
  assert (Hne' : shuffled <> []).
  { intros E. rewrite E in Hlen. destruct pool; [contradiction|discriminate]. }
  destruct (switch_at_nonempty rnd shuffled (length pool - 1) k Hne')
    as (c & Hc & Hsw).
  rewrite Hlen in Hc, Hsw.
  exists c. split; [|exact Hc].
  by rewrite Hlog, switch_at_lookup, Hsw.
Qed.

(** C1. A comparison run of 5000 ms over a non-empty pool, switching every
    200 ms: the pool is shuffled once, before the first switch; the
    callback fires exactly floor(5000/200) = 25 times; the k-th firing
    (from 0) happens at 200 * (k + 1) ms, shows the element at index
    k mod (pool size) of the shuffled pool, and displays a percentage that
    is an integer of [20,60] computed from a random draw of its own; the
    promise resolves at the 25th firing (5000 ms) and not before. *)
Theorem animateMatching_25_switches (rnd : Js.Random)
    (pool : list Animation.Character) (fuel : nat) :
  pool <> [] -> (25 <= fuel)%nat ->
  let r := Animation.animateMatching rnd pool 5000 fuel in
  let shuffled := (Animation.shuffleArray rnd 0 pool).1 in
  let log := Animation.switches (Animation.run_state r) in
  (5000 / Animation.switchInterval = 25)%Z
  /\ Animation.run_shuffled r = shuffled
  /\ shuffled ≡ₚ pool
  /\ length log = 25%nat
  /\ (forall k, (k < 25)%nat ->
        exists c p,
          log !! k = Some {| Animation.sw_time := 200 * (Z.of_nat k + 1);
                             Animation.sw_index := Js.Int (Z.of_nat (k mod length pool));
                             Animation.sw_character := Some c;
                             Animation.sw_percentage := p |}
          /\ shuffled !! (k mod length pool)%nat = Some c
          /\ p = (Js.floor_random rnd (length pool - 1 + k) 41 + 20)%Z
          /\ (20 <= p <= 60)%Z)
  /\ Animation.dom (Animation.run_state r) = Animation.dom_after log
  /\ Animation.resolved (Animation.run_state r) = true
  /\ Animation.run_cleared r = true
  /\ Animation.run_clock r = 5000%Z
  /\ (forall n, (n < 25)%nat ->
        Animation.resolved
          (Animation.run_state (Animation.animateMatching rnd pool 5000 n)) = false).
Proof.
  intros Hne Hfuel. cbv zeta.
  destruct (animateMatching_5000 rnd pool fuel Hfuel)
    as (Hsh & Hlog & Hdom & Hres & Hcl & Hclock).
  split_conj.
  - reflexivity.
  - exact Hsh.
  - apply shuffleArray_Permutation.
  - by rewrite Hlog, length_map, length_seq.
  - intros k Hk.
    destruct (animateMatching_5000_shown rnd pool fuel k Hne Hfuel Hk)
      as (c & Hsw & Hc).
    exists c, (Js.floor_random rnd (length pool - 1 + k) 41 + 20)%Z.
    split_conj.
    + exact Hsw.
    + exact Hc.
    + reflexivity.
    + apply percentage_range.
    + apply percentage_range.
  - exact Hdom.
  - exact Hres.
  - exact Hcl.
  - exact Hclock.
  - intros n Hn. by apply animateMatching_5000_pending.
Qed.

Lemma animateMatching_25_switches_witness :
  Preloader.generatePlaceholderImages <> []
  /\ (25 <= 30)%nat
  /\ length (Animation.switches (Animation.run_state
       (Animation.animateMatching Js.sample_random
          Preloader.generatePlaceholderImages 5000 30))) = 25%nat.
Proof.
  assert (Hne : Preloader.generatePlaceholderImages <> []) by discriminate.
  assert (Hfuel : (25 <= 30)%nat) by lia.
  split; [exact Hne|]. split; [exact Hfuel|].
  destruct (animateMatching_25_switches Js.sample_random
              Preloader.generatePlaceholderImages 30 Hne Hfuel)
    as (_ & _ & _ & Hlen & _).
  exact Hlen.
Defined.

(** A run of one second over three candidates, step by step. *)
Example animateMatching_sample :
  let r := Animation.animateMatching Js.sample_random
             (take 3 Preloader.generatePlaceholderImages) 1000 10 in
  map (fun sw => (Animation.sw_time sw, Animation.sw_index sw,
                  Animation.sw_percentage sw))
      (Animation.switches (Animation.run_state r))
  = [ (200, Js.Int 0, 24); (400, Js.Int 1, 39); (600, Js.Int 2, 54);
      (800, Js.Int 0, 29); (1000, Js.Int 1, 44) ]%Z
  /\ Animation.matchPercentage_textContent (Animation.dom (Animation.run_state r))
     = Some "44%"
  /\ Animation.run_cleared r = true.
Proof. vm_compute. done. Qed.

(** C8. A pool of 19 candidates and a run of 5000 ms: the traversal order
    is a permutation of the pool (the same candidates, each as often as in
    the pool, so exactly once when the pool has no duplicates); the 25
    switches follow that one order cyclically; and every candidate of the
    pool is shown, already within the first 19 switches. *)
Theorem matching_19_candidates_all_shown (rnd : Js.Random)
    (pool : list Animation.Character) (fuel : nat) :
  length pool = 19%nat -> (25 <= fuel)%nat ->
  let r := Animation.animateMatching rnd pool 5000 fuel in
  let shuffled := Animation.run_shuffled r in
  let log := Animation.switches (Animation.run_state r) in
  shuffled = (Animation.shuffleArray rnd 0 pool).1
  /\ shuffled ≡ₚ pool
  /\ (NoDup pool -> NoDup shuffled)
  /\ length log = 25%nat
  /\ (forall k, (k < 25)%nat ->
        Animation.sw_character <$> log !! k = Some (shuffled !! (k mod 19)%nat))
  /\ (forall c, c ∈ pool ->
        exists k, (k < 19)%nat
          /\ Animation.sw_character <$> log !! k = Some (Some c)).
Proof.
  intros Hlen Hfuel. cbv zeta.
  assert (Hne : pool <> []) by (intros ->; discriminate).
  destruct (animateMatching_5000 rnd pool fuel Hfuel) as (Hsh & Hlog & _).
  pose proof (shuffleArray_Permutation rnd 0 pool) as Hperm.
  assert (Hshown : forall k, (k < 25)%nat ->
            Animation.sw_character
              <$> Animation.switches
                    (Animation.run_state (Animation.animateMatching rnd pool 5000 fuel)) !! k
            = Some ((Animation.shuffleArray rnd 0 pool).1 !! (k mod 19)%nat)).
  { intros k Hk.
    destruct (animateMatching_5000_shown rnd pool fuel k Hne Hfuel Hk)
      as (c & Hsw & Hc).
    rewrite Hlen in Hsw, Hc. by rewrite Hsw, Hc. }
  rewrite Hsh.
  remember (Animation.shuffleArray rnd 0 pool).1 as shuffled eqn:Eshuffled.
  remember (Animation.animateMatching rnd pool 5000 fuel) as r eqn:Er.
  split_conj.
  - reflexivity.
  - exact Hperm.
  - intros Hnd. by rewrite Hperm.
  - by rewrite Hlog, length_map, length_seq.
  - exact Hshown.
  - intros c Hc. rewrite <- Hperm in Hc.
    apply list_elem_of_lookup in Hc as [k Hk].
    assert (Hk19 : (k < 19)%nat).
    { apply lookup_lt_Some in Hk. rewrite Hperm, Hlen in Hk. exact Hk. }
    exists k. split; [exact Hk19|].
    rewrite Hshown by lia. by rewrite Nat.mod_small, Hk.
Qed.

Lemma matching_19_candidates_all_shown_witness :
  length Preloader.generatePlaceholderImages = 19%nat
  /\ (25 <= 25)%nat
  /\ Animation.run_shuffled
       (Animation.animateMatching Js.sample_random
          Preloader.generatePlaceholderImages 5000 25)
     ≡ₚ Preloader.generatePlaceholderImages.
Proof.
  assert (Hlen : length Preloader.generatePlaceholderImages = 19%nat) by reflexivity.
  assert (Hfuel : (25 <= 25)%nat) by lia.
  split; [exact Hlen|]. split; [exact Hfuel|].
  destruct (matching_19_candidates_all_shown Js.sample_random
              Preloader.generatePlaceholderImages 25 Hlen Hfuel)
    as (_ & Hperm & _).
  exact Hperm.
Defined.

(** C10. A run of 5000 ms over the empty pool: the shuffle returns the
    empty array; at each of the 25 firings the index [k % 0] is [NaN]
    (nothing is thrown), the element read is [undefined], the guarded update
    of the image is skipped and the percentage, an integer of [20,60], is
    written; the image node is never written; the promise resolves at the
    25th firing. *)
Theorem animateMatching_empty_pool (rnd : Js.Random) (fuel : nat) :
  (25 <= fuel)%nat ->
  let r := Animation.animateMatching rnd [] 5000 fuel in
  let st := Animation.run_state r in
  Animation.run_shuffled r = []
  /\ length (Animation.switches st) = 25%nat
  /\ (forall k, (k < 25)%nat ->
        Animation.switches st !! k
        = Some {| Animation.sw_time := 200 * (Z.of_nat k + 1);
                  Animation.sw_index := Js.NaN;
                  Animation.sw_character := None;
                  Animation.sw_percentage := Js.floor_random rnd k 41 + 20 |}
        /\ (20 <= Js.floor_random rnd k 41 + 20 <= 60)%Z)
  /\ Animation.characterImg_src (Animation.dom st) = None
  /\ Animation.matchPercentage_textContent (Animation.dom st)
     = Some (Js.to_string (Js.floor_random rnd 24 41 + 20) +:+ "%")%string
  /\ Animation.resolved st = true
  /\ Animation.run_cleared r = true
  /\ Animation.run_clock r = 5000%Z.
Proof.
  intros Hfuel. cbv zeta.
  destruct (animateMatching_5000 rnd [] fuel Hfuel)
    as (Hsh & Hlog & Hdom & Hres & Hcl & Hclock).
  change (Animation.shuffleArray rnd 0 []).1 with (@nil Animation.Character) in *.
  remember (Animation.animateMatching rnd [] 5000 fuel) as r eqn:Er.
  split_conj.
  - exact Hsh.
  - by rewrite Hlog, length_map, length_seq.
  - intros k Hk. split; [|apply percentage_range].
    by rewrite Hlog, switch_at_lookup, switch_at_empty.
  - rewrite Hdom, Hlog. reflexivity.
  - rewrite Hdom, Hlog. reflexivity.
  - exact Hres.
  - exact Hcl.
  - exact Hclock.
Qed.

Lemma animateMatching_empty_pool_witness :
  (25 <= 40)%nat
  /\ Animation.resolved (Animation.run_state
       (Animation.animateMatching Js.sample_random [] 5000 40)) = true.
Proof.
  assert (Hfuel : (25 <= 40)%nat) by lia.
  split; [exact Hfuel|].
  destruct (animateMatching_empty_pool Js.sample_random 40 Hfuel)
    as (_ & _ & _ & _ & _ & Hres & _).
  exact Hres.
Defined.

(** ** The reveal animation *)

(** The cases of a play request: no sound, or a sound whose [play()]
    throws, returns nothing, fulfils, or rejects (with or without the name
    the handler looks for). *)
Ltac case_audio a :=
  destruct a as [[? ? [| | |?err]]|];
  unfold Js.play_guarded; cbn [Js.audio_play Js.audio_src];
  try match goal with
      | |- context [String.eqb ?e "NotAllowedError"] =>
          destruct (String.eqb e "NotAllowedError")
      end.

(** C5. The reveal script waits 2500, 300, 1500, 1000, 1000 and 1000 ms,
    7300 ms in all; the restart control is activated once, as the last
    step, at 7300 ms; and whatever the celebratory audio does (absent,
    [play()] throwing, returning nothing, fulfilling or rejecting), the
    visual steps and their times are those of the run without audio. *)
Theorem animateReveal_restart_at_7300 (userCanvas : Js.Canvas)
    (slothImage : Animation.Character) (trumpetSound : option Js.Audio) :
  let script := Animation.animateReveal userCanvas slothImage trumpetSound in
  let silent := Animation.animateReveal userCanvas slothImage None in
  Timeline.waits script = [2500; 300; 1500; 1000; 1000; 1000]%Z
  /\ (2500 + 300 + 1500 + 1000 + 1000 + 1000 = 7300)%Z
  /\ Timeline.elapsed script = 7300%Z
  /\ filter (fun e => Animation.is_restart (snd e) = true) (Timeline.stamp 0 script)
     = [(7300%Z, Animation.ClassAdd Animation.RestartBtn "active")]
  /\ last (Timeline.stamp 0 script)
     = Some (7300%Z, Animation.ClassAdd Animation.RestartBtn "active")
  /\ Animation.visual script = silent
  /\ filter (fun e => Animation.is_sound (snd e) = false) (Timeline.stamp 0 script)
     = Timeline.stamp 0 silent.
Proof.
  cbv zeta. unfold Animation.animateReveal.
  case_audio trumpetSound; split_conj; reflexivity.
Qed.

(** ** The capture countdown *)

(** C2. What [startCountdown] and [capturePhoto] do, for every pair of
    sounds: the interval callback fires four times, at 1000, 2000, 3000 and
    4000 ms, writing 3, 2, 1 and 0; the promise resolves and the frame is
    drawn at 4000 ms, and after three firings (3000 ms) nothing is captured
    yet.  The beep is requested once, at the start, and the shutter sound
    at the moment of capture. *)
Theorem capturePhoto_countdown_trace (cam : Camera.Camera) (extra : nat) :
  let r := Camera.capturePhoto cam (4 + extra) 0 in
  Camera.countdown_numbers r = [3; 2; 1; 0]%Z
  /\ Camera.times_of Camera.is_tick r = [1000; 2000; 3000; 4000]%Z
  /\ Camera.resolved_at r = Some 4000%Z
  /\ Camera.times_of Camera.is_draw r = [4000]%Z
  /\ Camera.resolved_at (Camera.capturePhoto cam 3 0) = None
  /\ Camera.times_of Camera.is_draw (Camera.capturePhoto cam 3 0) = []
  /\ omap (fun e => match snd e with
                    | Camera.Sound s => Some (fst e, s)
                    | _ => None
                    end) (Camera.ops r)
     = map (pair 0%Z) (Js.play_guarded "sound" (Camera.timerBeepSound cam))
       ++ map (pair 4000%Z) (Js.play_guarded "sound" (Camera.shutterSound cam)).
Proof.
  cbv zeta. destruct cam as [stream video beep shutter].
  unfold Camera.capturePhoto, Camera.startCountdown, Camera.playSound.
  cbn [Camera.timerBeepSound Camera.shutterSound].
  case_audio beep; case_audio shutter; split_conj; reflexivity.
Qed.

(** ** File upload *)

(** C9. [loadImageFromFile] for a file of declared type [type file]: it
    rejects when the type does not start with ["image/"], when the file
    cannot be read and when its data does not decode; it resolves, with the
    decoded image, when the type starts with ["image/"] and the data reads
    and decodes; so it resolves only for files declared as images. *)
Theorem loadImageFromFile_outcomes {Image : Type} (decode : string -> option Image)
    (file : Camera.File) :
  (String.prefix "image/" (Camera.type file) = false ->
     Camera.loadImageFromFile decode file = Camera.Rejected "File is not an image")
  /\ (Camera.data file = None ->
        exists msg, Camera.loadImageFromFile decode file = Camera.Rejected msg)
  /\ (forall url, Camera.data file = Some url -> decode url = None ->
        exists msg, Camera.loadImageFromFile decode file = Camera.Rejected msg)
  /\ (forall url img,
        String.prefix "image/" (Camera.type file) = true ->
        Camera.data file = Some url -> decode url = Some img ->
        Camera.loadImageFromFile decode file = Camera.Resolved img)
  /\ (forall img, Camera.loadImageFromFile decode file = Camera.Resolved img ->
        String.prefix "image/" (Camera.type file) = true
        /\ exists url, Camera.data file = Some url /\ decode url = Some img).
Proof.
  unfold Camera.loadImageFromFile.
  destruct (String.prefix "image/" (Camera.type file)) eqn:Htype; simpl; split_conj.
  - discriminate.
  - intros ->. by eexists.
  - intros url -> ->. by eexists.
  - intros url img _ -> ->. reflexivity.
  - intros img.
    destruct (Camera.data file) as [url|]; [|discriminate].
    destruct (decode url) as [img'|] eqn:Hdec; [|discriminate].
    intros [= <-]. split; [reflexivity|]. by exists url.
  - reflexivity.
  - intros _. by eexists.
  - intros url _ _. by eexists.
  - discriminate.
  - discriminate.
Qed.

Lemma loadImageFromFile_outcomes_witness :
  String.prefix "image/" (Camera.type Camera.sample_file) = true
  /\ Camera.data Camera.sample_file = Some "data:image/png;base64,iVBORw0KGgo="
  /\ Camera.sample_decode "data:image/png;base64,iVBORw0KGgo=" = Some 34%nat
  /\ Camera.loadImageFromFile Camera.sample_decode Camera.sample_file
     = Camera.Resolved 34%nat.
Proof.
  assert (Htype : String.prefix "image/" (Camera.type Camera.sample_file) = true)
    by reflexivity.
  assert (Hdata : Camera.data Camera.sample_file
                  = Some "data:image/png;base64,iVBORw0KGgo=") by reflexivity.
  assert (Hdec : Camera.sample_decode "data:image/png;base64,iVBORw0KGgo="
                 = Some 34%nat) by reflexivity.
  split; [exact Htype|]. split; [exact Hdata|]. split; [exact Hdec|].
  destruct (loadImageFromFile_outcomes Camera.sample_decode Camera.sample_file)
    as (_ & _ & _ & Hok & _).
  exact (Hok _ _ Htype Hdata Hdec).
Defined.

(** Three files the upload path refuses: one not declared as an image,
    though its data would decode; one declared as an image whose data does
    not decode; one that cannot be read. *)
Example loadImageFromFile_refusals :
  Camera.loadImageFromFile Camera.sample_decode
    {| Camera.type := "application/pdf";
       Camera.data := Some "data:image/png;base64,iVBORw0KGgo=" |}
  = Camera.Rejected "File is not an image"
  /\ Camera.loadImageFromFile Camera.sample_decode
       {| Camera.type := "image/jpeg"; Camera.data := Some "data:image/jpeg;base64,AAAA" |}
     = Camera.Rejected "Failed to load image"
  /\ Camera.loadImageFromFile Camera.sample_decode
       {| Camera.type := "image/png"; Camera.data := None |}
     = Camera.Rejected "Failed to read file".
Proof. split_conj; reflexivity. Qed.

(** ** The face crop *)

Section Crop.
Context (source : Js.Canvas) (box : FaceDetection.Box) (padding : Q).

Let c := FaceDetection.cropToFace source box padding.
Let d := FaceDetection.drawn c.

(** The rectangle copied from the source is clamped at 0 and at the source
    extent. *)
Lemma crop_rectangle_clamped :
  (0 <= FaceDetection.sx d)%Q /\ (0 <= FaceDetection.sy d)%Q
  /\ (FaceDetection.sx d + FaceDetection.sw d <= Js.width source)%Q
  /\ (FaceDetection.sy d + FaceDetection.sh d <= Js.height source)%Q.
Proof.
  subst d c. unfold FaceDetection.cropToFace. simpl. split_conj.
  - apply Q.le_max_l.
  - apply Q.le_max_l.
  - pose proof (Q.le_min_l
      (Js.width source - Qmax 0 (FaceDetection.box_x box - padding))
      (FaceDetection.box_width box + padding * 2)). lra.
  - pose proof (Q.le_min_l
      (Js.height source - Qmax 0 (FaceDetection.box_y box - padding))
      (FaceDetection.box_height box + padding * 2)). lra.
Qed.

(** The margins that centre the copy in the square are not negative, and
    equal on both sides. *)
Lemma crop_centred :
  (0 <= FaceDetection.dx d)%Q /\ (0 <= FaceDetection.dy d)%Q
  /\ (FaceDetection.dx d + FaceDetection.dw d + FaceDetection.dx d
      == Js.width (FaceDetection.canvas c))%Q
  /\ (FaceDetection.dy d + FaceDetection.dh d + FaceDetection.dy d
      == Js.height (FaceDetection.canvas c))%Q.
Proof.
  subst d c. unfold FaceDetection.cropToFace. simpl.
  set (w := Qmin _ (FaceDetection.box_width box + padding * 2)).
  set (h := Qmin _ (FaceDetection.box_height box + padding * 2)).
  pose proof (Q.le_max_l w h). pose proof (Q.le_max_r w h).
  split_conj.
  - apply Qle_shift_div_l; [reflexivity|]. lra.
  - apply Qle_shift_div_l; [reflexivity|]. lra.
  - field.
  - field.
Qed.

End Crop.



(** ** Scripts *)

Section ScriptFacts.
Context {Op : Type}.
Implicit Types s : list (Timeline.Action Op).

Lemma elapsed_app s1 s2 :
  Timeline.elapsed (s1 ++ s2) = (Timeline.elapsed s1 + Timeline.elapsed s2)%Z.
Proof. induction s1 as [|[ms|op] s1 IH]; simpl; lia. Qed.

Lemma waits_app s1 s2 :
  Timeline.waits (s1 ++ s2) = Timeline.waits s1 ++ Timeline.waits s2.
Proof. induction s1 as [|[ms|op] s1 IH]; simpl; by rewrite ?IH. Qed.

Lemma stamp_app now s1 s2 :
  Timeline.stamp now (s1 ++ s2)
  = Timeline.stamp now s1 ++ Timeline.stamp (now + Timeline.elapsed s1) s2.
Proof.
  revert now. induction s1 as [|[ms|op] s1 IH]; intros now; simpl.
  - by rewrite Z.add_0_r.
  - rewrite IH. by rewrite Z.add_assoc.
  - by rewrite IH.
Qed.

Lemma elapsed_Do (ops : list Op) :
  Timeline.elapsed (map Timeline.Do ops) = 0%Z.
Proof. induction ops; simpl; done. Qed.

Lemma waits_Do (ops : list Op) : Timeline.waits (map Timeline.Do ops) = [].
Proof. induction ops; simpl; done. Qed.

Lemma stamp_Do now (ops : list Op) :
  Timeline.stamp now (map Timeline.Do ops) = map (pair now) ops.
Proof. induction ops as [|op ops IH]; simpl; by rewrite ?IH. Qed.

End ScriptFacts.

(** ** The progressive landmark reveal *)

Section Landmarks.
Context (offset : FaceDetection.Point).

Let place (p : FaceDetection.Point) : Q * Q :=
  (FaceDetection.x p - FaceDetection.x offset,
   FaceDetection.y p - FaceDetection.y offset)%Q.

Let empty_path := {| FaceDetection.closed := false; FaceDetection.vertices := [] |}.

(** [slice(first, last + 1)] is the run of landmarks numbered [first] to
    [last]. *)
Lemma landmarks_from_take_drop {A} (l : list A) n first :
  (first + n <= length l)%nat ->
  omap (fun i => l !! i) (seq first n) = take n (drop first l).
Proof.
  revert first. induction n as [|n IH]; intros first Hle; [done|].
  destruct (lookup_lt_is_Some_2 l first ltac:(lia)) as [a Ha].
  rewrite (drop_S l a first Ha). simpl. rewrite Ha.
  f_equal. apply IH. lia.
Qed.

Lemma slice_landmarks_between {A} (l : list A) first last :
  (first <= S last)%nat -> (last < length l)%nat ->
  FaceDetection.slice first (S last) l
  = FaceDetection.landmarks_between first last l.
Proof.
  intros Hfl Hlast. unfold FaceDetection.slice, FaceDetection.landmarks_between.
  symmetry. apply landmarks_from_take_drop. lia.
Qed.

Lemma slice_length {A} (l : list A) a b :
  (b <= length l)%nat -> length (FaceDetection.slice a b l) = (b - a)%nat.
Proof.
  intros Hb. unfold FaceDetection.slice. rewrite length_take, length_drop. lia.
Qed.

(** *** The points *)

Lemma points_elapsed positions :
  Timeline.elapsed (flat_map (FaceDetection.reveal_point offset) positions)
  = (30 * Z.of_nat (length positions))%Z.
Proof.
  induction positions as [|p ps IH]; [done|].
  change (flat_map ?f (p :: ps)) with (f p ++ flat_map f ps).
  rewrite elapsed_app, IH. unfold FaceDetection.reveal_point.
  rewrite elapsed_app, elapsed_Do. cbn [Timeline.elapsed length].
  unfold FaceDetection.delayBetweenPoints. lia.
Qed.

Lemma points_waits positions :
  Timeline.waits (flat_map (FaceDetection.reveal_point offset) positions)
  = replicate (length positions) 30%Z.
Proof. induction positions as [|p ps IH]; simpl in *; by rewrite ?IH. Qed.

Lemma reveal_point_arcs p now rest :
  FaceDetection.arcs
    (Timeline.stamp now (FaceDetection.reveal_point offset p ++ rest))
  = (now, place p) :: FaceDetection.arcs (Timeline.stamp (now + 30) rest).
Proof. reflexivity. Qed.

Lemma reveal_point_strokes p path now rest :
  FaceDetection.strokes_from path
    (Timeline.stamp now (FaceDetection.reveal_point offset p ++ rest))
  = FaceDetection.strokes_from empty_path (Timeline.stamp (now + 30) rest).
Proof. reflexivity. Qed.

Lemma points_arcs positions : forall now rest,
  FaceDetection.arcs
    (Timeline.stamp now
       (flat_map (FaceDetection.reveal_point offset) positions ++ rest))
  = imap (fun i p => ((now + 30 * Z.of_nat i)%Z, place p)) positions
    ++ FaceDetection.arcs
         (Timeline.stamp (now + 30 * Z.of_nat (length positions)) rest).
Proof.
  induction positions as [|p ps IH]; intros now rest.
  - simpl. by rewrite Z.add_0_r.
  - change (flat_map ?f (p :: ps)) with (f p ++ flat_map f ps).
    rewrite <- app_assoc, reveal_point_arcs, IH, imap_cons.
    cbn [app length]. f_equal; [f_equal; lia|]. f_equal.
    + apply imap_ext. intros i q _. simpl. f_equal. lia.
    + do 2 f_equal. lia.
Qed.

Lemma points_strokes positions : forall path now rest,
  positions <> [] ->
  FaceDetection.strokes_from path
    (Timeline.stamp now
       (flat_map (FaceDetection.reveal_point offset) positions ++ rest))
  = FaceDetection.strokes_from empty_path
      (Timeline.stamp (now + 30 * Z.of_nat (length positions)) rest).
Proof.
  induction positions as [|p ps IH]; intros path now rest Hne; [done|].
  change (flat_map ?f (p :: ps)) with (f p ++ flat_map f ps).
  rewrite <- app_assoc, reveal_point_strokes.
  destruct ps as [|p' ps'].
  - simpl. reflexivity.
  - rewrite IH by done. do 2 f_equal. cbn [length]. lia.
Qed.

(** *** The connection paths *)

Lemma lines_strokes t path points rest :
  FaceDetection.strokes_from path
    (map (pair t)
       (map (fun p => FaceDetection.LineTo
                        (FaceDetection.x p - FaceDetection.x offset)
                        (FaceDetection.y p - FaceDetection.y offset)) points)
     ++ rest)
  = FaceDetection.strokes_from
      {| FaceDetection.closed := FaceDetection.closed path;
         FaceDetection.vertices := FaceDetection.vertices path ++ map place points |}
      rest.
Proof.
  revert path. induction points as [|p ps IH]; intros path; simpl.
  - rewrite app_nil_r. by destruct path.
  - rewrite IH. simpl. by rewrite <- app_assoc.
Qed.

Lemma drawPath_strokes t path points rest :
  (2 <= length points)%nat ->
  FaceDetection.strokes_from path
    (map (pair t) (FaceDetection.drawPath points offset) ++ rest)
  = (t, {| FaceDetection.closed := false;
           FaceDetection.vertices := map place points |})
    :: FaceDetection.strokes_from
         {| FaceDetection.closed := false;
            FaceDetection.vertices := map place points |} rest.
Proof.
  intros Hlen. unfold FaceDetection.drawPath.
  destruct (Nat.ltb_spec (length points) 2) as [?|_]; [lia|].
  destruct points as [|p0 ps]; [simpl in Hlen; lia|].
  cbn [FaceDetection.trace_path app map FaceDetection.strokes_from].
  rewrite map_app, <- app_assoc, lines_strokes. reflexivity.
Qed.

Lemma drawClosedPath_strokes t path points rest :
  (2 <= length points)%nat ->
  FaceDetection.strokes_from path
    (map (pair t) (FaceDetection.drawClosedPath points offset) ++ rest)
  = (t, {| FaceDetection.closed := true;
           FaceDetection.vertices := map place points |})
    :: FaceDetection.strokes_from
         {| FaceDetection.closed := true;
            FaceDetection.vertices := map place points |} rest.
Proof.
  intros Hlen. unfold FaceDetection.drawClosedPath.
  destruct (Nat.ltb_spec (length points) 2) as [?|_]; [lia|].
  destruct points as [|p0 ps]; [simpl in Hlen; lia|].
  cbn [FaceDetection.trace_path app map FaceDetection.strokes_from].
  rewrite map_app, <- app_assoc, lines_strokes. reflexivity.
Qed.

Lemma trace_path_arcs t points :
  FaceDetection.arcs (map (pair t) (FaceDetection.trace_path points offset)) = [].
Proof.
  destruct points as [|p0 ps]; [done|]. simpl.
  induction ps as [|p ps IH]; simpl; done.
Qed.

Lemma drawPath_arcs t points :
  FaceDetection.arcs (map (pair t) (FaceDetection.drawPath points offset)) = [].
Proof.
  unfold FaceDetection.drawPath. destruct (length points <? 2)%nat; [done|].
  unfold FaceDetection.arcs. rewrite map_app, omap_app.
  fold (FaceDetection.arcs (map (pair t) (FaceDetection.trace_path points offset))).
  by rewrite trace_path_arcs.
Qed.

Lemma drawClosedPath_arcs t points :
  FaceDetection.arcs (map (pair t) (FaceDetection.drawClosedPath points offset)) = [].
Proof.
  unfold FaceDetection.drawClosedPath. destruct (length points <? 2)%nat; [done|].
  unfold FaceDetection.arcs. rewrite map_app, omap_app.
  fold (FaceDetection.arcs (map (pair t) (FaceDetection.trace_path points offset))).
  by rewrite trace_path_arcs.
Qed.

Lemma connections_arcs t positions :
  FaceDetection.arcs
    (map (pair t) (FaceDetection.drawLandmarkConnections positions offset)) = [].
Proof.
  unfold FaceDetection.drawLandmarkConnections, FaceDetection.arcs.
  rewrite !map_app, !omap_app.
  repeat match goal with
         | |- context [omap ?f (map (pair t) (FaceDetection.drawPath ?l offset))] =>
             change (omap f (map (pair t) (FaceDetection.drawPath l offset)))
               with (FaceDetection.arcs (map (pair t) (FaceDetection.drawPath l offset)));
             rewrite drawPath_arcs
         | |- context [omap ?f (map (pair t) (FaceDetection.drawClosedPath ?l offset))] =>
             change (omap f (map (pair t) (FaceDetection.drawClosedPath l offset)))
               with (FaceDetection.arcs
                       (map (pair t) (FaceDetection.drawClosedPath l offset)));
             rewrite drawClosedPath_arcs
         end.
  reflexivity.
Qed.

(** For 68 landmarks the connections are the nine paths of the
    specification. *)
Lemma connections_strokes t path positions :
  length positions = 68%nat ->
  FaceDetection.strokes_from path
    (map (pair t) (FaceDetection.drawLandmarkConnections positions offset))
  = map (fun c => (t, FaceDetection.spec_polyline positions offset c))
      FaceDetection.spec_connections.
Proof.
  intros Hlen. unfold FaceDetection.drawLandmarkConnections.
  rewrite !map_app.
  cbn [map app FaceDetection.strokes_from].
  rewrite <- (app_nil_r (map (pair t) (FaceDetection.drawClosedPath
                                         (FaceDetection.slice 60 68 positions) offset))).
  rewrite !drawPath_strokes, !drawClosedPath_strokes
    by (rewrite slice_length; lia).
  rewrite !slice_landmarks_between by lia.
  reflexivity.
Qed.

End Landmarks.

(** C7. For 68 landmarks the reveal draws the points one by one, the i-th
    at 30 * i ms, waiting 30 ms after each; then, at 2040 ms and in one
    pass, it strokes the nine connection paths: open for the jawline
    (0-16), the brows (17-21, 22-26), the nose bridge (27-30) and the nose
    base (31-35), closed for the eyes (36-41, 42-47) and the lip contours
    (48-59, 60-67); then it waits 1000 ms and completes, at 3040 ms. *)
Theorem landmark_reveal_sequence (positions : list FaceDetection.Point)
    (offset : FaceDetection.Point) :
  length positions = 68%nat ->
  let script := FaceDetection.animateLandmarksProgressive positions offset in
  let ops := Timeline.stamp 0 script in
  Timeline.waits script = replicate 68 30%Z ++ [1000%Z]
  /\ FaceDetection.arcs ops
     = imap (fun i p => ((30 * Z.of_nat i)%Z,
                         (FaceDetection.x p - FaceDetection.x offset,
                          FaceDetection.y p - FaceDetection.y offset)%Q)) positions
  /\ FaceDetection.strokes ops
     = map (fun c => (2040%Z, FaceDetection.spec_polyline positions offset c))
         FaceDetection.spec_connections
  /\ Timeline.elapsed script = 3040%Z.
Proof.
  intros Hlen. cbv zeta. unfold FaceDetection.animateLandmarksProgressive.
  split_conj.
  - rewrite !waits_app, points_waits, waits_Do, Hlen. reflexivity.
  - rewrite points_arcs, stamp_app, stamp_Do, elapsed_Do, Hlen.
    unfold FaceDetection.arcs at 1. rewrite omap_app.
    fold (FaceDetection.arcs
            (map (pair (0 + 30 * Z.of_nat 68)%Z)
               (FaceDetection.drawLandmarkConnections positions offset))).
    rewrite connections_arcs. cbn [Timeline.stamp omap app].
    rewrite app_nil_r. apply imap_ext. intros i p _. simpl. f_equal.
  - unfold FaceDetection.strokes.
    rewrite points_strokes by (intros ->; discriminate).
    rewrite stamp_app, stamp_Do, elapsed_Do, Hlen.
    cbn [Timeline.stamp]. rewrite app_nil_r.
    by apply connections_strokes.
  - rewrite !elapsed_app, points_elapsed, elapsed_Do, Hlen. reflexivity.
Qed.

Lemma landmark_reveal_sequence_witness :
  length FaceDetection.sample_positions = 68%nat
  /\ Timeline.elapsed
       (FaceDetection.animateLandmarksProgressive FaceDetection.sample_positions
          {| FaceDetection.x := 10; FaceDetection.y := 20 |}) = 3040%Z.
Proof.
  assert (Hlen : length FaceDetection.sample_positions = 68%nat) by reflexivity.
  split; [exact Hlen|].
  destruct (landmark_reveal_sequence FaceDetection.sample_positions
              {| FaceDetection.x := 10; FaceDetection.y := 20 |} Hlen)
    as (_ & _ & _ & Helapsed).
  exact Helapsed.
Defined.

(** ** The preloader *)

Lemma deliver_snoc events e :
  Preloader.deliver (events ++ [e])
  = Preloader.handle (Preloader.deliver events) e.
Proof. unfold Preloader.deliver. by rewrite foldl_app. Qed.

(** An event is either ignored or counted: the counter goes up and the new
    percentage is written to the bar; the total never changes. *)
Lemma handle_cases st e :
  let st' := Preloader.handle st e in
  Preloader.totalAssets st' = Preloader.totalAssets st
  /\ (st' = st
      \/ ((Preloader.loadedAssets st < Preloader.loadedAssets st')%Z
          /\ Preloader.progressBar_width st'
             = Preloader.progressBar_width st ++ [Preloader.percent st']
          /\ Preloader.statusText st'
             = Some (Preloader.status_for (Preloader.percent st')))).
Proof.
  cbv zeta.
  destruct e; unfold Preloader.handle, Preloader.image_settles,
    Preloader.sloth_settles, Preloader.handleCanPlay, Preloader.handleError,
    Preloader.models_settle;
    repeat case_match; simpl;
    (split; [reflexivity|]); (try by left);
    right; (split; [lia|split; reflexivity]).
Qed.

(** Settled promises stay settled, and no handler rejects one. *)
Lemma resolve_not_rejected {A} (v : A) p :
  Preloader.not_rejected p -> Preloader.not_rejected (Preloader.resolve v p).
Proof. by destruct p. Qed.

Lemma handle_never_rejected st e :
  Preloader.never_rejected st -> Preloader.never_rejected (Preloader.handle st e).
Proof.
  intros (Hi & Hs & Ha & Hm).
  destruct e; unfold Preloader.handle, Preloader.image_settles,
    Preloader.sloth_settles, Preloader.handleCanPlay, Preloader.handleError,
    Preloader.models_settle, Preloader.never_rejected;
    repeat case_match; simpl; split_conj;
    try assumption; try done;
    try (apply Forall_insert; [assumption|]);
    try (apply resolve_not_rejected);
    try assumption;
    try match goal with
        | H : ?l !! ?i = Some ?p |- Preloader.not_rejected ?p =>
            apply (Forall_lookup_1 Preloader.not_rejected l i p);
              [assumption | exact H]
        | H : ?x = _ |- Preloader.not_rejected ?x => by rewrite H
        end.
Qed.

Lemma deliver_never_rejected events :
  Preloader.never_rejected (Preloader.deliver events).
Proof.
  induction events as [|e events IH] using rev_ind.
  - unfold Preloader.never_rejected. simpl. split_conj; try done.
    + repeat constructor.
    + repeat constructor.
  - rewrite deliver_snoc. by apply handle_never_rejected.
Qed.

Lemma all_not_rejected {A} (ps : list (Preloader.Promise A)) :
  Forall Preloader.not_rejected ps -> Preloader.not_rejected (Preloader.all ps).
Proof.
  induction 1 as [|p ps Hp _ IH]; simpl; [done|].
  destruct p; [| |done]; by destruct (Preloader.all ps).
Qed.

Lemma all_fulfilled {A} (ps : list (Preloader.Promise A)) :
  Forall Preloader.not_rejected ps ->
  Forall (fun p => Preloader.is_pending p = false) ps ->
  exists vs, Preloader.all ps = Preloader.Fulfilled vs.
Proof.
  intros Hnr. induction Hnr as [|p ps Hp _ IH]; intros Hf; simpl.
  - by eexists.
  - inversion Hf as [|? ? Hp' Hf']; subst.
    destruct (IH Hf') as [vs ->].
    destruct p; [done| |done]. by eexists.
Qed.

Lemma loadAll_not_rejected st :
  Preloader.never_rejected st -> Preloader.not_rejected (Preloader.loadAll st).
Proof.
  intros (Hi & Hs & Ha & Hm). unfold Preloader.loadAll.
  apply all_not_rejected in Hi. apply all_not_rejected in Ha.
  destruct (Preloader.all (Preloader.imagePromises st)); [| |done];
    destruct (Preloader.slothPromise st); try done;
    destruct (Preloader.all (Preloader.soundPromises st)); try done;
    destruct (Preloader.modelsPromise st); done.
Qed.

Ltac unfold_handle :=
  unfold Preloader.handle, Preloader.image_settles, Preloader.sloth_settles,
    Preloader.handleCanPlay, Preloader.handleError, Preloader.models_settle.

Lemma existsb_snoc {A} (p : A -> bool) l e :
  existsb p (l ++ [e]) = existsb p l || p e.
Proof. rewrite existsb_app. simpl. by rewrite orb_false_r. Qed.

Lemma count_snoc p events e :
  Preloader.count p (events ++ [e])
  = (Preloader.count p events + (if p e then 1 else 0))%nat.
Proof.
  unfold Preloader.count. rewrite filter_app, length_app. f_equal.
  rewrite filter_cons. destruct (p e); simpl; done.
Qed.

Lemma count_existsb p events :
  Preloader.count p events <> 0%nat -> existsb p events = true.
Proof.
  induction events as [|e events IH] using rev_ind; [done|].
  rewrite count_snoc, existsb_snoc. destruct (p e).
  - intros _. apply orb_true_r.
  - rewrite Nat.add_0_r, orb_false_r. exact IH.
Qed.

(** The listeners of the j-th audio element are attached until its first
    ready event, respectively its first [error] event. *)
Lemma handle_ready_listener events st e j :
  length (Preloader.soundPromises st) = length Preloader.sounds ->
  (forall j, (j < length Preloader.sounds)%nat ->
     Preloader.ready_listener st !! j
     = Some (negb (existsb (Preloader.is_ready j) events))) ->
  (j < length Preloader.sounds)%nat ->
  Preloader.ready_listener (Preloader.handle st e) !! j
  = Some (negb (existsb (Preloader.is_ready j) (events ++ [e]))).
Proof.
  intros Hlen Hflag Hj. rewrite existsb_snoc.
  assert (Hcan : forall k,
    Preloader.is_ready j e = (k =? j)%nat ->
    Preloader.ready_listener (Preloader.handleCanPlay k st) !! j
    = Some (negb (existsb (Preloader.is_ready j) events || (k =? j)%nat))).
  { intros k _. unfold Preloader.handleCanPlay.
    destruct (Preloader.soundPromises st !! k) as [p|] eqn:Hp.
    - assert (Hk : (k < length Preloader.sounds)%nat)
        by (rewrite <- Hlen; by eapply lookup_lt_Some).
      rewrite (Hflag k Hk).
      destruct (Nat.eqb_spec k j) as [->|Hne].
      + destruct (existsb (Preloader.is_ready j) events) eqn:Hseen; simpl.
        * by rewrite Hflag, Hseen.
        * rewrite list_lookup_insert_eq; [done|].
          eapply lookup_lt_Some. by apply Hflag.
      + rewrite orb_false_r.
        destruct (existsb (Preloader.is_ready k) events); simpl.
        * by apply Hflag.
        * rewrite list_lookup_insert_ne by done. by apply Hflag.
    - destruct (Nat.eqb_spec k j) as [->|Hne].
      + apply lookup_ge_None in Hp. lia.
      + rewrite orb_false_r. by apply Hflag. }
  destruct e; try (by apply Hcan);
    unfold_handle; repeat case_match; simpl;
    rewrite ?orb_false_r; by apply Hflag.
Qed.

Lemma handle_error_listener events st e j :
  length (Preloader.soundPromises st) = length Preloader.sounds ->
  (forall j, (j < length Preloader.sounds)%nat ->
     Preloader.error_listener st !! j
     = Some (negb (existsb (Preloader.is_error j) events))) ->
  (j < length Preloader.sounds)%nat ->
  Preloader.error_listener (Preloader.handle st e) !! j
  = Some (negb (existsb (Preloader.is_error j) (events ++ [e]))).
Proof.
  intros Hlen Hflag Hj. rewrite existsb_snoc.
  assert (Herr : forall k,
    Preloader.error_listener (Preloader.handleError k st) !! j
    = Some (negb (existsb (Preloader.is_error j) events || (k =? j)%nat))).
  { intros k. unfold Preloader.handleError.
    destruct (Preloader.soundPromises st !! k) as [p|] eqn:Hp.
    - assert (Hk : (k < length Preloader.sounds)%nat)
        by (rewrite <- Hlen; by eapply lookup_lt_Some).
      rewrite (Hflag k Hk).
      destruct (Nat.eqb_spec k j) as [->|Hne].
      + destruct (existsb (Preloader.is_error j) events) eqn:Hseen; simpl.
        * by rewrite Hflag, Hseen.
        * rewrite list_lookup_insert_eq; [done|].
          eapply lookup_lt_Some. by apply Hflag.
      + rewrite orb_false_r.
        destruct (existsb (Preloader.is_error k) events); simpl.
        * by apply Hflag.
        * rewrite list_lookup_insert_ne by done. by apply Hflag.
    - destruct (Nat.eqb_spec k j) as [->|Hne].
      + apply lookup_ge_None in Hp. lia.
      + rewrite orb_false_r. by apply Hflag. }
  destruct e; try (by apply Herr);
    unfold_handle; repeat case_match; simpl;
    rewrite ?orb_false_r; by apply Hflag.
Qed.

Lemma resolve_settles {A} (v : A) p :
  Preloader.is_pending (Preloader.resolve v p) = false.
Proof. by destruct p. Qed.

Lemma handle_lengths st e :
  length (Preloader.imagePromises (Preloader.handle st e))
    = length (Preloader.imagePromises st)
  /\ length (Preloader.soundPromises (Preloader.handle st e))
     = length (Preloader.soundPromises st).
Proof.
  destruct e; unfold_handle; repeat case_match; simpl;
    rewrite ?length_insert; done.
Qed.

Lemma handle_models_pending events st e :
  Preloader.is_pending (Preloader.modelsPromise st)
    = negb (existsb Preloader.is_models events) ->
  Preloader.is_pending (Preloader.modelsPromise (Preloader.handle st e))
  = negb (existsb Preloader.is_models (events ++ [e])).
Proof.
  intros Hm. rewrite existsb_snoc.
  destruct e; unfold_handle; repeat case_match; simpl in *;
    rewrite ?orb_false_r, ?orb_true_r; try done;
    try match goal with
        | H : Preloader.modelsPromise st = _ |- _ => rewrite H in *
        end; simpl in *; try done;
    by destruct (existsb Preloader.is_models events).
Qed.

Lemma handle_sloth_pending events st e :
  Preloader.is_pending (Preloader.slothPromise st)
    = negb (existsb Preloader.is_sloth events) ->
  Preloader.is_pending (Preloader.slothPromise (Preloader.handle st e))
  = negb (existsb Preloader.is_sloth (events ++ [e])).
Proof.
  intros Hs. rewrite existsb_snoc.
  destruct e; unfold_handle; repeat case_match; simpl;
    rewrite ?orb_false_r, ?orb_true_r, ?resolve_settles; done.
Qed.

Lemma handle_image_pending events st e i p :
  (forall i p, Preloader.imagePromises st !! i = Some p ->
     Preloader.is_pending p
     = negb (bool_decide (i ∈ omap Preloader.image_index events))) ->
  Preloader.imagePromises (Preloader.handle st e) !! i = Some p ->
  Preloader.is_pending p
  = negb (bool_decide (i ∈ omap Preloader.image_index (events ++ [e]))).
Proof.
  intros Hinv.
  assert (Himg : forall k v,
    Preloader.image_index e = Some k ->
    Preloader.imagePromises (Preloader.image_settles k v st) !! i = Some p ->
    Preloader.is_pending p
    = negb (bool_decide (i ∈ omap Preloader.image_index (events ++ [e])))).
  { intros k v He. rewrite omap_app. simpl. rewrite He. simpl.
    unfold Preloader.image_settles.
    destruct (Preloader.imagePromises st !! k) as [q|] eqn:Hq; simpl.
    - destruct (decide (k = i)) as [->|Hne].
      + rewrite list_lookup_insert_eq by (by eapply lookup_lt_Some).
        intros [= <-]. rewrite resolve_settles.
        rewrite bool_decide_eq_true_2; [done|]. set_solver.
      + rewrite list_lookup_insert_ne by done. intros Hp.
        rewrite (Hinv i p Hp). f_equal. apply bool_decide_ext.
        rewrite elem_of_app, list_elem_of_singleton.
        split; [by left|]. intros [?|?]; [done|congruence].
    - intros Hp. rewrite (Hinv i p Hp). f_equal. apply bool_decide_ext.
      split; [set_solver|].
      rewrite elem_of_app, list_elem_of_singleton. intros [?| ->]; [done|].
      rewrite Hq in Hp. done. }
  destruct e; try (by eapply Himg);
    rewrite omap_app; simpl; rewrite app_nil_r;
    unfold_handle; repeat case_match; simpl; apply Hinv.
Qed.

Lemma handle_sound_pending events st e j p :
  (forall j, (j < length Preloader.sounds)%nat ->
     Preloader.ready_listener st !! j
     = Some (negb (existsb (Preloader.is_ready j) events))) ->
  (forall j, (j < length Preloader.sounds)%nat ->
     Preloader.error_listener st !! j
     = Some (negb (existsb (Preloader.is_error j) events))) ->
  length (Preloader.soundPromises st) = length Preloader.sounds ->
  (forall j p, Preloader.soundPromises st !! j = Some p ->
     Preloader.is_pending p
     = negb (existsb (Preloader.is_ready j) events
             || existsb (Preloader.is_error j) events)) ->
  Preloader.soundPromises (Preloader.handle st e) !! j = Some p ->
  Preloader.is_pending p
  = negb (existsb (Preloader.is_ready j) (events ++ [e])
          || existsb (Preloader.is_error j) (events ++ [e])).
Proof.
  intros Hready Herror Hlen Hinv. rewrite !existsb_snoc.
  assert (Hin : forall k q, Preloader.soundPromises st !! k = Some q ->
                  (k < length Preloader.sounds)%nat).
  { intros k q Hq. rewrite <- Hlen. by eapply lookup_lt_Some. }
  destruct e as [i|i| | |k|k|k| |]; simpl;
    try (unfold_handle; repeat case_match; simpl;
         rewrite ?orb_false_r; by apply Hinv).
  - unfold Preloader.handleCanPlay.
    destruct (Preloader.soundPromises st !! k) as [q|] eqn:Hq;
      [|rewrite orb_false_r; intros Hp;
        destruct (Nat.eqb_spec k j) as [->|_]; [congruence|];
        rewrite orb_false_r; by apply Hinv].
    rewrite (Hready k (Hin k q Hq)).
    destruct (existsb (Preloader.is_ready k) events) eqn:Hseen; simpl.
    + intros Hp. rewrite (Hinv j p Hp), orb_false_r.
      destruct (Nat.eqb_spec k j) as [->|_]; [by rewrite Hseen|].
      by rewrite orb_false_r.
    + destruct (Nat.eqb_spec k j) as [->|Hne].
      * rewrite list_lookup_insert_eq by (by eapply lookup_lt_Some).
        intros [= <-]. rewrite resolve_settles.
        by rewrite orb_true_r.
      * rewrite list_lookup_insert_ne by done. intros Hp.
        rewrite (Hinv j p Hp). by rewrite !orb_false_r.
  - unfold Preloader.handleCanPlay.
    destruct (Preloader.soundPromises st !! k) as [q|] eqn:Hq;
      [|rewrite orb_false_r; intros Hp;
        destruct (Nat.eqb_spec k j) as [->|_]; [congruence|];
        rewrite orb_false_r; by apply Hinv].
    rewrite (Hready k (Hin k q Hq)).
    destruct (existsb (Preloader.is_ready k) events) eqn:Hseen; simpl.
    + intros Hp. rewrite (Hinv j p Hp), orb_false_r.
      destruct (Nat.eqb_spec k j) as [->|_]; [by rewrite Hseen|].
      by rewrite orb_false_r.
    + destruct (Nat.eqb_spec k j) as [->|Hne].
      * rewrite list_lookup_insert_eq by (by eapply lookup_lt_Some).
        intros [= <-]. rewrite resolve_settles.
        by rewrite orb_true_r.
      * rewrite list_lookup_insert_ne by done. intros Hp.
        rewrite (Hinv j p Hp). by rewrite !orb_false_r.
  - unfold Preloader.handleError.
    destruct (Preloader.soundPromises st !! k) as [q|] eqn:Hq;
      [|rewrite orb_false_r; intros Hp;
        destruct (Nat.eqb_spec k j) as [->|_]; [congruence|];
        rewrite orb_false_r; by apply Hinv].
    rewrite (Herror k (Hin k q Hq)).
    destruct (existsb (Preloader.is_error k) events) eqn:Hseen; simpl.
    + intros Hp. rewrite (Hinv j p Hp), orb_false_r.
      destruct (Nat.eqb_spec k j) as [->|_]; [by rewrite Hseen, !orb_true_r|].
      by rewrite orb_false_r.
    + destruct (Nat.eqb_spec k j) as [->|Hne].
      * rewrite list_lookup_insert_eq by (by eapply lookup_lt_Some).
        intros [= <-]. rewrite resolve_settles.
        by rewrite !orb_true_r.
      * rewrite list_lookup_insert_ne by done. intros Hp.
        rewrite (Hinv j p Hp). by rewrite !orb_false_r.
Qed.

(** Whether the listener met by the goal is still attached. *)
Ltac count_flag :=
  match goal with
  | |- context [negb (existsb ?p ?events)] =>
      let Hseen := fresh "Hseen" in
      destruct (existsb p events) eqn:Hseen; rewrite ?Hseen in *
  end;
  simpl; rewrite ?orb_false_r, ?orb_true_r; cbn [Preloader.b2z] in *; simpl; lia.

(** The counter follows the events. *)
Lemma handle_counted events st e :
  Preloader.tracks events st ->
  Preloader.loadedAssets (Preloader.handle st e)
  = Preloader.counted (events ++ [e]).
Proof.
  intros (_ & Hloaded & Hilen & Hslen & Hready & Herror & _ & _ & _ & Hmodels).
  unfold Preloader.counted, Preloader.sound_credit in *.
  rewrite omap_app, filter_app, length_app, count_snoc, !existsb_snoc.
  rewrite Nat2Z.inj_add, Nat2Z.inj_add.
  set (images := length (filter _ (omap Preloader.image_index events))) in *.
  destruct e as [i|i| | |k|k|k| |].
  - simpl. rewrite !orb_false_r, Z.add_0_r. unfold Preloader.image_settles.
    rewrite filter_cons, filter_nil.
    destruct (Preloader.imagePromises st !! i) as [p|] eqn:Hp.
    + apply lookup_lt_Some in Hp. rewrite Hilen in Hp.
      rewrite decide_True by done. simpl. lia.
    + apply lookup_ge_None in Hp. rewrite Hilen in Hp.
      rewrite decide_False by (simpl in Hp; lia). simpl. lia.
  - simpl. rewrite !orb_false_r, Z.add_0_r. unfold Preloader.image_settles.
    rewrite filter_cons, filter_nil.
    destruct (Preloader.imagePromises st !! i) as [p|] eqn:Hp.
    + apply lookup_lt_Some in Hp. rewrite Hilen in Hp.
      rewrite decide_True by done. simpl. lia.
    + apply lookup_ge_None in Hp. rewrite Hilen in Hp.
      rewrite decide_False by (simpl in Hp; lia). simpl. lia.
  - simpl. rewrite !orb_false_r. lia.
  - simpl. rewrite !orb_false_r. lia.
  - simpl. rewrite !orb_false_r, !Z.add_0_r. unfold Preloader.handleCanPlay.
    destruct (Preloader.soundPromises st !! k) as [p|] eqn:Hp.
    + apply lookup_lt_Some in Hp. rewrite Hslen in Hp.
      rewrite (Hready k Hp).
      destruct k as [|[|[|k]]]; [| | |simpl in Hp; lia]; simpl; count_flag.
    + apply lookup_ge_None in Hp. rewrite Hslen in Hp.
      destruct k as [|[|[|k]]]; try (simpl in Hp; lia).
      simpl. rewrite !orb_false_r. lia.
  - simpl. rewrite !orb_false_r, !Z.add_0_r. unfold Preloader.handleCanPlay.
    destruct (Preloader.soundPromises st !! k) as [p|] eqn:Hp.
    + apply lookup_lt_Some in Hp. rewrite Hslen in Hp.
      rewrite (Hready k Hp).
      destruct k as [|[|[|k]]]; [| | |simpl in Hp; lia]; simpl; count_flag.
    + apply lookup_ge_None in Hp. rewrite Hslen in Hp.
      destruct k as [|[|[|k]]]; try (simpl in Hp; lia).
      simpl. rewrite !orb_false_r. lia.
  - simpl. rewrite !orb_false_r, !Z.add_0_r. unfold Preloader.handleError.
    destruct (Preloader.soundPromises st !! k) as [p|] eqn:Hp.
    + apply lookup_lt_Some in Hp. rewrite Hslen in Hp.
      rewrite (Herror k Hp).
      destruct k as [|[|[|k]]]; [| | |simpl in Hp; lia]; simpl; count_flag.
    + apply lookup_ge_None in Hp. rewrite Hslen in Hp.
      destruct k as [|[|[|k]]]; try (simpl in Hp; lia).
      simpl. rewrite !orb_false_r. lia.
  - simpl. rewrite !orb_false_r, orb_true_r. unfold Preloader.models_settle.
    destruct (Preloader.modelsPromise st); simpl in *;
      destruct (existsb Preloader.is_models events); simpl in *; try done; lia.
  - simpl. rewrite !orb_false_r, orb_true_r. unfold Preloader.models_settle.
    destruct (Preloader.modelsPromise st); simpl in *;
      destruct (existsb Preloader.is_models events); simpl in *; try done; lia.
Qed.

Lemma handle_tracks events st e :
  Preloader.tracks events st ->
  Preloader.tracks (events ++ [e]) (Preloader.handle st e).
Proof.
  intros Htr. pose proof (handle_counted events st e Htr) as Hcount.
  destruct Htr as (Htotal & Hloaded & Hilen & Hslen & Hready & Herror
                   & Himg & Hsnd & Hsloth & Hmodels).
  destruct (handle_cases st e) as [Htot _].
  destruct (handle_lengths st e) as [Hil Hsl].
  unfold Preloader.tracks. split_conj.
  - congruence.
  - exact Hcount.
  - congruence.
  - congruence.
  - intros j Hj. by apply handle_ready_listener.
  - intros j Hj. by apply handle_error_listener.
  - intros i p. by apply handle_image_pending.
  - intros j p. by apply handle_sound_pending.
  - by apply handle_sloth_pending.
  - by apply handle_models_pending.
Qed.

Lemma deliver_tracks events :
  Preloader.tracks events (Preloader.deliver events).
Proof.
  induction events as [|e events IH] using rev_ind.
  - unfold Preloader.tracks. simpl. split_conj; try done.
    + intros [|[|[|j]]] Hj; simpl in *; try done; lia.
    + intros [|[|[|j]]] Hj; simpl in *; try done; lia.
    + intros i p Hp. apply list_elem_of_lookup_2 in Hp.
      repeat (apply elem_of_cons in Hp as [->|Hp]; [done|]).
      by apply elem_of_nil in Hp.
    + intros j p Hp. apply list_elem_of_lookup_2 in Hp.
      repeat (apply elem_of_cons in Hp as [->|Hp]; [done|]).
      by apply elem_of_nil in Hp.
  - rewrite deliver_snoc. by apply handle_tracks.
Qed.

(** *** Progress *)

Lemma percent_mono st st' :
  Preloader.totalAssets st' = Preloader.totalAssets st ->
  (0 < Preloader.totalAssets st)%Z ->
  (Preloader.loadedAssets st <= Preloader.loadedAssets st')%Z ->
  (Preloader.percent st <= Preloader.percent st')%Q.
Proof.
  intros Htot Hpos Hle. unfold Preloader.percent, Preloader.ratio. rewrite Htot.
  apply Qmult_le_compat_r; [|done].
  apply Qmult_le_compat_r; [by rewrite <- Zle_Qle|].
  apply Qinv_le_0_compat. by rewrite <- (Zle_Qle 0); lia.
Qed.

Lemma percent_nonneg st :
  (0 < Preloader.totalAssets st)%Z -> (0 <= Preloader.loadedAssets st)%Z ->
  (0 <= Preloader.percent st)%Q.
Proof.
  intros Hpos Hle. unfold Preloader.percent, Preloader.ratio.
  apply Qmult_le_0_compat; [|done].
  apply Qmult_le_0_compat.
  - unfold Qle. simpl. lia.
  - apply Qinv_le_0_compat. unfold Qle. simpl. lia.
Qed.

Lemma nondecreasing_snoc l q :
  Preloader.nondecreasing l ->
  (forall a, a ∈ l -> (a <= q)%Q) ->
  Preloader.nondecreasing (l ++ [q]).
Proof.
  intros Hl Hq i j a b Hij Ha Hb.
  apply lookup_app_Some in Ha as [Ha|[Hi Ha]];
    apply lookup_app_Some in Hb as [Hb|[Hj Hb]].
  - by eapply Hl.
  - apply list_lookup_singleton_Some in Hb as [_ <-].
    apply Hq. by eapply list_elem_of_lookup_2.
  - apply lookup_lt_Some in Hb. lia.
  - apply list_lookup_singleton_Some in Ha as [_ <-].
    apply list_lookup_singleton_Some in Hb as [_ <-]. apply Qle_refl.
Qed.

Lemma counted_nonneg events : (0 <= Preloader.counted events)%Z.
Proof.
  unfold Preloader.counted, Preloader.sound_credit, Preloader.b2z.
  repeat match goal with |- context [if ?b then _ else _] => destruct b end; lia.
Qed.

Lemma deliver_reports events :
  Preloader.monotone_reports (Preloader.deliver events)
  /\ Preloader.reported (Preloader.deliver events).
Proof.
  induction events as [|e events [[Hmono Hbound] Hrep]] using rev_ind.
  - split; [split|].
    + intros i j a b _ Ha. done.
    + intros q Hq. by apply elem_of_nil in Hq.
    + by left.
  - rewrite deliver_snoc.
    pose proof (deliver_tracks events) as (Htot & Hload & _).
    pose proof (counted_nonneg events) as Hnn.
    destruct (handle_cases (Preloader.deliver events) e)
      as [Htot' [->|(Hlt & Hlog & Hstatus)]]; [done|].
    set (st := Preloader.deliver events) in *.
    set (st' := Preloader.handle st e) in *.
    assert (Hle : (Preloader.percent st <= Preloader.percent st')%Q)
      by (apply percent_mono; lia).
    split; [split|].
    + rewrite Hlog. apply nondecreasing_snoc; [done|].
      intros a Ha. eapply Qle_trans; [by apply Hbound|done].
    + rewrite Hlog. intros q [Hq| ->%list_elem_of_singleton]%elem_of_app.
      * destruct (Hbound q Hq). split; [done|]. by eapply Qle_trans.
      * split; [|apply Qle_refl]. apply percent_nonneg; lia.
    + right. split; [|done]. rewrite Hlog. apply last_snoc.
Qed.

(** An event that settles a pending promise is not ignored. *)
Lemma settles_changes st e :
  Preloader.settles st e = true -> Preloader.handle st e <> st.
Proof.
  unfold Preloader.settles. intros Hlt Heq. rewrite Heq in Hlt.
  apply Nat.ltb_lt in Hlt. lia.
Qed.

(** *** Complete loads *)

Lemma xorb_credit a b :
  xorb a b = true -> (Preloader.b2z a + Preloader.b2z b = 1)%Z.
Proof. by destruct a, b. Qed.

Lemma complete_load_counted events :
  Preloader.complete_load events -> Preloader.counted events = 25%Z.
Proof.
  intros (Himg & Hsloth & Hmodels & Hsounds).
  unfold Preloader.counted, Preloader.sound_credit.
  rewrite Himg, Hsloth, (count_existsb _ _ ltac:(rewrite Hmodels; done)).
  rewrite !xorb_credit by (apply Hsounds; simpl; lia).
  reflexivity.
Qed.

Lemma complete_load_fulfilled events :
  Preloader.complete_load events ->
  exists bundle,
    Preloader.loadAll (Preloader.deliver events) = Preloader.Fulfilled bundle.
Proof.
  intros (Himg & Hsloth & Hmodels & Hsounds).
  pose proof (deliver_tracks events)
    as (_ & _ & Hilen & Hslen & _ & _ & Hip & Hsp & Hslp & Hmp).
  pose proof (deliver_never_rejected events) as (Hinr & Hsnr & Hanr & Hmnr).
  set (st := Preloader.deliver events) in *.
  destruct (all_fulfilled (Preloader.imagePromises st) Hinr) as [images Hall].
  { apply Forall_lookup. intros i p Hp. rewrite (Hip i p Hp).
    rewrite bool_decide_eq_true_2; [done|].
    rewrite Himg. apply elem_of_seq.
    apply lookup_lt_Some in Hp. rewrite Hilen in Hp. lia. }
  destruct (all_fulfilled (Preloader.soundPromises st) Hanr) as [loaded Hsnd].
  { apply Forall_lookup. intros j p Hp. rewrite (Hsp j p Hp).
    assert (Hj : (j < length Preloader.sounds)%nat)
      by (rewrite <- Hslen; by eapply lookup_lt_Some).
    specialize (Hsounds j Hj).
    by destruct (existsb (Preloader.is_ready j) events),
                (existsb (Preloader.is_error j) events). }
  rewrite (count_existsb _ _ ltac:(rewrite Hsloth; done)) in Hslp.
  rewrite (count_existsb _ _ ltac:(rewrite Hmodels; done)) in Hmp.
  unfold Preloader.loadAll. rewrite Hall, Hsnd.
  destruct (Preloader.slothPromise st); [done| |done].
  destruct (Preloader.modelsPromise st); [done| |done].
  by eexists.
Qed.


Lemma sample_events_complete : Preloader.complete_load Preloader.sample_events.
Proof.
  unfold Preloader.complete_load. split_conj.
  - reflexivity.
  - reflexivity.
  - reflexivity.
  - intros [|[|[|j]]] Hj; try reflexivity. simpl in Hj. lia.
Qed.

Example loadAll_sample :
  let st := Preloader.deliver Preloader.sample_events in
  Preloader.loadedAssets st = 25%Z
  /\ length (Preloader.progressBar_width st) = 24%nat
  /\ last (Preloader.progressBar_width st) = Some (2500 # 25)
  /\ Preloader.statusText st = Some "Ready!"
  /\ Preloader.assets_sounds <$>
       (match Preloader.loadAll st with
        | Preloader.Fulfilled bundle => Some bundle
        | _ => None
        end)
     = Some {| Preloader.timerBeep := Some (Some "assets/sounds/timer-beep.mp3");
               Preloader.cameraShutter := Some None;
               Preloader.trumpet := Some (Some "assets/sounds/trumpet.mp3") |}.
Proof. vm_compute. split_conj; reflexivity. Qed.


(** The hypothesis of a complete load cannot be weakened to let an audio
    element report both outcomes: [handleCanPlay] removes the two ready
    listeners and leaves the [error] listener attached, so an [error] event
    that follows a ready event of the same element is counted as well.
    After a complete load in which the j-th sound was ready, it takes
    [loadedAssets] to 26 of 25. *)
Lemma audio_error_after_ready_counts_twice (events : list Preloader.Event)
    (j : nat) :
  Preloader.complete_load events ->
  (j < length Preloader.sounds)%nat ->
  existsb (Preloader.is_ready j) events = true ->
  let st := Preloader.deliver (events ++ [Preloader.AudioError j]) in
  Preloader.totalAssets st = 25%Z
  /\ Preloader.loadedAssets st = 26%Z
  /\ (Preloader.ratio st == 26 # 25)%Q
  /\ last (Preloader.progressBar_width st) = Some (Preloader.ratio st * 100)%Q
  /\ (Preloader.ratio st * 100 == 104)%Q
  /\ Preloader.not_rejected (Preloader.loadAll st).
Proof.
  intros Hcomplete Hj Hready. cbv zeta.
  pose proof (complete_load_counted events Hcomplete) as H25.
  destruct Hcomplete as (_ & _ & _ & Hsounds).
  specialize (Hsounds j Hj). rewrite Hready in Hsounds.
  assert (Herr : existsb (Preloader.is_error j) events = false)
    by (by destruct (existsb (Preloader.is_error j) events)).
  pose proof (deliver_tracks (events ++ [Preloader.AudioError j]))
    as (Htot & Hload & _).
  pose proof (deliver_reports (events ++ [Preloader.AudioError j])) as [_ Hrep].
  assert (H26 : Preloader.counted (events ++ [Preloader.AudioError j]) = 26%Z).
  { revert H25. unfold Preloader.counted, Preloader.sound_credit.
    rewrite omap_app, filter_app, length_app, count_snoc, !existsb_snoc.
    simpl. rewrite !orb_false_r.
    destruct j as [|[|[|j]]]; [| | |simpl in Hj; lia];
      simpl; rewrite Herr, ?orb_false_r; simpl; lia. }
  rewrite H26 in Hload.
  assert (Hratio : Preloader.ratio
                     (Preloader.deliver (events ++ [Preloader.AudioError j]))
                   = (26 / 25)%Q)
    by (unfold Preloader.ratio; by rewrite Htot, Hload).
  destruct Hrep as [(_ & H0 & _)|[Hlast _]]; [lia|].
  unfold Preloader.percent in Hlast. rewrite Hratio in *.
  split_conj; try done.
  apply loadAll_not_rejected, deliver_never_rejected.
Qed.

(** ** The capture stage of the application *)

Lemma enabled_screen st e :
  App.enabled st e = true -> App.active st = {[ App.screen_of_event e ]}.
Proof.
  unfold App.enabled. intros [H _]%andb_prop. by apply bool_decide_eq_true in H.
Qed.

(** [processImage] leaves one screen shown, never the webcam screen, and
    does not touch the camera. *)
Lemma processImage_screen p st s :
  App.active st = {[ s ]} -> s = App.UploadScreen \/ s = App.WebcamScreen ->
  let st' := (App.processImage p st).1 in
  (exists s', App.active st' = {[ s' ]} /\ s' <> App.WebcamScreen)
  /\ App.camera st' = App.camera st
  /\ App.device st' = App.device st
  /\ App.takePhotoBtn_disabled st' = App.takePhotoBtn_disabled st.
Proof.
  intros Hactive Hs. cbv zeta.
  destruct p; simpl; rewrite Hactive; (split; [|done]).
  - exists App.ErrorScreen. split; [|done]. destruct Hs as [-> | ->]; set_solver.
  - exists App.RevealScreen. split; [|done]. destruct Hs as [-> | ->]; set_solver.
  - exists App.AnalysisScreen. split; [|done]. destruct Hs as [-> | ->]; set_solver.
Qed.

(** [stop()] releases whatever the camera held. *)
Lemma camera_stop_released st :
  App.holds_own st ->
  let st' := App.camera_stop st in
  App.released st'
  /\ App.active st' = App.active st
  /\ App.takePhotoBtn_disabled st' = App.takePhotoBtn_disabled st
  /\ App.log st' = App.log st ++ [App.CameraStop].
Proof.
  unfold App.holds_own, App.released, App.camera_stop, Camera.stop.
  intros Hown. simpl. split_conj; try done.
  destruct (Camera.stream (App.camera st)); simpl.
  - rewrite Hown. apply difference_diag_L.
  - exact Hown.
Qed.

Lemma step_invariant st e :
  App.invariant st -> App.enabled st e = true -> App.invariant (App.step st e).
Proof.
  intros (Hbtn & s & Hactive & Hdev) Hen.
  pose proof (enabled_screen st e Hen) as Hscreen.
  rewrite Hactive in Hscreen. apply singleton_inj in Hscreen. subst s.
  unfold App.invariant.
  destruct e as [granted|o| |o| | ]; simpl in Hdev;
    destruct Hdev as [[Hs Hown]|[Hs [Hstream Hlive]]]; try done.
  - (* the webcam button, on the upload screen *)
    destruct granted; simpl; rewrite ?Hactive; (split; [done|]).
    + exists App.WebcamScreen. split; [set_solver|]. left. split; [done|].
      unfold App.holds_own. simpl. rewrite Hlive. apply (right_id_L ∅ (∪)).
    + exists App.UploadScreen. split; [done|]. right. by split.
  - (* the take-photo button, on the webcam screen *)
    unfold App.step, App.handleTakePhoto.
    set (st0 := App.set_disabled true st).
    assert (Hown0 : App.holds_own st0) by exact Hown.
    assert (Hactive0 : App.active st0 = {[ App.WebcamScreen ]}) by exact Hactive.
    destruct (camera_stop_released st0 Hown0) as (Hrel & Hact & _ & _).
    rewrite Hactive0 in Hact.
    destruct o as [| |p].
    + split; [done|]. exists App.WebcamScreen. split; [exact Hactive|].
      left. done.
    + split; [done|]. exists App.WebcamScreen. split; [exact Hact|].
      left. split; [done|].
      destruct Hrel as [Hnone Hempty]. unfold App.holds_own. simpl in *.
      by rewrite Hempty.
    + destruct (processImage_screen p (App.camera_stop st0) _ Hact ltac:(by right))
        as ((s' & Hs' & Hne) & Hcam & Hdev & _).
      destruct (App.processImage p (App.camera_stop st0)) as [st1 threw] eqn:Hp.
      cbn [fst] in Hs', Hcam, Hdev.
      assert (Hrel1 : App.released st1).
      { destruct Hrel as [Hnone Hempty]. unfold App.released.
        by rewrite Hcam, Hdev. }
      destruct threw; (split; [done|]); exists s';
        (split; [exact Hs'|]); right; (split; [exact Hne|exact Hrel1]).
  - (* cancel, on the webcam screen *)
    destruct (camera_stop_released st Hown) as (Hrel & Hact & Hdis & _).
    split; [exact Hbtn|].
    exists App.UploadScreen. split.
    + simpl. rewrite Hactive. set_solver.
    + right. split; [done|exact Hrel].
  - (* a file, on the upload screen *)
    destruct o as [| |p]; simpl.
    + split; [done|]. exists App.UploadScreen. split; [done|]. right. by split.
    + split; [done|]. exists App.UploadScreen. split; [done|]. right. by split.
    + destruct (processImage_screen p st _ Hactive ltac:(by left))
        as ((s' & Hs' & Hne) & Hcam & Hdev & Hdis).
      destruct (App.processImage p st) as [st1 threw] eqn:Hp.
      simpl in Hs', Hcam, Hdev, Hdis.
      assert (Hrel1 : App.released st1)
        by (unfold App.released in *; by rewrite Hcam, Hdev).
      destruct threw; simpl; (split; [congruence|]); exists s';
        (split; [done|]); right; by split.
  - (* retry, on the error screen *)
    simpl. split; [done|]. exists App.UploadScreen. rewrite Hactive.
    split; [set_solver|]. right. by split.
  - (* restart, on the reveal screen *)
    simpl. split; [done|]. exists App.UploadScreen. rewrite Hactive.
    split; [set_solver|]. right. by split.
Qed.

Lemma run_invariant events : forall st st',
  App.invariant st -> App.run st events = Some st' -> App.invariant st'.
Proof.
  induction events as [|e events IH]; intros st st' Hinv; simpl.
  - by intros [= <-].
  - destruct (App.enabled st e) eqn:Hen; [|done].
    apply IH. by apply step_invariant.
Qed.

Lemma initial_invariant : App.invariant App.initial.
Proof.
  split; [done|]. exists App.UploadScreen. split; [done|]. right. by split.
Qed.

(** What the handlers fired from the webcam screen do. *)
Lemma webcam_handlers st e :
  App.invariant st -> App.active st = {[ App.WebcamScreen ]} ->
  App.enabled st e = true ->
  let st' := App.step st e in
  (e = App.CancelWebcam
   /\ App.actions_since st st'
      = [App.CameraStop; App.SwitchScreen App.WebcamScreen App.UploadScreen]
   /\ App.active st' = {[ App.UploadScreen ]})
  \/ (e = App.TakePhoto App.CaptureRejects
      /\ App.actions_since st st' = [App.Alert App.capture_failed]
      /\ App.active st' = {[ App.WebcamScreen ]}
      /\ App.camera st' = App.camera st /\ App.device st' = App.device st)
  \/ (e = App.TakePhoto App.BlobLoadFails
      /\ App.actions_since st st' = [App.CameraStop; App.Alert App.capture_failed]
      /\ App.active st' = {[ App.WebcamScreen ]})
  \/ (exists p acts,
        e = App.TakePhoto (App.Captured p)
        /\ App.actions_since st st'
           = App.CameraStop
             :: App.SwitchScreen App.UploadScreen App.AnalysisScreen
             :: App.SwitchScreen App.WebcamScreen App.AnalysisScreen :: acts
        /\ App.WebcamScreen ∉ App.active st').
Proof.
  intros Hinv Hactive Hen. cbv zeta.
  pose proof (enabled_screen st e Hen) as Hscreen.
  rewrite Hactive in Hscreen. apply singleton_inj in Hscreen.
  unfold App.actions_since.
  destruct e as [granted|o| |o| | ]; try done.
  - destruct o as [| |p].
    + right. left. simpl. rewrite <- !app_assoc, drop_app_length.
      by rewrite Hactive.
    + right. right. left. simpl. rewrite <- !app_assoc, drop_app_length.
      by rewrite Hactive.
    + right. right. right. exists p.
      destruct p; simpl; rewrite <- !app_assoc, drop_app_length, Hactive;
        eexists; (split; [done|]); (split; [reflexivity|]);
        repeat first [rewrite elem_of_union | rewrite elem_of_difference
                     | rewrite elem_of_singleton];
        intuition congruence.
  - left. simpl. rewrite <- !app_assoc, drop_app_length, Hactive.
    split_conj; try done; set_solver.
Qed.



(** * Further properties of the same modules *)

(** ** [shuffleArray] on any array *)

(** The loop of the shuffle, started at position [i], leaves every position
    above [i] alone. *)
Lemma swap_lookup_above {A} (arr : list A) i j k :
  (i < k)%nat -> (j < k)%nat -> Animation.swap arr i j !! k = arr !! k.
Proof.
  intros Hi Hj. unfold Animation.swap.
  destruct (arr !! i) as [ai|]; [|done].
  destruct (arr !! j) as [aj|]; [|done].
  rewrite !list_lookup_insert_ne by lia. done.
Qed.

Lemma shuffle_loop_lookup_above {A} rnd i : forall calls (arr : list A) k,
  (i < k)%nat -> (Animation.shuffle_loop rnd calls i arr).1 !! k = arr !! k.
Proof.
  induction i as [|i IH]; intros calls arr k Hk; simpl; [done|].
  rewrite IH by lia. apply swap_lookup_above; [lia|].
  pose proof (shuffle_draw_in_range rnd calls (S i)). lia.
Qed.

(** X1. For every array and random source, [shuffleArray] returns a
    rearrangement of the array of the same length and draws exactly
    [length - 1] random numbers (none for an empty or one-element array, which
    comes back as it is); the element that ends in the last position is the
    one the first draw picks, [array[floor(random * length)]]. *)
Theorem shuffleArray_any_array {A : Type} (rnd : Js.Random) (calls : nat)
    (array : list A) :
  let result := Animation.shuffleArray rnd calls array in
  result.1 ≡ₚ array
  /\ length result.1 = length array
  /\ result.2 = (calls + (length array - 1))%nat
  /\ ((length array <= 1)%nat -> result = (array, calls))
  /\ ((2 <= length array)%nat ->
      result.1 !! (length array - 1)%nat
      = array !! Z.to_nat (Js.floor_random rnd calls (Z.of_nat (length array)))).
Proof.
  cbv zeta. split_conj.
  - apply shuffleArray_Permutation.
  - apply shuffleArray_length.
  - apply shuffleArray_calls.
  - intros Hlen. unfold Animation.shuffleArray.
    replace (length array - 1)%nat with 0%nat by lia. reflexivity.
  - intros Hlen. unfold Animation.shuffleArray.
    destruct (length array - 1)%nat as [|i] eqn:Hi; [lia|].
    cbn [Animation.shuffle_loop].
    rewrite shuffle_loop_lookup_above by lia.
    replace (Z.of_nat (S i) + 1)%Z with (Z.of_nat (length array)) by lia.
    destruct (shuffle_swap_in_range rnd calls array (S i) ltac:(lia))
      as (ai & aj & Hai & Haj & Hswap).
    replace (Z.of_nat (S i) + 1)%Z with (Z.of_nat (length array)) in * by lia.
    rewrite Hswap.
    set (j := Z.to_nat (Js.floor_random rnd calls (Z.of_nat (length array)))) in *.
    destruct (decide (j = S i)) as [->|Hne].
    + rewrite list_lookup_insert_eq; [congruence|].
      rewrite length_insert. lia.
    + rewrite list_lookup_insert_ne by done.
      rewrite list_lookup_insert_eq by lia. done.
Qed.

Lemma shuffleArray_any_array_witness :
  let result := Animation.shuffleArray Js.sample_random 0 [1; 2; 3]%nat in
  result.1 ≡ₚ [1; 2; 3]%nat
  /\ result.1 !! 2%nat
     = [1; 2; 3]%nat !! Z.to_nat (Js.floor_random Js.sample_random 0 3).
Proof.
  destruct (shuffleArray_any_array Js.sample_random 0 [1; 2; 3]%nat)
    as (Hperm & _ & _ & _ & Hlast).
  split; [exact Hperm|]. apply Hlast. simpl. lia.
Defined.

(** ** [animateMatching] for any duration *)

(** X2. For every duration, pool and random source, a run of
    [animateMatching] that is observed long enough makes
    [max 1 (floor (duration / 200))] switches and resolves at the last of
    them, never before 200 ms: a duration under 400 ms (zero and negative
    ones too) gives one switch and resolves at 200 ms, and a longer one
    resolves at the last multiple of 200 ms that is at most the duration. *)
Theorem animateMatching_any_duration (rnd : Js.Random)
    (pool : list Animation.Character) (duration : Z) (fuel : nat) :
  (Animation.firings duration <= fuel)%nat ->
  let r := Animation.animateMatching rnd pool duration fuel in
  Animation.run_cleared r = true
  /\ Animation.resolved (Animation.run_state r) = true
  /\ length (Animation.switches (Animation.run_state r)) = Animation.firings duration
  /\ Animation.run_clock r = (200 * Z.of_nat (Animation.firings duration))%Z
  /\ (200 <= Animation.run_clock r)%Z
  /\ ((duration < 400)%Z -> Animation.run_clock r = 200%Z)
  /\ ((200 <= duration)%Z ->
      (duration - 200 < Animation.run_clock r <= duration)%Z).
Proof.
  intros Hfuel. cbv zeta.
  rewrite (animateMatching_complete rnd pool duration fuel Hfuel).
  pose proof (animateMatching_run rnd pool duration (Animation.firings duration)
                ltac:(lia)) as (_ & Hclock & Hcl & Hst).
  destruct Hst as (_ & _ & Hlog & _ & Hres).
  remember (Animation.animateMatching rnd pool duration
              (Animation.firings duration)) as r eqn:Hr.
  clear Hr.
  assert (Hpos : (1 <= Animation.firings duration)%nat)
    by (unfold Animation.firings; lia).
  assert (Hfir : Z.of_nat (Animation.firings duration)
                 = Z.max 1 (duration / 200)).
  { unfold Animation.firings, Animation.switchInterval. lia. }
  change Animation.switchInterval with 200%Z in *.
  split_conj.
  - rewrite Hcl. apply bool_decide_eq_true_2. split; [lia|reflexivity].
  - rewrite Hres. apply andb_true_intro. split.
    + destruct (Animation.firings duration); [lia|reflexivity].
    + apply Z.leb_le. lia.
  - rewrite Hlog, length_map, length_seq. reflexivity.
  - exact Hclock.
  - rewrite Hclock. lia.
  - intros Hd. rewrite Hclock, Hfir.
    assert (duration / 200 <= 1)%Z
      by (apply Z.lt_succ_r; apply Z.div_lt_upper_bound; lia).
    lia.
  - intros Hd. rewrite Hclock, Hfir.
    assert (1 <= duration / 200)%Z by (apply Z.div_le_lower_bound; lia).
    pose proof (Z.mul_div_le duration 200 ltac:(lia)).
    pose proof (Z.mul_succ_div_gt duration 200 ltac:(lia)).
    lia.
Qed.

Lemma animateMatching_any_duration_witness :
  let r := Animation.animateMatching Js.sample_random [] 100 1 in
  Animation.run_cleared r = true
  /\ Animation.resolved (Animation.run_state r) = true
  /\ length (Animation.switches (Animation.run_state r)) = Animation.firings 100
  /\ Animation.run_clock r = (200 * Z.of_nat (Animation.firings 100))%Z
  /\ (200 <= Animation.run_clock r)%Z
  /\ ((100 < 400)%Z -> Animation.run_clock r = 200%Z)
  /\ ((200 <= 100)%Z -> (100 - 200 < Animation.run_clock r <= 100)%Z).
Proof.
  apply (animateMatching_any_duration Js.sample_random [] 100 1).
  vm_compute. lia.
Defined.

(** ** The confetti *)

Section Confetti.
Context (rnd : Js.Random) (calls : nat).

Lemma confetti_callback_step k :
  (k < 19)%nat ->
  Animation.confetti_callback rnd (250 * Z.of_nat (S k))
    ((calls + 4 * k)%nat, flat_map (Animation.confetti_at rnd calls) (seq 1 k))
  = (((calls + 4 * S k)%nat,
      flat_map (Animation.confetti_at rnd calls) (seq 1 (S k))), false).
Proof.
  intros Hk. unfold Animation.confetti_callback.
  change Animation.confetti_duration with 5000%Z.
  destruct (5000 - 250 * Z.of_nat (S k) <=? 0)%Z eqn:Hle;
    [apply Z.leb_le in Hle; lia|].
  f_equal. f_equal; [lia|].
  rewrite seq_S, flat_map_app. cbn [flat_map]. rewrite app_nil_r.
  f_equal. unfold Animation.confetti_at.
  change Animation.confetti_duration with 5000%Z.
  replace (calls + 4 * (1 + k - 1))%nat with (calls + 4 * k)%nat by lia.
  reflexivity.
Qed.

Lemma confetti_run n : forall k,
  (k + n <= 19)%nat ->
  Timeline.run 250 (Animation.confetti_callback rnd) n (250 * Z.of_nat k)
    ((calls + 4 * k)%nat, flat_map (Animation.confetti_at rnd calls) (seq 1 k))
  = (250 * Z.of_nat (k + n),
     ((calls + 4 * (k + n))%nat,
      flat_map (Animation.confetti_at rnd calls) (seq 1 (k + n))),
     false)%Z.
Proof.
  induction n as [|n IH]; intros k Hk.
  - rewrite Nat.add_0_r. reflexivity.
  - cbn [Timeline.run].
    replace (250 * Z.of_nat k + 250)%Z with (250 * Z.of_nat (S k))%Z by lia.
    rewrite confetti_callback_step by lia.
    rewrite IH by lia. replace (S k + n)%nat with (k + S n)%nat by lia.
    reflexivity.
Qed.

Lemma confetti_cleared fuel :
  (20 <= fuel)%nat ->
  Animation.triggerConfetti rnd calls fuel
  = (5000%Z,
     ((calls + 76)%nat, flat_map (Animation.confetti_at rnd calls) (seq 1 19)),
     true).
Proof.
  intros Hfuel. unfold Animation.triggerConfetti.
  apply (run_enough_fuel _ _ 20 fuel); [exact Hfuel|].
  replace 20%nat with (19 + 1)%nat by reflexivity.
  pose proof (confetti_run 19 0 ltac:(lia)) as Hrun.
  rewrite Nat.add_0_l, Nat.mul_0_r, Nat.add_0_r in Hrun.
  change (250 * Z.of_nat 0)%Z with 0%Z in Hrun.
  change (flat_map _ (seq 1 0)) with (@nil Animation.Burst) in Hrun.
  revert Hrun.
  generalize (flat_map (Animation.confetti_at rnd calls) (seq 1 19)).
  intros bursts Hrun.
  change (calls + 4 * 19)%nat with (calls + 76)%nat in Hrun.
  change (250 * Z.of_nat 19)%Z with 4750%Z in Hrun.
  assert (Hsplit : forall a now st,
    Timeline.run 250 (Animation.confetti_callback rnd) a now st
      = (4750, ((calls + 76)%nat, bursts), false)%Z ->
    Timeline.run 250 (Animation.confetti_callback rnd) (a + 1) now st
      = (5000, ((calls + 76)%nat, bursts), true)%Z).
  { induction a as [|a IH]; intros now st H.
    - cbn [Timeline.run] in H. injection H as -> ->. reflexivity.
    - cbn [Nat.add Timeline.run] in *.
      destruct (Animation.confetti_callback rnd (now + 250)%Z st) as [st1 [|]];
        [discriminate|]. by apply IH. }
  apply (Hsplit 19%nat). exact Hrun.
Qed.

End Confetti.

(** X3. With ideal timers and for every random source, the confetti
    interval fires every 250 ms and launches two bursts at each of its first
    19 firings (250 ms to 4750 ms), 38 in all, drawing four random numbers
    each time; at the 20th firing, 5000 ms after the start, it clears itself
    and launches nothing.  The particle count of the k-th pair is
    50 - 2.5 k, so it falls from 47.5 to 2.5; the left burst starts at an x
    in [0.1, 0.3), the right one at an x in [0.7, 0.9), both at a y in
    [-0.2, 0.8). *)
Theorem triggerConfetti_bursts (rnd : Js.Random) (calls : nat) (fuel : nat) :
  (20 <= fuel)%nat ->
  let bursts := flat_map (Animation.confetti_at rnd calls) (seq 1 19) in
  Animation.triggerConfetti rnd calls fuel = (5000%Z, ((calls + 76)%nat, bursts), true)
  /\ length bursts = 38%nat
  /\ forall k, (1 <= k <= 19)%nat ->
       exists left right,
         Animation.confetti_at rnd calls k = [left; right]
         /\ Animation.burst_time left = (250 * Z.of_nat k)%Z
         /\ Animation.burst_time right = (250 * Z.of_nat k)%Z
         /\ (Animation.particleCount left == 50 - (5 # 2) * inject_Z (Z.of_nat k))%Q
         /\ (Animation.particleCount right == Animation.particleCount left)%Q
         /\ (0 < Animation.particleCount left)%Q
         /\ (Animation.particleCount left < 50)%Q
         /\ (0.1 <= Animation.origin_x left)%Q /\ (Animation.origin_x left < 0.3)%Q
         /\ (0.7 <= Animation.origin_x right)%Q /\ (Animation.origin_x right < 0.9)%Q
         /\ (-0.2 <= Animation.origin_y left)%Q /\ (Animation.origin_y left < 0.8)%Q
         /\ (-0.2 <= Animation.origin_y right)%Q /\ (Animation.origin_y right < 0.8)%Q.
Proof.
  intros Hfuel bursts. split_conj.
  - by apply confetti_cleared.
  - reflexivity.
  - intros k Hk. eexists _, _. split; [reflexivity|].
    cbn [Animation.burst_time Animation.particleCount Animation.origin_x
         Animation.origin_y].
    assert (Hcount :
      (50 * (inject_Z (Animation.confetti_duration - 250 * Z.of_nat k)
            / inject_Z Animation.confetti_duration)
      == 50 - (5 # 2) * inject_Z (Z.of_nat k))%Q).
    { change Animation.confetti_duration with 5000%Z.
      unfold Z.sub. rewrite inject_Z_plus, inject_Z_opp, inject_Z_mult.
      field. }
    assert (Hk' : (1 <= inject_Z (Z.of_nat k))%Q /\ (inject_Z (Z.of_nat k) <= 19)%Q).
    { split; unfold Qle; simpl; lia. }
    unfold Animation.randomInRange.
    pose proof (Js.next_range rnd (calls + 4 * (k - 1))%nat).
    pose proof (Js.next_range rnd (calls + 4 * (k - 1) + 1)%nat).
    pose proof (Js.next_range rnd (calls + 4 * (k - 1) + 2)%nat).
    pose proof (Js.next_range rnd (calls + 4 * (k - 1) + 3)%nat).
    split_conj; try reflexivity; try (rewrite ?Hcount; lra).
Qed.

Lemma triggerConfetti_bursts_witness :
  Animation.triggerConfetti Js.sample_random 0 20
  = (5000%Z,
     (76%nat, flat_map (Animation.confetti_at Js.sample_random 0) (seq 1 19)),
     true).
Proof.
  destruct (triggerConfetti_bursts Js.sample_random 0 20) as (Hrun & _); [lia|].
  exact Hrun.
Defined.

(** ** Fitting an image into a canvas *)

Lemma Qle_bool_false a b : Qle_bool a b = false -> (b < a)%Q.
Proof.
  intros H. apply Qnot_le_lt. intros Hle.
  apply Qle_bool_iff in Hle. congruence.
Qed.

Lemma Qle_bool_true a b : Qle_bool a b = true -> (a <= b)%Q.
Proof. apply Qle_bool_iff. Qed.

Ltac halves := unfold Qdiv; change (/ 2)%Q with (1 # 2)%Q.

Lemma Qdiv_mul_cancel a b : (0 < b)%Q -> (a / b * b == a)%Q.
Proof. intros Hb. field. lra. Qed.






(** ** The classes of the reveal screen *)

(** X6. [resetRevealScreen] undoes what [animateReveal] did to the class
    lists.  From any class lists and whatever the trumpet sound does, the
    reveal leaves the five classes it sets (content, faded user canvas,
    result image, text, restart button) and the flash inactive; the reset
    then removes exactly the six classes of the reveal, so a screen that had
    none of them before the reveal is back to the class lists it had. *)
Theorem resetRevealScreen_undoes_reveal (userCanvas : Js.Canvas)
    (slothImage : Animation.Character) (trumpetSound : option Js.Audio)
    (classes : gset (Animation.Element * string)) :
  let shown :=
    Animation.apply_classes classes
      (Animation.operations
         (Animation.animateReveal userCanvas slothImage trumpetSound)) in
  shown = {[ (Animation.RevealContent, "active");
             (Animation.RevealUserCanvas, "fade-out");
             (Animation.RevealResultImage, "fade-in");
             (Animation.RevealText, "active");
             (Animation.RestartBtn, "active") ]}
          ∪ (classes ∖ {[ (Animation.MatchFoundFlash, "active") ]})
  /\ Animation.apply_classes shown Animation.resetRevealScreen
     = classes ∖ Animation.reveal_classes
  /\ (classes ## Animation.reveal_classes ->
      Animation.apply_classes shown Animation.resetRevealScreen = classes).
Proof.
  cbv zeta.
  assert (Hshown :
    Animation.apply_classes classes
      (Animation.operations
         (Animation.animateReveal userCanvas slothImage trumpetSound))
    = {[ (Animation.RestartBtn, "active") ]}
      ∪ ({[ (Animation.RevealText, "active") ]}
      ∪ ({[ (Animation.RevealResultImage, "fade-in") ]}
      ∪ ({[ (Animation.RevealUserCanvas, "fade-out") ]}
      ∪ ({[ (Animation.RevealContent, "active") ]}
      ∪ (({[ (Animation.MatchFoundFlash, "active") ]} ∪ classes)
         ∖ {[ (Animation.MatchFoundFlash, "active") ]})))))).
  { unfold Animation.animateReveal, Animation.operations.
    case_audio trumpetSound; reflexivity. }
  rewrite Hshown. clear Hshown.
  unfold Animation.apply_classes, Animation.resetRevealScreen,
    Animation.reveal_classes.
  cbn [foldl Animation.apply_class].
  assert (Hreset : forall shown : gset (Animation.Element * string),
    shown ∖ {[ (Animation.MatchFoundFlash, "active") ]}
          ∖ {[ (Animation.RevealContent, "active") ]}
          ∖ {[ (Animation.RevealUserCanvas, "fade-out") ]}
          ∖ {[ (Animation.RevealResultImage, "fade-in") ]}
          ∖ {[ (Animation.RevealText, "active") ]}
          ∖ {[ (Animation.RestartBtn, "active") ]}
    = shown ∖ {[ (Animation.MatchFoundFlash, "active");
                 (Animation.RevealContent, "active");
                 (Animation.RevealUserCanvas, "fade-out");
                 (Animation.RevealResultImage, "fade-in");
                 (Animation.RevealText, "active");
                 (Animation.RestartBtn, "active") ]}).
  { intros shown. apply set_eq. intros p.
    rewrite !elem_of_difference, !elem_of_union, !elem_of_singleton.
    tauto. }
  split_conj.
  - apply set_eq. intros p.
    rewrite !elem_of_union, !elem_of_difference, !elem_of_union,
      !elem_of_singleton.
    tauto.
  - rewrite Hreset. apply set_eq. intros p.
    rewrite !elem_of_difference, !elem_of_union, !elem_of_difference,
      !elem_of_union, !elem_of_singleton.
    tauto.
  - intros Hdisj. rewrite Hreset. apply set_eq. intros p.
    specialize (Hdisj p). revert Hdisj.
    rewrite !elem_of_difference, !elem_of_union, !elem_of_difference,
      !elem_of_union, !elem_of_singleton.
    tauto.
Qed.

Lemma resetRevealScreen_undoes_reveal_witness :
  Animation.apply_classes
    (Animation.apply_classes ∅
       (Animation.operations
          (Animation.animateReveal {| Js.width := 300; Js.height := 300 |}
             Preloader.getPlaceholderSloth None)))
    Animation.resetRevealScreen
  = ∅.
Proof.
  destruct (resetRevealScreen_undoes_reveal {| Js.width := 300; Js.height := 300 |}
              Preloader.getPlaceholderSloth None ∅) as (_ & _ & Hback).
  apply Hback. apply disjoint_empty_l.
Defined.

(** ** Landmarks in any number *)

Section AnyLandmarks.
Context (offset : FaceDetection.Point).

Let place (p : FaceDetection.Point) : Q * Q :=
  (FaceDetection.x p - FaceDetection.x offset,
   FaceDetection.y p - FaceDetection.y offset)%Q.

Lemma landmarks_missing {A} (l : list A) n : forall first,
  (length l <= first)%nat -> omap (fun i => l !! i) (seq first n) = [].
Proof.
  induction n as [|n IH]; intros first Hlen; [done|].
  simpl. rewrite (proj2 (lookup_ge_None l first)) by lia. apply IH. lia.
Qed.

(** [slice(first, last + 1)] holds the landmarks numbered [first] to [last]
    that exist. *)
Lemma landmarks_available {A} (l : list A) n : forall first,
  omap (fun i => l !! i) (seq first n) = take n (drop first l).
Proof.
  induction n as [|n IH]; intros first; [done|].
  destruct (l !! first) as [a|] eqn:Ha.
  - rewrite (drop_S l a first Ha). simpl. rewrite Ha. f_equal. apply IH.
  - apply lookup_ge_None in Ha.
    rewrite drop_ge by lia. rewrite take_nil.
    apply landmarks_missing. lia.
Qed.

Lemma slice_available {A} (l : list A) first last :
  FaceDetection.slice first (S last) l
  = FaceDetection.landmarks_between first last l.
Proof.
  unfold FaceDetection.slice, FaceDetection.landmarks_between.
  symmetry. apply landmarks_available.
Qed.

(** A path over any number of points: one polyline if there are at least
    two points, nothing otherwise; what is drawn after it does not depend
    on the path that was current before. *)
Let stroke_of (is_closed : bool) (points : list FaceDetection.Point)
    : option FaceDetection.Polyline :=
  if (length points <? 2)%nat then None
  else Some {| FaceDetection.closed := is_closed;
               FaceDetection.vertices := map place points |}.

Lemma omap_cons_option_list {A B} (f : A -> option B) a l :
  omap f (a :: l) = option_list (f a) ++ omap f l.
Proof. simpl. by destruct (f a). Qed.

Lemma drawPath_strokes_any t path points rest :
  exists path',
    FaceDetection.strokes_from path
      (map (pair t) (FaceDetection.drawPath points offset) ++ rest)
    = option_list (pair t <$> stroke_of false points)
      ++ FaceDetection.strokes_from path' rest.
Proof.
  unfold stroke_of. destruct (Nat.ltb_spec (length points) 2) as [Hlt|Hge].
  - exists path. unfold FaceDetection.drawPath.
    rewrite (proj2 (Nat.ltb_lt _ _) Hlt). reflexivity.
  - eexists. rewrite (drawPath_strokes offset) by lia. reflexivity.
Qed.

Lemma drawClosedPath_strokes_any t path points rest :
  exists path',
    FaceDetection.strokes_from path
      (map (pair t) (FaceDetection.drawClosedPath points offset) ++ rest)
    = option_list (pair t <$> stroke_of true points)
      ++ FaceDetection.strokes_from path' rest.
Proof.
  unfold stroke_of. destruct (Nat.ltb_spec (length points) 2) as [Hlt|Hge].
  - exists path. unfold FaceDetection.drawClosedPath.
    rewrite (proj2 (Nat.ltb_lt _ _) Hlt). reflexivity.
  - eexists. rewrite (drawClosedPath_strokes offset) by lia. reflexivity.
Qed.

Lemma connections_strokes_any t path positions :
  FaceDetection.strokes_from path
    (map (pair t) (FaceDetection.drawLandmarkConnections positions offset))
  = omap (fun c => pair t <$> FaceDetection.available_polyline positions offset c)
      FaceDetection.spec_connections.
Proof.
  unfold FaceDetection.drawLandmarkConnections.
  rewrite !map_app.
  cbn [map app FaceDetection.strokes_from].
  rewrite <- (app_nil_r (map (pair t) (FaceDetection.drawClosedPath
                                         (FaceDetection.slice 60 68 positions) offset))).
  repeat match goal with
  | |- context [FaceDetection.strokes_from ?p
                  (map (pair t) (FaceDetection.drawPath ?pts offset) ++ ?rest)] =>
      let p' := fresh "path" in let H := fresh "H" in
      destruct (drawPath_strokes_any t p pts rest) as [p' H]; rewrite H; clear H
  | |- context [FaceDetection.strokes_from ?p
                  (map (pair t) (FaceDetection.drawClosedPath ?pts offset) ++ ?rest)] =>
      let p' := fresh "path" in let H := fresh "H" in
      destruct (drawClosedPath_strokes_any t p pts rest) as [p' H]; rewrite H; clear H
  end.
  rewrite !slice_available.
  unfold FaceDetection.spec_connections.
  rewrite !omap_cons_option_list.
  reflexivity.
Qed.

End AnyLandmarks.


(** X7. Whatever the number of landmarks, [drawLandmarkConnections]
    strokes, for each of the nine index ranges in turn, the polyline over the
    landmarks of the range that exist, and skips a range with fewer than two
    of them; it draws no circle.  So nothing is stroked for zero or one
    landmark, and with 68 or more landmarks the nine paths are complete and
    landmarks from index 68 on are not used. *)
Theorem drawLandmarkConnections_any_positions (positions : list FaceDetection.Point)
    (offset : FaceDetection.Point) (t : Z) :
  let ops := map (pair t) (FaceDetection.drawLandmarkConnections positions offset) in
  FaceDetection.strokes ops
  = omap (fun c => pair t <$> FaceDetection.available_polyline positions offset c)
      FaceDetection.spec_connections
  /\ FaceDetection.arcs ops = []
  /\ ((length positions <= 1)%nat -> FaceDetection.strokes ops = [])
  /\ ((68 <= length positions)%nat ->
      FaceDetection.strokes ops
      = map (fun c => (t, FaceDetection.spec_polyline (take 68 positions) offset c))
          FaceDetection.spec_connections).
Proof.
  cbv zeta. unfold FaceDetection.strokes. split_conj.
  - apply connections_strokes_any.
  - apply connections_arcs.
  - intros Hlen. rewrite connections_strokes_any.
    destruct positions as [|p [|q ps]]; [reflexivity|reflexivity|].
    simpl in Hlen. lia.
  - intros Hlen. rewrite connections_strokes_any.
    unfold FaceDetection.spec_connections, FaceDetection.available_polyline,
      FaceDetection.spec_polyline.
    cbn [omap list_omap map].
    rewrite <- !slice_available.
    rewrite !slice_length by (rewrite ?length_take; lia).
    cbn [Nat.ltb Nat.leb Nat.sub fmap option_fmap option_map].
    unfold FaceDetection.slice.
    rewrite !take_drop_commute, !take_take.
    reflexivity.
Qed.

Lemma drawLandmarkConnections_any_positions_witness :
  (68 <= length FaceDetection.sample_positions)%nat
  /\ length (FaceDetection.strokes
               (map (pair 0%Z)
                  (FaceDetection.drawLandmarkConnections FaceDetection.sample_positions
                     {| FaceDetection.x := 10; FaceDetection.y := 20 |})))
     = 9%nat.
Proof.
  assert (Hlen : (68 <= length FaceDetection.sample_positions)%nat)
    by (vm_compute; lia).
  split; [exact Hlen|].
  destruct (drawLandmarkConnections_any_positions FaceDetection.sample_positions
              {| FaceDetection.x := 10; FaceDetection.y := 20 |} 0)
    as (_ & _ & _ & Hfull).
  rewrite (Hfull Hlen). reflexivity.
Defined.


(** X8. For any number [n] of landmarks, [displayWithLandmarks] sizes the
    target canvas like the cropped image, copies the image to its origin,
    waits 500 ms, shows landmark i at 500 + 30 i ms, strokes the connection
    paths at 500 + 30 n ms and completes 1000 ms later, after 1500 + 30 n ms
    in all; without landmarks it only waits 1500 ms. *)
Theorem displayWithLandmarks_timing (imageCanvas : Js.Canvas)
    (positions : list FaceDetection.Point) (offset : FaceDetection.Point) :
  let d := FaceDetection.displayWithLandmarks imageCanvas positions offset in
  let script := FaceDetection.then_script d in
  let n := Z.of_nat (length positions) in
  FaceDetection.target d = imageCanvas
  /\ FaceDetection.image_at d = (0, 0)%Q
  /\ Timeline.waits script
     = 500%Z :: replicate (length positions) 30%Z ++ [1000%Z]
  /\ Timeline.elapsed script = (1500 + 30 * n)%Z
  /\ FaceDetection.arcs (Timeline.stamp 0 script)
     = imap (fun i p => ((500 + 30 * Z.of_nat i)%Z,
                         (FaceDetection.x p - FaceDetection.x offset,
                          FaceDetection.y p - FaceDetection.y offset)%Q)) positions
  /\ FaceDetection.strokes (Timeline.stamp 0 script)
     = omap (fun c => pair (500 + 30 * n)%Z
                      <$> FaceDetection.available_polyline positions offset c)
         FaceDetection.spec_connections
  /\ (positions = [] -> Timeline.stamp 0 script = map (pair 500%Z)
        [FaceDetection.SetStrokeStyle "#00ff00"; FaceDetection.SetLineWidth 1]).
Proof.
  cbv zeta. unfold FaceDetection.displayWithLandmarks.
  cbn [FaceDetection.target FaceDetection.image_at FaceDetection.then_script].
  unfold FaceDetection.animateLandmarksProgressive.
  cbn [Timeline.waits Timeline.elapsed Timeline.stamp]. rewrite Z.add_0_l.
  split_conj.
  - reflexivity.
  - reflexivity.
  - rewrite !waits_app, points_waits, waits_Do. reflexivity.
  - rewrite !elapsed_app, points_elapsed, elapsed_Do.
    cbn [Timeline.elapsed]. lia.
  - rewrite points_arcs, stamp_app, stamp_Do, elapsed_Do.
    unfold FaceDetection.arcs at 1. rewrite omap_app.
    match goal with
    | |- context [omap ?f (map (pair ?t) (FaceDetection.drawLandmarkConnections _ _))] =>
        change (omap f (map (pair t)
                  (FaceDetection.drawLandmarkConnections positions offset)))
          with (FaceDetection.arcs (map (pair t)
                  (FaceDetection.drawLandmarkConnections positions offset)))
    end.
    rewrite connections_arcs. cbn [Timeline.stamp omap list_omap app].
    rewrite app_nil_r. reflexivity.
  - unfold FaceDetection.strokes.
    destruct positions as [|p ps] eqn:Hp.
    + cbn [flat_map app length]. rewrite stamp_app, stamp_Do, elapsed_Do.
      cbn [Timeline.stamp]. rewrite app_nil_r.
      apply connections_strokes_any.
    + rewrite <- Hp. rewrite points_strokes by (rewrite Hp; discriminate).
      rewrite stamp_app, stamp_Do, elapsed_Do.
      cbn [Timeline.stamp]. rewrite app_nil_r.
      apply connections_strokes_any.
  - intros ->. reflexivity.
Qed.

Lemma displayWithLandmarks_timing_witness :
  Timeline.stamp 0
    (FaceDetection.then_script
       (FaceDetection.displayWithLandmarks {| Js.width := 300; Js.height := 300 |} []
          {| FaceDetection.x := 10; FaceDetection.y := 20 |}))
  = map (pair 500%Z)
      [FaceDetection.SetStrokeStyle "#00ff00"; FaceDetection.SetLineWidth 1].
Proof.
  destruct (displayWithLandmarks_timing {| Js.width := 300; Js.height := 300 |} []
              {| FaceDetection.x := 10; FaceDetection.y := 20 |})
    as (_ & _ & _ & _ & _ & _ & Hnone).
  apply Hnone. reflexivity.
Defined.

Section DrawLandmarks.
Context (offset : FaceDetection.Point).

Let place (p : FaceDetection.Point) : Q * Q :=
  (FaceDetection.x p - FaceDetection.x offset,
   FaceDetection.y p - FaceDetection.y offset)%Q.

Let outline : FaceDetection.Polyline :=
  {| FaceDetection.closed := false; FaceDetection.vertices := [] |}.

Lemma draw_points_arcs t positions rest :
  FaceDetection.arcs
    (map (pair t) (flat_map (FaceDetection.draw_point offset) positions) ++ rest)
  = map (fun p => (t, place p)) positions ++ FaceDetection.arcs rest.
Proof.
  induction positions as [|p ps IH]; [done|].
  cbn [flat_map FaceDetection.draw_point app map]. simpl. f_equal. exact IH.
Qed.

Lemma draw_points_strokes t positions : forall path rest,
  exists path',
    FaceDetection.strokes_from path
      (map (pair t) (flat_map (FaceDetection.draw_point offset) positions) ++ rest)
    = map (fun _ => (t, outline)) positions
      ++ FaceDetection.strokes_from path' rest.
Proof.
  induction positions as [|p ps IH]; intros path rest.
  - exists path. reflexivity.
  - destruct (IH outline rest) as [path' H]. exists path'.
    cbn [flat_map FaceDetection.draw_point app map FaceDetection.strokes_from].
    f_equal. exact H.
Qed.

End DrawLandmarks.

(** X9. [drawLandmarks] puts one circle per landmark, at the landmark's
    position less the offset, which are the centres the progressive reveal
    uses; it outlines each circle (a stroke without line segment) and then
    strokes the connection paths that [drawLandmarkConnections] strokes. *)
Theorem drawLandmarks_figure (positions : list FaceDetection.Point)
    (offset : FaceDetection.Point) (t : Z) :
  let ops := map (pair t) (FaceDetection.drawLandmarks positions offset) in
  FaceDetection.arcs ops
  = map (fun p => (t, (FaceDetection.x p - FaceDetection.x offset,
                       FaceDetection.y p - FaceDetection.y offset)%Q)) positions
  /\ map snd (FaceDetection.arcs ops)
     = map snd (FaceDetection.arcs
                  (Timeline.stamp 0
                     (FaceDetection.animateLandmarksProgressive positions offset)))
  /\ FaceDetection.strokes ops
     = map (fun _ => (t, {| FaceDetection.closed := false;
                            FaceDetection.vertices := [] |})) positions
       ++ FaceDetection.strokes
            (map (pair t) (FaceDetection.drawLandmarkConnections positions offset)).
Proof.
  cbv zeta. unfold FaceDetection.drawLandmarks. rewrite map_app.
  assert (Harcs :
    FaceDetection.arcs
      (map (pair t) (flat_map (FaceDetection.draw_point offset) positions)
       ++ map (pair t) (FaceDetection.drawLandmarkConnections positions offset))
    = map (fun p => (t, (FaceDetection.x p - FaceDetection.x offset,
                         FaceDetection.y p - FaceDetection.y offset)%Q)) positions).
  { rewrite draw_points_arcs, connections_arcs. apply app_nil_r. }
  split_conj.
  - exact Harcs.
  - rewrite Harcs. unfold FaceDetection.animateLandmarksProgressive.
    rewrite points_arcs, stamp_app, stamp_Do, elapsed_Do.
    unfold FaceDetection.arcs at 1. rewrite omap_app.
    match goal with
    | |- context [omap ?f (map (pair ?t') (FaceDetection.drawLandmarkConnections _ _))] =>
        change (omap f (map (pair t')
                  (FaceDetection.drawLandmarkConnections positions offset)))
          with (FaceDetection.arcs (map (pair t')
                  (FaceDetection.drawLandmarkConnections positions offset)))
    end.
    rewrite connections_arcs. cbn [Timeline.stamp omap list_omap app].
    rewrite !app_nil_r, map_map.
    change (map snd (imap ?g positions)) with (snd <$> imap g positions).
    rewrite fmap_imap. symmetry. apply imap_const.
  - unfold FaceDetection.strokes.
    destruct (draw_points_strokes offset t positions
                {| FaceDetection.closed := false; FaceDetection.vertices := [] |}
                (map (pair t) (FaceDetection.drawLandmarkConnections positions offset)))
      as [path' H].
    rewrite H. f_equal.
    by rewrite !connections_strokes_any.
Qed.




(** ** What the bundle holds *)

Lemma image_outcome_snoc i events e :
  Preloader.image_outcome i (events ++ [e])
  = match e with
    | Preloader.ImageLoad k =>
        if (k =? i)%nat
        then Preloader.resolve
               (Animation.src <$> Preloader.generatePlaceholderImages !! i)
               (Preloader.image_outcome i events)
        else Preloader.image_outcome i events
    | Preloader.ImageError k =>
        if (k =? i)%nat
        then Preloader.resolve None (Preloader.image_outcome i events)
        else Preloader.image_outcome i events
    | _ => Preloader.image_outcome i events
    end.
Proof.
  induction events as [|e' events IH].
  - destruct e as [k|k| | | | | | |]; simpl; try reflexivity;
      destruct (k =? i)%nat; reflexivity.
  - destruct e' as [k'|k'| | | | | | |]; cbn [app Preloader.image_outcome];
      try exact IH.
    + destruct (k' =? i)%nat; [|exact IH].
      destruct e as [k|k| | | | | | |]; try reflexivity;
        destruct (k =? i)%nat; reflexivity.
    + destruct (k' =? i)%nat; [|exact IH].
      destruct e as [k|k| | | | | | |]; try reflexivity;
        destruct (k =? i)%nat; reflexivity.
Qed.

Lemma image_settles_outcomes events k v st :
  Preloader.imagePromises st
  = map (fun i => Preloader.image_outcome i events)
        (seq 0 (length Preloader.generatePlaceholderImages)) ->
  Preloader.imagePromises (Preloader.image_settles k v st)
  = map (fun i => if (k =? i)%nat
                  then Preloader.resolve v (Preloader.image_outcome i events)
                  else Preloader.image_outcome i events)
        (seq 0 (length Preloader.generatePlaceholderImages)).
Proof.
  intros Hst. unfold Preloader.image_settles.
  destruct (Preloader.imagePromises st !! k) as [p|] eqn:Hk.
  - cbn [Preloader.with_images Preloader.imagePromises].
    apply list_eq. intros i.
    rewrite list_lookup_fmap.
    destruct (decide (i = k)) as [->|Hne].
    + rewrite list_lookup_insert_eq by (by eapply lookup_lt_Some).
      rewrite Hst, list_lookup_fmap in Hk.
      destruct (seq 0 (length Preloader.generatePlaceholderImages) !! k)
        as [k'|] eqn:Hseq; [|discriminate].
      apply lookup_seq in Hseq as [-> _]. simpl in Hk. injection Hk as <-.
      simpl. by rewrite Nat.eqb_refl.
    + rewrite list_lookup_insert_ne by done.
      rewrite Hst, list_lookup_fmap.
      destruct (seq 0 (length Preloader.generatePlaceholderImages) !! i)
        as [i'|] eqn:Hseq; [|done].
      apply lookup_seq in Hseq as [-> _]. simpl.
      by rewrite (proj2 (Nat.eqb_neq k i)) by done.
  - rewrite Hst. apply map_ext_in. intros i Hi.
    apply in_seq in Hi.
    rewrite Hst, list_lookup_fmap in Hk.
    destruct (Nat.eqb_spec k i) as [->|_]; [|done].
    rewrite lookup_seq_lt in Hk by lia. discriminate.
Qed.

Lemma handle_other_images st e :
  Preloader.image_index e = None ->
  Preloader.imagePromises (Preloader.handle st e) = Preloader.imagePromises st.
Proof.
  intros He. destruct e as [k|k| | |j|j|j| |]; try discriminate; unfold_handle;
    try reflexivity;
    repeat match goal with
           | |- context [match ?l !! j with _ => _ end] => destruct (l !! j) as [[|]|]
           | |- context [match ?l !! j with _ => _ end] => destruct (l !! j)
           | |- context [match Preloader.modelsPromise st with _ => _ end] =>
               destruct (Preloader.modelsPromise st)
           end; reflexivity.
Qed.

Lemma deliver_image_outcomes events :
  Preloader.imagePromises (Preloader.deliver events)
  = map (fun i => Preloader.image_outcome i events)
        (seq 0 (length Preloader.generatePlaceholderImages)).
Proof.
  induction events as [|e events IH] using rev_ind; [reflexivity|].
  rewrite deliver_snoc.
  destruct (Preloader.image_index e) as [k|] eqn:He.
  - destruct e as [k'|k'| | | | | | |]; try discriminate;
      injection He as ->; cbn [Preloader.handle];
      rewrite (image_settles_outcomes events _ _ _ IH);
      apply map_ext; intros i; rewrite image_outcome_snoc;
      destruct (Nat.eqb_spec k i) as [->|_]; reflexivity.
  - rewrite handle_other_images, IH by done.
    apply map_ext. intros i. rewrite image_outcome_snoc.
    destruct e; try discriminate; reflexivity.
Qed.


Lemma all_Fulfilled_inv {A} (ps : list (Preloader.Promise A)) vs :
  Preloader.all ps = Preloader.Fulfilled vs -> ps = map Preloader.Fulfilled vs.
Proof.
  revert vs. induction ps as [|p ps IH]; intros vs; simpl.
  - by intros [= <-].
  - destruct p as [|v|r]; destruct (Preloader.all ps) as [|vs'|r'];
      try discriminate.
    intros [= <-]. simpl. f_equal. by apply IH.
Qed.

(** The first image event of the i-th image decides what its promise
    holds. *)
Lemma image_outcome_cases i events :
  Preloader.image_outcome i events = Preloader.Pending
  \/ (Preloader.image_outcome i events
      = Preloader.Fulfilled (Animation.src <$> Preloader.generatePlaceholderImages !! i)
      /\ Preloader.ImageLoad i ∈ events)
  \/ (Preloader.image_outcome i events = Preloader.Fulfilled None
      /\ Preloader.ImageError i ∈ events).
Proof.
  induction events as [|e events IH]; [by left|].
  assert (Hrest :
    Preloader.image_outcome i events = Preloader.Pending
    \/ (Preloader.image_outcome i events
        = Preloader.Fulfilled
            (Animation.src <$> Preloader.generatePlaceholderImages !! i)
        /\ Preloader.ImageLoad i ∈ e :: events)
    \/ (Preloader.image_outcome i events = Preloader.Fulfilled None
        /\ Preloader.ImageError i ∈ e :: events)).
  { destruct IH as [?|[[? ?]|[? ?]]]; [by left| |].
    - right; left. split; [done|]. by apply list_elem_of_further.
    - right; right. split; [done|]. by apply list_elem_of_further. }
  destruct e as [k|k| | | | | | |]; cbn [Preloader.image_outcome]; try exact Hrest.
  - destruct (Nat.eqb_spec k i) as [->|_]; [|exact Hrest].
    right; left. split; [done|]. apply list_elem_of_here.
  - destruct (Nat.eqb_spec k i) as [->|_]; [|exact Hrest].
    right; right. split; [done|]. apply list_elem_of_here.
Qed.

Lemma omap_sublist {A B} (f g : A -> option B) l :
  (forall a, f a = None \/ f a = g a) -> omap f l `sublist_of` omap g l.
Proof.
  intros Hfg. induction l as [|a l IH]; [done|].
  simpl. destruct (Hfg a) as [Hf|Hf]; rewrite Hf.
  - destruct (g a); [by apply sublist_cons|done].
  - destruct (g a); [by apply sublist_skip|done].
Qed.

Lemma catalogue_sources :
  omap (fun i => Animation.src <$> Preloader.generatePlaceholderImages !! i)
       (seq 0 (length Preloader.generatePlaceholderImages))
  = map Animation.src Preloader.generatePlaceholderImages.
Proof. reflexivity. Qed.

Lemma catalogue_sources_NoDup :
  NoDup (map Animation.src Preloader.generatePlaceholderImages).
Proof. apply (bool_decide_unpack _). vm_compute. reflexivity. Qed.

Lemma sloth_value events :
  Preloader.slothPromise (Preloader.deliver events) = Preloader.Pending
  \/ Preloader.slothPromise (Preloader.deliver events) = Preloader.Fulfilled None
  \/ Preloader.slothPromise (Preloader.deliver events)
     = Preloader.Fulfilled (Some (Animation.src Preloader.getPlaceholderSloth)).
Proof.
  induction events as [|e events IH] using rev_ind; [by left|].
  rewrite deliver_snoc. set (st := Preloader.deliver events) in *.
  destruct e as [k|k| | |j|j|j| |]; unfold_handle;
    repeat match goal with
           | |- context [match ?l !! ?j with _ => _ end] => destruct (l !! j) as [[|]|]
           | |- context [match ?l !! ?j with _ => _ end] => destruct (l !! j)
           | |- context [match Preloader.modelsPromise st with _ => _ end] =>
               destruct (Preloader.modelsPromise st)
           end;
    cbn [Preloader.slothPromise Preloader.with_images Preloader.with_sloth
         Preloader.with_sounds Preloader.with_models Preloader.updateProgress];
    try exact IH;
    destruct IH as [-> | [-> | ->]]; simpl; auto.
Qed.

Section Bundle.
Context (events : list Preloader.Event).

(** The value of the i-th image promise, [None] for [null]. *)
Let image_value (i : nat) : option string :=
  match Preloader.image_outcome i events with
  | Preloader.Fulfilled v => v
  | _ => None
  end.

Lemma outcomes_fulfilled (l : list nat) : forall vs,
  map (fun i => Preloader.image_outcome i events) l = map Preloader.Fulfilled vs ->
  vs = map image_value l
  /\ forall i, i ∈ l -> Preloader.image_outcome i events <> Preloader.Pending.
Proof.
  induction l as [|a l IH]; intros [|v vs] Hmap; try discriminate.
  - split; [done|]. intros i Hi. by apply elem_of_nil in Hi.
  - cbn [map] in Hmap. injection Hmap as Ha Hl.
    destruct (IH vs Hl) as [-> Hpend]. split.
    + simpl. f_equal. unfold image_value. by rewrite Ha.
    + intros i [->|Hi]%elem_of_cons; [by rewrite Ha|by apply Hpend].
Qed.

Lemma bundle_images bundle :
  Preloader.loadAll (Preloader.deliver events) = Preloader.Fulfilled bundle ->
  Preloader.assets_images bundle
  = omap image_value (seq 0 (length Preloader.generatePlaceholderImages))
  /\ (forall i, (i < length Preloader.generatePlaceholderImages)%nat ->
        Preloader.image_outcome i events <> Preloader.Pending)
  /\ Preloader.slothPromise (Preloader.deliver events)
     = Preloader.Fulfilled (Preloader.assets_slothImage bundle).
Proof.
  unfold Preloader.loadAll. rewrite deliver_image_outcomes.
  destruct (Preloader.all (map _ _)) as [|vs|r] eqn:Hall;
    destruct (Preloader.slothPromise (Preloader.deliver events)) as [|sv|sr];
    destruct (Preloader.all (Preloader.soundPromises (Preloader.deliver events)))
      as [|ss|ar];
    destruct (Preloader.modelsPromise (Preloader.deliver events)) as [|m|mr];
    try discriminate.
  intros [= <-]. cbn [Preloader.assets_images Preloader.assets_slothImage].
  apply all_Fulfilled_inv in Hall.
  destruct (outcomes_fulfilled _ _ Hall) as [-> Hpend].
  split_conj.
  - generalize (seq 0 (length Preloader.generatePlaceholderImages)).
    intros l. induction l as [|a l IH]; [done|].
    cbn [map omap list_omap]. simpl. rewrite IH. by destruct (image_value a).
  - intros i Hi. apply Hpend, elem_of_seq. lia.
  - reflexivity.
Qed.

Lemma image_value_cases i :
  (i < length Preloader.generatePlaceholderImages)%nat ->
  Preloader.image_outcome i events <> Preloader.Pending ->
  (image_value i = (Animation.src <$> Preloader.generatePlaceholderImages !! i)
   /\ Preloader.ImageLoad i ∈ events)
  \/ (image_value i = None /\ Preloader.ImageError i ∈ events).
Proof.
  intros Hi Hpend. unfold image_value.
  destruct (image_outcome_cases i events) as [H|[[H Hin]|[H Hin]]];
    [done| |]; rewrite H; auto.
Qed.

End Bundle.

Lemma bundle_images_sublist events bundle :
  Preloader.loadAll (Preloader.deliver events) = Preloader.Fulfilled bundle ->
  Preloader.assets_images bundle
  `sublist_of` map Animation.src Preloader.generatePlaceholderImages.
Proof.
  intros Hbundle.
  destruct (bundle_images events bundle Hbundle) as (-> & _ & _).
  rewrite <- catalogue_sources. apply omap_sublist. intros i.
  destruct (image_outcome_cases i events) as [H|[[H _]|[H _]]]; rewrite H; auto.
Qed.

Lemma bundle_sloth_value events bundle :
  Preloader.loadAll (Preloader.deliver events) = Preloader.Fulfilled bundle ->
  Preloader.assets_slothImage bundle = None
  \/ Preloader.assets_slothImage bundle
     = Some (Animation.src Preloader.getPlaceholderSloth).
Proof.
  intros Hbundle.
  destruct (bundle_images events bundle Hbundle) as (_ & _ & Hsloth).
  destruct (sloth_value events) as [H|[H|H]];
    rewrite Hsloth in H; [discriminate| |]; injection H as ->; auto.
Qed.

(** X11. When [loadAll] resolves, [assets.images] holds the character
    images that loaded, in catalogue order and nothing else: it is a
    sub-list of the catalogue's sources; an image that had no [error] event
    is in it and an image that had no [load] event is not; without any
    [error] it is the whole catalogue and without any [load] it is empty.
    [assets.slothImage] is the result image or [null]. *)
Theorem loadAll_bundle_images (events : list Preloader.Event)
    (bundle : Preloader.AssetBundle) :
  Preloader.loadAll (Preloader.deliver events) = Preloader.Fulfilled bundle ->
  let catalogue := Preloader.generatePlaceholderImages in
  Preloader.assets_images bundle `sublist_of` map Animation.src catalogue
  /\ (forall i c, catalogue !! i = Some c ->
        Preloader.ImageError i ∉ events ->
        Animation.src c ∈ Preloader.assets_images bundle)
  /\ (forall i c, catalogue !! i = Some c ->
        Preloader.ImageLoad i ∉ events ->
        Animation.src c ∉ Preloader.assets_images bundle)
  /\ ((forall i, Preloader.ImageError i ∉ events) ->
      Preloader.assets_images bundle = map Animation.src catalogue)
  /\ ((forall i, Preloader.ImageLoad i ∉ events) ->
      Preloader.assets_images bundle = [])
  /\ (Preloader.assets_slothImage bundle = None
      \/ Preloader.assets_slothImage bundle
         = Some (Animation.src Preloader.getPlaceholderSloth)).
Proof.
  intros Hbundle. cbv zeta.
  pose proof (bundle_images_sublist events bundle Hbundle) as Hsub.
  pose proof (bundle_sloth_value events bundle Hbundle) as Hresult.
  destruct (bundle_images events bundle Hbundle) as (Himages & Hpend & Hsloth).
  rewrite Himages in *. clear Himages.
  set (value := fun i => match Preloader.image_outcome i events with
                         | Preloader.Fulfilled v => v
                         | _ => None
                         end) in *.
  assert (Hcases : forall i, (i < length Preloader.generatePlaceholderImages)%nat ->
    (value i = (Animation.src <$> Preloader.generatePlaceholderImages !! i)
     /\ Preloader.ImageLoad i ∈ events)
    \/ (value i = None /\ Preloader.ImageError i ∈ events)).
  { intros i Hi. apply image_value_cases; [exact Hi|by apply Hpend]. }
  split_conj.
  - exact Hsub.
  - intros i c Hc Herr. apply list_elem_of_omap. exists i.
    assert (Hi : (i < length Preloader.generatePlaceholderImages)%nat) by (by eapply lookup_lt_Some).
    split; [apply elem_of_seq; lia|].
    destruct (Hcases i Hi) as [[Hv _]|[_ Hin]]; [|done].
    by rewrite Hv, Hc.
  - intros i c Hc Hload [j [Hj Hv]]%list_elem_of_omap.
    apply elem_of_seq in Hj.
    destruct (Hcases j ltac:(lia)) as [[Hv' Hin]|[Hv' _]]; [|congruence].
    rewrite Hv in Hv'.
    assert (j = i); [|by subst].
    apply (NoDup_lookup _ j i (Animation.src c) catalogue_sources_NoDup).
    + by rewrite list_lookup_fmap.
    + by rewrite list_lookup_fmap, Hc.
  - intros Hnone. rewrite <- catalogue_sources.
    apply list_omap_ext. apply Forall2_same_length_lookup. split; [done|].
    intros i a b Ha Hb. rewrite Ha in Hb. injection Hb as <-.
    apply lookup_seq in Ha as [-> Hi]. rewrite Nat.add_0_l.
    destruct (Hcases i Hi) as [[Hv _]|[_ Hin]]; [done|].
    by destruct (Hnone i).
  - intros Hnone.
    assert (Hall : forall l, Forall (fun i => (i < length Preloader.generatePlaceholderImages)%nat) l ->
                             omap value l = []).
    { induction l as [|a l IH]; [done|]. intros [Ha Hl]%Forall_cons.
      simpl. destruct (Hcases a Ha) as [[_ Hin]|[Hv _]]; [by destruct (Hnone a)|].
      rewrite Hv. by apply IH. }
    apply Hall. apply Forall_forall. intros i Hi%elem_of_seq. lia.
  - exact Hresult.
Qed.

Lemma loadAll_bundle_images_witness :
  exists bundle,
    Preloader.loadAll (Preloader.deliver Preloader.sample_events)
    = Preloader.Fulfilled bundle
    /\ Preloader.assets_images bundle
       = map Animation.src Preloader.generatePlaceholderImages.
Proof.
  destruct (complete_load_fulfilled _ sample_events_complete) as [bundle Hbundle].
  exists bundle. split; [exact Hbundle|].
  destruct (loadAll_bundle_images _ _ Hbundle) as (_ & _ & _ & Hall & _).
  apply Hall. intros i Hin. unfold Preloader.sample_events in Hin.
  apply elem_of_app in Hin as [Hin|Hin].
  - apply list_elem_of_fmap in Hin as (k & Hk & _). discriminate.
  - repeat match type of Hin with
           | _ ∈ _ :: _ => apply elem_of_cons in Hin as [Hin|Hin]; [discriminate|]
           end.
    by apply elem_of_nil in Hin.
Defined.

(** ** From the bundle to the comparison and the reveal *)

Lemma getCharacterImages_nonempty images : App.getCharacterImages images <> [].
Proof.
  unfold App.getCharacterImages. destruct images as [|s images]; simpl; discriminate.
Qed.






(** ** The listeners of an audio element *)

Lemma resolve_settled {A} (v : A) p :
  Preloader.is_pending p = false -> Preloader.resolve v p = p.
Proof. by destruct p. Qed.

Section AudioListeners.
Context (events : list Preloader.Event) (j : nat).
Hypothesis Hj : (j < length Preloader.sounds)%nat.

Let st := Preloader.deliver events.

Lemma sound_promise_known :
  exists p, Preloader.soundPromises st !! j = Some p
    /\ Preloader.is_pending p
       = negb (existsb (Preloader.is_ready j) events
               || existsb (Preloader.is_error j) events)
    /\ Preloader.ready_listener st !! j
       = Some (negb (existsb (Preloader.is_ready j) events))
    /\ Preloader.error_listener st !! j
       = Some (negb (existsb (Preloader.is_error j) events)).
Proof.
  pose proof (deliver_tracks events)
    as (_ & _ & _ & Hslen & Hready & Herror & _ & Hsp & _).
  fold st in Hslen, Hready, Herror, Hsp.
  destruct (lookup_lt_is_Some_2 (Preloader.soundPromises st) j
              ltac:(rewrite Hslen; exact Hj)) as [p Hp].
  exists p. split_conj; [exact Hp|by apply Hsp|by apply Hready|by apply Herror].
Qed.

(** A ready event on an element whose ready listeners are gone, or an
    [error] event on one whose [error] listener is gone, does nothing. *)
Lemma ready_again :
  existsb (Preloader.is_ready j) events = true ->
  Preloader.handleCanPlay j st = st.
Proof.
  intros Hseen. destruct sound_promise_known as (p & Hp & _ & Hready & _).
  unfold Preloader.handleCanPlay. by rewrite Hp, Hready, Hseen.
Qed.

Lemma error_again :
  existsb (Preloader.is_error j) events = true ->
  Preloader.handleError j st = st.
Proof.
  intros Hseen. destruct sound_promise_known as (p & Hp & _ & _ & Herror).
  unfold Preloader.handleError. by rewrite Hp, Herror, Hseen.
Qed.

(** The other kind of event, on an element that has settled, is counted
    and reported, and settles nothing. *)
Lemma error_after_ready :
  existsb (Preloader.is_ready j) events = true ->
  existsb (Preloader.is_error j) events = false ->
  let st' := Preloader.handleError j st in
  Preloader.loadedAssets st' = (Preloader.loadedAssets st + 1)%Z
  /\ Preloader.progressBar_width st'
     = Preloader.progressBar_width st ++ [Preloader.percent st']
  /\ Preloader.soundPromises st' = Preloader.soundPromises st
  /\ Preloader.loadAll st' = Preloader.loadAll st.
Proof.
  intros Hready Herr.
  destruct sound_promise_known as (p & Hp & Hpend & _ & Herror).
  rewrite Hready in Hpend. rewrite Herr in Herror.
  unfold Preloader.handleError. rewrite Hp, Herror.
  cbn [negb]. rewrite (resolve_settled _ _ Hpend), (list_insert_id _ _ _ Hp).
  cbv zeta. split_conj; reflexivity.
Qed.

Lemma ready_after_error :
  existsb (Preloader.is_error j) events = true ->
  existsb (Preloader.is_ready j) events = false ->
  let st' := Preloader.handleCanPlay j st in
  Preloader.loadedAssets st' = (Preloader.loadedAssets st + 1)%Z
  /\ Preloader.progressBar_width st'
     = Preloader.progressBar_width st ++ [Preloader.percent st']
  /\ Preloader.soundPromises st' = Preloader.soundPromises st
  /\ Preloader.loadAll st' = Preloader.loadAll st.
Proof.
  intros Herr Hready.
  destruct sound_promise_known as (p & Hp & Hpend & Hlistener & _).
  rewrite Herr, orb_true_r in Hpend. rewrite Hready in Hlistener.
  unfold Preloader.handleCanPlay. rewrite Hp, Hlistener.
  cbn [negb]. rewrite (resolve_settled _ _ Hpend), (list_insert_id _ _ _ Hp).
  cbv zeta. split_conj; reflexivity.
Qed.

End AudioListeners.

(** X14. The listeners of an audio element, after any list of events.  A
    second ready event ([canplaythrough] or [loadeddata]) of an element does
    nothing, and neither does a second [error] event: the handlers removed
    their listeners.  But the ready handler leaves the [error] listener
    attached and the error handler leaves the ready listeners attached, so
    the first event of the other kind is handled too: the counter goes up
    by one and the bar is written, although the promise is settled and
    keeps its value, and so does what [loadAll] returns. *)
Theorem audio_listeners (events : list Preloader.Event) (j : nat) :
  (j < length Preloader.sounds)%nat ->
  let st := Preloader.deliver events in
  let ready := existsb (Preloader.is_ready j) events in
  let failed := existsb (Preloader.is_error j) events in
  (ready = true ->
   Preloader.handle st (Preloader.AudioCanPlayThrough j) = st
   /\ Preloader.handle st (Preloader.AudioLoadedData j) = st)
  /\ (failed = true -> Preloader.handle st (Preloader.AudioError j) = st)
  /\ (ready = true -> failed = false ->
      let st' := Preloader.handle st (Preloader.AudioError j) in
      Preloader.loadedAssets st' = (Preloader.loadedAssets st + 1)%Z
      /\ Preloader.progressBar_width st'
         = Preloader.progressBar_width st ++ [Preloader.percent st']
      /\ Preloader.soundPromises st' = Preloader.soundPromises st
      /\ Preloader.loadAll st' = Preloader.loadAll st)
  /\ (failed = true -> ready = false ->
      forall e, e = Preloader.AudioCanPlayThrough j \/ e = Preloader.AudioLoadedData j ->
      let st' := Preloader.handle st e in
      Preloader.loadedAssets st' = (Preloader.loadedAssets st + 1)%Z
      /\ Preloader.progressBar_width st'
         = Preloader.progressBar_width st ++ [Preloader.percent st']
      /\ Preloader.soundPromises st' = Preloader.soundPromises st
      /\ Preloader.loadAll st' = Preloader.loadAll st).
Proof.
  intros Hj. cbv zeta. cbn [Preloader.handle]. split_conj.
  - intros Hready. split; by apply ready_again.
  - by apply error_again.
  - by apply error_after_ready.
  - intros Herr Hready e [-> | ->]; cbn [Preloader.handle];
      by apply ready_after_error.
Qed.

Lemma audio_listeners_witness :
  let st := Preloader.deliver Preloader.sample_events in
  Preloader.loadedAssets (Preloader.handle st (Preloader.AudioError 0))
  = (Preloader.loadedAssets st + 1)%Z
  /\ Preloader.loadAll (Preloader.handle st (Preloader.AudioError 0))
     = Preloader.loadAll st.
Proof.
  destruct (audio_listeners Preloader.sample_events 0) as (_ & _ & Hother & _);
    [vm_compute; lia|].
  destruct Hother as (Hcount & _ & _ & Hsame); [reflexivity|reflexivity|].
  split; [exact Hcount|exact Hsame].
Defined.

(** ** The status line *)

Lemma Qltb_inject (n m : Z) :
  Preloader.Qltb (inject_Z n) (inject_Z m) = (n <? m)%Z.
Proof.
  unfold Preloader.Qltb.
  destruct (Z.ltb_spec n m) as [Hlt|Hge].
  - apply negb_true_iff. destruct (Qle_bool (inject_Z m) (inject_Z n)) eqn:H; [|done].
    apply Qle_bool_iff in H. rewrite <- Zle_Qle in H. lia.
  - apply negb_false_iff. apply Qle_bool_iff. rewrite <- Zle_Qle. lia.
Qed.

Lemma status_for_counter (loaded : Z) :
  Preloader.status_for (inject_Z loaded / inject_Z 25 * 100)
  = if (loaded <? 8)%Z then "Loading assets..."
    else if (loaded <? 18)%Z then "Loading facial recognition models..."
    else if (loaded <? 25)%Z then "Almost ready..."
    else "Ready!".
Proof.
  assert (Hp : (inject_Z loaded / inject_Z 25 * 100 == inject_Z (4 * loaded))%Q).
  { rewrite inject_Z_mult. field. }
  assert (Hlt : forall m, Preloader.Qltb (inject_Z loaded / inject_Z 25 * 100) (inject_Z m)
                          = (4 * loaded <? m)%Z).
  { intros m. rewrite <- Qltb_inject. unfold Preloader.Qltb. f_equal.
    destruct (Qle_bool (inject_Z m) (inject_Z (4 * loaded))) eqn:H.
    - apply Qle_bool_iff. apply Qle_bool_iff in H. by rewrite Hp.
    - destruct (Qle_bool (inject_Z m) (inject_Z loaded / inject_Z 25 * 100)) eqn:H';
        [|done].
      apply Qle_bool_iff in H'. rewrite Hp in H'. apply Qle_bool_iff in H'. congruence. }
  unfold Preloader.status_for.
  rewrite (Hlt 30%Z : Preloader.Qltb _ 30 = _),
    (Hlt 70%Z : Preloader.Qltb _ 70 = _),
    (Hlt 100%Z : Preloader.Qltb _ 100 = _).
  destruct (Z.ltb_spec (4 * loaded) 30), (Z.ltb_spec loaded 8); try lia; try done.
  destruct (Z.ltb_spec (4 * loaded) 70), (Z.ltb_spec loaded 18); try lia; try done.
  destruct (Z.ltb_spec (4 * loaded) 100), (Z.ltb_spec loaded 25); try lia; done.
Qed.

(** X15. After any list of events the status line is the one for the
    counter: empty while nothing is counted, then "Loading assets..." up to
    7 of 25, "Loading facial recognition models..." from 8 to 17 (whether or
    not the models are what is loading), "Almost ready..." from 18 to 24 and
    "Ready!" from 25 on. *)
Theorem status_follows_counter (events : list Preloader.Event) :
  let st := Preloader.deliver events in
  let loaded := Preloader.loadedAssets st in
  (0 <= loaded)%Z
  /\ (Preloader.statusText st = None -> loaded = 0%Z)
  /\ forall s, Preloader.statusText st = Some s ->
       s = (if (loaded <? 8)%Z then "Loading assets..."
            else if (loaded <? 18)%Z then "Loading facial recognition models..."
            else if (loaded <? 25)%Z then "Almost ready..."
            else "Ready!")
       /\ (s = "Ready!" <-> (25 <= loaded)%Z).
Proof.
  cbv zeta.
  pose proof (deliver_tracks events) as (Htot & Hload & _).
  pose proof (deliver_reports events) as [_ Hrep].
  pose proof (counted_nonneg events) as Hnonneg.
  set (st := Preloader.deliver events) in *.
  split_conj.
  - by rewrite Hload.
  - intros Hnone. destruct Hrep as [(_ & H0 & _)|[_ Hs]]; [done|congruence].
  - intros s Hs. destruct Hrep as [(_ & _ & Hnone)|[_ Hstatus]]; [congruence|].
    rewrite Hs in Hstatus. injection Hstatus as ->.
    unfold Preloader.percent, Preloader.ratio. rewrite Htot.
    rewrite status_for_counter. split; [done|].
    destruct (Z.ltb_spec (Preloader.loadedAssets st) 8);
      [split; [discriminate|lia]|].
    destruct (Z.ltb_spec (Preloader.loadedAssets st) 18);
      [split; [discriminate|lia]|].
    destruct (Z.ltb_spec (Preloader.loadedAssets st) 25);
      [split; [discriminate|lia]|].
    done.
Qed.

Lemma status_follows_counter_witness :
  Preloader.statusText (Preloader.deliver Preloader.sample_events) = Some "Ready!"
  /\ (25 <= Preloader.loadedAssets (Preloader.deliver Preloader.sample_events))%Z.
Proof.
  assert (Hs : Preloader.statusText (Preloader.deliver Preloader.sample_events)
               = Some "Ready!") by (vm_compute; reflexivity).
  split; [exact Hs|].
  destruct (status_follows_counter Preloader.sample_events) as (_ & _ & Hstatus).
  destruct (Hstatus "Ready!" Hs) as (_ & Hready).
  apply Hready. reflexivity.
Defined.

(** ** The wait for the detection library *)

Lemma waitForFaceApi_loop_spec defined remaining : forall attempts,
  let result := App.waitForFaceApi_loop defined attempts remaining in
  (attempts <= result <= attempts + remaining)%nat
  /\ (forall k, (attempts <= k < result)%nat -> defined k = false)
  /\ ((result < attempts + remaining)%nat -> defined result = true).
Proof.
  induction remaining as [|remaining IH]; intros attempts; cbv zeta.
  - simpl. split_conj; intros; lia.
  - cbn [App.waitForFaceApi_loop].
    destruct (defined attempts) eqn:Hdef.
    + split_conj; [lia|lia|intros; lia|done].
    + destruct (IH (S attempts)) as ((Hlo & Hhi) & Hbefore & Hfound).
      split_conj; [lia|lia| |].
      * intros k Hk. destruct (decide (k = attempts)) as [->|Hne]; [done|].
        apply Hbefore. lia.
      * intros Hlt. apply Hfound. lia.
Qed.

Lemma elapsed_replicate_wait {Op} n ms :
  Timeline.elapsed (replicate n (@Timeline.Wait Op ms)) = (Z.of_nat n * ms)%Z.
Proof. induction n as [|n IH]; [done|]. cbn [replicate Timeline.elapsed]. lia. Qed.

(** X16. [waitForFaceApi] tests for the library every 100 ms and gives up
    after 50 waits: it returns at the first test that finds the library, at
    the latest after 5000 ms; it reports the failure (console and alert)
    exactly when the library is still missing at the moment it returns, which
    then is the 5000 ms mark with every one of the 51 tests failed; a library
    that is there from the start costs no wait. *)
Theorem waitForFaceApi_bounded (defined : nat -> bool) :
  let script := App.waitForFaceApi defined in
  let attempts := App.waitForFaceApi_loop defined 0 50 in
  let alerted := bool_decide (Timeline.stamp 0 script <> []) in
  (attempts <= 50)%nat
  /\ Timeline.elapsed script = (100 * Z.of_nat attempts)%Z
  /\ (forall k, (k < attempts)%nat -> defined k = false)
  /\ ((attempts < 50)%nat -> defined attempts = true)
  /\ alerted = negb (defined attempts)
  /\ (alerted = true ->
      attempts = 50%nat /\ forall k, (k <= 50)%nat -> defined k = false)
  /\ (forall k, (k <= 50)%nat -> defined k = true ->
      alerted = false /\ (attempts <= k)%nat)
  /\ (defined 0%nat = true -> script = []).
Proof.
  cbv zeta.
  destruct (waitForFaceApi_loop_spec defined 50 0) as ((_ & Hhi) & Hbefore & Hfound).
  cbv zeta in Hhi, Hbefore, Hfound.
  unfold App.waitForFaceApi.
  set (attempts := App.waitForFaceApi_loop defined 0 50) in *.
  assert (Hstamp : forall (tail : list (Timeline.Action App.InitOp)) n now,
    Timeline.stamp now (replicate n (Timeline.Wait 100) ++ tail)
    = Timeline.stamp (now + 100 * Z.of_nat n) tail).
  { intros tail n. induction n as [|n IH]; intros now.
    - simpl. by rewrite Z.add_0_r.
    - cbn [replicate app Timeline.stamp]. rewrite IH. f_equal. lia. }
  assert (Halert :
    bool_decide
      (Timeline.stamp 0
         (replicate attempts (Timeline.Wait 100)
          ++ (if defined attempts then []
              else [Timeline.Do (App.ConsoleError "face-api.js failed to load");
                    Timeline.Do (App.AlertUser
                      "Failed to load facial recognition library. Please refresh the page.")]))
       <> [])
    = negb (defined attempts)).
  { rewrite Hstamp. destruct (defined attempts); reflexivity. }
  split_conj.
  - lia.
  - rewrite elapsed_app, elapsed_replicate_wait.
    destruct (defined attempts); cbn [Timeline.elapsed]; lia.
  - intros k Hk. apply Hbefore. lia.
  - intros Hlt. apply Hfound. lia.
  - exact Halert.
  - rewrite Halert. intros Hmissing. apply negb_true_iff in Hmissing.
    assert (attempts = 50%nat).
    { destruct (decide (attempts < 50)%nat) as [Hlt|Hge]; [|lia].
      rewrite Hfound in Hmissing by lia. discriminate. }
    split; [done|]. intros k Hk.
    destruct (decide (k = attempts)) as [->|Hne]; [done|].
    apply Hbefore. lia.
  - intros k Hk Hdef. rewrite Halert.
    assert (Hle : (attempts <= k)%nat).
    { destruct (decide (attempts <= k)%nat) as [|Hgt]; [done|].
      rewrite Hbefore in Hdef by lia. discriminate. }
    split; [|exact Hle].
    apply negb_false_iff.
    destruct (decide (attempts = k)) as [->|Hne]; [done|].
    apply Hfound. lia.
  - intros H0. subst attempts. cbn [App.waitForFaceApi_loop].
    rewrite H0. cbn [replicate app]. by rewrite H0.
Qed.

Lemma waitForFaceApi_bounded_witness :
  Timeline.elapsed (App.waitForFaceApi (fun k => (3 <=? k)%nat)) = 300%Z
  /\ Timeline.stamp 0 (App.waitForFaceApi (fun k => (3 <=? k)%nat)) = [].
Proof.
  destruct (waitForFaceApi_bounded (fun k => (3 <=? k)%nat))
    as (_ & Helapsed & _ & _ & _ & _ & Hfound & _).
  split; [exact Helapsed|].
  destruct (Hfound 3%nat) as [Hquiet _]; [lia|reflexivity|].
  apply bool_decide_eq_false in Hquiet.
  destruct (Timeline.stamp 0 (App.waitForFaceApi (fun k => (3 <=? k)%nat)));
    [reflexivity|].
  exfalso. apply Hquiet. discriminate.
Defined.

(** ** The screens *)

Lemma switch_from_shown (current next s : App.Screen) :
  ({[ next ]} ∪ (({[ s ]} : gset App.Screen) ∖ {[ current ]})
   : gset App.Screen)
  = if decide (s = current) then {[ next ]} else {[ next; s ]}.
Proof.
  destruct (decide (s = current)) as [->|Hne].
  - rewrite difference_diag_L. apply (right_id_L ∅ (∪)).
  - f_equal. apply set_eq. intros x.
    rewrite elem_of_difference, !elem_of_singleton. split; [tauto|].
    intros ->. split; [done|]. done.
Qed.

Lemma processImage_screen_after p st s :
  App.active st = {[ s ]} -> s = App.UploadScreen \/ s = App.WebcamScreen ->
  App.active (App.processImage p st).1 = {[ App.screen_after_process p ]}.
Proof.
  intros Hactive Hs.
  destruct p; simpl; rewrite Hactive; destruct Hs as [-> | ->];
    apply set_eq; intros x;
    rewrite ?elem_of_union, ?elem_of_difference, ?elem_of_union,
      ?elem_of_difference, ?elem_of_union, ?elem_of_difference,
      ?elem_of_union, ?elem_of_difference, ?elem_of_singleton;
    intuition congruence.
Qed.

Lemma step_screen st e :
  App.enabled st e = true ->
  App.active (App.step st e) = {[ App.screen_after e ]}.
Proof.
  intros Hen. pose proof (enabled_screen st e Hen) as Hactive.
  destruct e as [granted|o| |o| | ]; cbn [App.screen_of_event] in Hactive.
  - destruct granted; simpl; rewrite Hactive; [|done].
    rewrite difference_diag_L. apply (right_id_L ∅ (∪)).
  - unfold App.step, App.handleTakePhoto. destruct o as [| |p]; [done|done|].
    pose proof (processImage_screen_after p
                  (App.camera_stop (App.set_disabled true st)) _ Hactive
                  ltac:(by right)) as Hp.
    destruct (App.processImage p (App.camera_stop (App.set_disabled true st)))
      as [st1 [|]]; exact Hp.
  - simpl. rewrite Hactive.
    rewrite difference_diag_L. apply (right_id_L ∅ (∪)).
  - unfold App.step, App.handleFileUpload. destruct o as [| |p]; [done|done|].
    pose proof (processImage_screen_after p st _ Hactive ltac:(by left)) as Hp.
    destruct (App.processImage p st) as [st1 [|]]; exact Hp.
  - simpl. rewrite Hactive.
    rewrite difference_diag_L. apply (right_id_L ∅ (∪)).
  - simpl. rewrite Hactive.
    rewrite difference_diag_L. apply (right_id_L ∅ (∪)).
Qed.

Lemma run_screen events : forall st st' s,
  App.active st = {[ s ]} ->
  App.run st events = Some st' ->
  App.active st' = {[ match last events with
                      | Some e => App.screen_after e
                      | None => s
                      end ]}.
Proof.
  induction events as [|e events IH]; intros st st' s Hactive; simpl.
  - by intros [= <-].
  - destruct (App.enabled st e) eqn:Hen; [|done].
    intros Hrun. rewrite (IH _ _ _ (step_screen st e Hen) Hrun).
    destruct events as [|e' events]; [done|].
    change (last (e :: e' :: events)) with (last (e' :: events)).
    destruct (last (e' :: events)) eqn:Hlast; [done|].
    by apply last_None in Hlast.
Qed.



(** ** The camera and the device *)

(** X18. [stop] detaches the preview and forgets the stream whatever the
    camera held, keeps the two sounds, and a second [stop] changes nothing.
    A granted [start] followed by [stop] leaves live exactly the streams
    that were live before (the new stream being a fresh one); a refused
    [start] changes nothing.  But [start] does not stop a stream the camera
    already holds: after two granted calls, [stop] ends the second stream
    only and the first stays live. *)
Theorem camera_start_stop (cam : Camera.Camera) (dev : Camera.Device) :
  let stopped := Camera.stop cam dev in
  Camera.stream stopped.1 = None
  /\ Camera.video_srcObject stopped.1 = None
  /\ Camera.timerBeepSound stopped.1 = Camera.timerBeepSound cam
  /\ Camera.shutterSound stopped.1 = Camera.shutterSound cam
  /\ Camera.stop stopped.1 stopped.2 = stopped
  /\ Camera.start false cam dev = (false, cam, dev)
  /\ (let '(ok, cam1, dev1) := Camera.start true cam dev in
      let '(cam2, dev2) := Camera.stop cam1 dev1 in
      ok = true
      /\ Camera.stream cam1 = Some (Camera.next_stream dev)
      /\ Camera.next_stream dev ∈ Camera.live dev1
      /\ Camera.stream cam2 = None
      /\ (Camera.next_stream dev ∉ Camera.live dev ->
          Camera.live dev2 = Camera.live dev)
      /\ let '(_, cam3, dev3) := Camera.start true cam1 dev1 in
         let '(cam4, dev4) := Camera.stop cam3 dev3 in
         Camera.stream cam4 = None
         /\ Camera.next_stream dev ∈ Camera.live dev4).
Proof.
  cbv zeta. unfold Camera.stop, Camera.start. simpl.
  split_conj; try reflexivity.
  - apply elem_of_union. left. by apply elem_of_singleton.
  - intros Hfresh. apply set_eq. intros x.
    rewrite elem_of_difference, elem_of_union, elem_of_singleton.
    split; [tauto|]. intros Hx. split; [tauto|]. by intros ->.
  - rewrite elem_of_difference, !elem_of_union, !elem_of_singleton.
    split; [tauto|]. lia.
Qed.

Lemma camera_start_stop_witness :
  let dev := {| Camera.live := ∅; Camera.next_stream := 0 |} in
  let '(_, cam1, dev1) := Camera.start true Camera.new_camera dev in
  Camera.live (Camera.stop cam1 dev1).2 = ∅.
Proof.
  pose proof (camera_start_stop Camera.new_camera
                {| Camera.live := ∅; Camera.next_stream := 0 |})
    as (_ & _ & _ & _ & _ & _ & Hstart).
  cbv zeta in *.
  destruct (Camera.start true Camera.new_camera
              {| Camera.live := ∅; Camera.next_stream := 0 |})
    as [[ok cam1] dev1].
  destruct (Camera.stop cam1 dev1) as [cam2 dev2].
  destruct Hstart as (_ & _ & _ & _ & Hlive & _).
  apply Hlive. apply not_elem_of_empty.
Defined.

(** ** From the picture to the crop *)

Lemma resizeImage_square_limit (image : Js.Canvas) (limit : Q) :
  (0 < Js.width image)%Q -> (0 < Js.height image)%Q -> (0 < limit)%Q ->
  (Js.width (Camera.resizeImage image limit limit) <= limit)%Q
  /\ (Js.height (Camera.resizeImage image limit limit) <= limit)%Q.
Proof.
  intros Hw Hh Hl. unfold Camera.resizeImage.
  destruct (Qle_bool (Js.width image) (Js.height image)) eqn:Hle; cbn [negb].
  - apply Qle_bool_true in Hle.
    destruct (Qle_bool (Js.height image) limit) eqn:Hfit; cbn [negb].
    + apply Qle_bool_true in Hfit. split; lra.
    + apply Qle_bool_false in Hfit. cbn [Js.width Js.height].
      pose proof (Qdiv_mul_cancel limit (Js.height image) Hh) as Hr.
      set (r := (limit / Js.height image)%Q) in *. clearbody r.
      assert (Hr0 : (0 < r)%Q) by nra.
      split; [nra|lra].
  - apply Qle_bool_false in Hle.
    destruct (Qle_bool (Js.width image) limit) eqn:Hfit; cbn [negb].
    + apply Qle_bool_true in Hfit. split; lra.
    + apply Qle_bool_false in Hfit. cbn [Js.width Js.height].
      pose proof (Qdiv_mul_cancel limit (Js.width image) Hw) as Hr.
      set (r := (limit / Js.width image)%Q) in *. clearbody r.
      assert (Hr0 : (0 < r)%Q) by nra.
      split; [lra|nra].
Qed.


